(** * JobQueue: the in-memory job store, the worker pool and the handlers

    A shallow embedding of [JobQueue/store/store.go],
    [JobQueue/worker/pool.go], the job handlers of
    [JobQueue/handler/handler.go] and the interactive mode of
    [JobQueue/main.go].

    - Go pointers are locations of an explicit heap; [MemoryStore.jobs]
      maps an identifier to the location of its [Job], as the Go map of
      type [map[string]*Job] does, so that a pointer shared with a caller
      and a copy handed to a caller are different things.
    - [time.Now()] is an explicit argument of the operations that read
      the clock.
    - A Go panic is the [Panic] result; [Blocked] is a goroutine that
      cannot take the step asked of it.
    - The channel [p.jobs] has its buffer, its capacity, its closed flag
      and its queue of blocked receivers.
    - The pool is a transition system over atomic actions: channel
      operations, store operations (each under the store's mutex),
      goroutine starts and exits, the return of an executor, the passing
      of a deadline. A schedule is a list of actions, taken by the callers
      and by the goroutines of the pool in any order.
    - The select of [processJob] sees which of its two channels are ready;
      with both ready it may take either case.
    - The pool state carries two histories that the program does not
      have: the identifiers [Submit] accepted and the [UpdateStatus] calls
      the workers made.
    - A handler is given what the HTTP layer hands it: the decoded body or
      the decoding error, the path of the URL; its answer is the status
      code and the payload it gives to [writeJSON]. Routing, encoding and
      the dashboard page are not modelled.
    - Library functions whose result is only compared or passed on
      ([strings.TrimSpace], [strconv.Atoi], the [%q] verb, the identifier
      drawn by [uuid.NewString]) are parameters or arguments. *)

From stdpp Require Import base strings gmap list.
From Stdlib Require Import ZArith Lia.

Local Open Scope string_scope.
Local Open Scope Z_scope.
Local Open Scope list_scope.

(** ** Results of operations that may panic *)

Inductive Result (A : Type) : Type :=
| Ok (a : A)
| Panic (msg : string)
| Blocked.
Arguments Ok {A} a.
Arguments Panic {A} msg.
Arguments Blocked {A}.

Definition rbind {A B : Type} (r : Result A) (k : A → Result B) : Result B :=
  match r with
  | Ok a => k a
  | Panic msg => Panic msg
  | Blocked => Blocked
  end.

(** ** package store *)

Module Store.

(** [type Status string] *)
Definition Status : Type := string.

Definition StatusQueued : Status := "queued".
Definition StatusRunning : Status := "running".
Definition StatusCompleted : Status := "completed".
Definition StatusFailed : Status := "failed".
Definition StatusCancelled : Status := "cancelled".

(** [completed], [failed] and [cancelled] are the terminal statuses. *)
Definition terminal (st : Status) : bool :=
  bool_decide (st = StatusCompleted) || bool_decide (st = StatusFailed)
  || bool_decide (st = StatusCancelled).

(** [time.Time], as an abstract instant. *)
Definition Time : Type := Z.

Record Job : Type := mkJob {
  ID : string;
  Task : string;
  JobStatus : Status;
  Error : string;
  CreatedAt : Time;
  UpdatedAt : Time
}.

(** The zero value [Job{}]. *)
Definition zeroJob : Job := mkJob "" "" "" "" 0 0.

(** [errors.New("job not found")] *)
Inductive error : Type := ErrNotFound.

Definition error_text (e : error) : string :=
  match e with ErrNotFound => "job not found" end.

(** Heap of [Job] objects; a location that is not allocated behaves as
    the nil pointer. *)
Abbreviation loc := positive (only parsing).

(** [&Job{...}]: allocation of a new object. *)
Definition alloc (h : gmap loc Job) (j : Job) : loc * gmap loc Job :=
  let l := fresh (dom h) in (l, <[l := j]> h).

(** A program state as far as the store is concerned: the heap and the
    [jobs] map of the one [MemoryStore]. *)
Record MemoryStore : Type := mkStore {
  heap : gmap loc Job;
  jobs : gmap string loc
}.

(** [New()] on a program heap [h]. *)
Definition New (h : gmap loc Job) : MemoryStore := mkStore h ∅.

(** [s.jobs[job.ID] = job]: the pointer itself is stored. *)
Definition Save (s : MemoryStore) (job : loc) : Result MemoryStore :=
  match heap s !! job with
  | None => Panic "invalid memory address or nil pointer dereference"
  | Some j => Ok (mkStore (heap s) (<[ID j := job]> (jobs s)))
  end.

(** [Get]: [return *job, nil] copies the object out of the heap. *)
Definition Get (s : MemoryStore) (id : string) : Result (Job * option error) :=
  match jobs s !! id with
  | None => Ok (zeroJob, Some ErrNotFound)
  | Some p =>
      match heap s !! p with
      | None => Panic "invalid memory address or nil pointer dereference"
      | Some j => Ok (j, None)
      end
  end.

(** [UpdateStatus]: the three assignments through the stored pointer. *)
Definition UpdateStatus (s : MemoryStore) (id : string) (status : Status)
    (errMsg : string) (now : Time) : Result (MemoryStore * option error) :=
  match jobs s !! id with
  | None => Ok (s, Some ErrNotFound)
  | Some p =>
      match heap s !! p with
      | None => Panic "invalid memory address or nil pointer dereference"
      | Some j =>
          let j' := mkJob (ID j) (Task j) status errMsg (CreatedAt j) now in
          Ok (mkStore (<[p := j']> (heap s)) (jobs s), None)
      end
  end.

(** A write through a pointer held by the caller: [*p = j]. *)
Definition write (s : MemoryStore) (p : loc) (j : Job) : MemoryStore :=
  mkStore (<[p := j]> (heap s)) (jobs s).

(** [p := &Job{...}; s.Save(p)] *)
Definition SaveNew (s : MemoryStore) (j : Job) : loc * MemoryStore :=
  let '(l, h) := alloc (heap s) j in
  (l, mkStore h (<[ID j := l]> (jobs s))).

(** [var x Job = j], or [&Job{...}]: a new object of the caller, holding
    its own copy of [j] and unknown to the store. *)
Definition declare (s : MemoryStore) (j : Job) : loc * MemoryStore :=
  let '(l, h) := alloc (heap s) j in (l, mkStore h (jobs s)).

(** Every stored pointer is allocated: Go has no dangling pointers and
    [Save] dereferences its argument before storing it. *)
Definition wf (s : MemoryStore) : Prop :=
  ∀ id p, jobs s !! id = Some p → is_Some (heap s !! p).

(** [List]: a copy of every stored record. The range over the Go map
    visits the identifiers in an order the language leaves open; it is the
    order of [map_to_list] here, and nothing stated about [List] depends
    on it. *)
Definition List (s : MemoryStore) : Result (list Job) :=
  match mapM (λ kv : string * loc, heap s !! kv.2) (map_to_list (jobs s)) with
  | Some l => Ok l
  | None => Panic "invalid memory address or nil pointer dereference"
  end.

End Store.

(** ** package worker *)

Module Worker.

Record Config : Type := mkConfig {
  NumWorkers : Z;
  QueueSize : Z;
  JobTimeout : Z   (* time.Duration, in nanoseconds *)
}.

Definition Second : Z := 1000000000.

Definition DefaultConfig : Config := mkConfig 3 100 (30 * Second).

(** *** The channel [p.jobs]

    [recvq] holds the goroutines blocked in a receive, in the order in
    which they blocked. No goroutine of this program ever blocks in a
    send, so there is no send queue. *)

Record Chan : Type := mkChan {
  buf : list string;
  cap : nat;
  closed : bool;
  recvq : list nat
}.

(** [make(chan string, n)] *)
Definition make (n : Z) : Result Chan :=
  if n <? 0 then Panic "makechan: size out of range"
  else Ok (mkChan [] (Z.to_nat n) false []).

(** The send of [select { case c <- v: ... default: ... }]: [None] is the
    default branch; [Some (c', r)] is a completed send, handed directly to
    the blocked receiver [r] when there is one. *)
Definition trySend (c : Chan) (v : string) : Result (option (Chan * option nat)) :=
  if closed c then Panic "send on closed channel"
  else match recvq c with
       | w :: q => Ok (Some (mkChan (buf c) (cap c) (closed c) q, Some w))
       | [] =>
           if (length (buf c) <? cap c)%nat
           then Ok (Some (mkChan (buf c ++ [v]) (cap c) (closed c) [], None))
           else Ok None
       end.

Inductive RecvResult : Type :=
| Received (v : string) (c : Chan)
| RecvClosed
| RecvParked (c : Chan).

(** The receive of [for v := range c] by goroutine [w]. *)
Definition recv (c : Chan) (w : nat) : RecvResult :=
  match buf c with
  | v :: rest => Received v (mkChan rest (cap c) (closed c) (recvq c))
  | [] =>
      if closed c then RecvClosed
      else RecvParked (mkChan [] (cap c) (closed c) (recvq c ++ [w]))
  end.

(** [close(c)]: returns the closed channel and the receivers it wakes. *)
Definition close (c : Chan) : Result (Chan * list nat) :=
  if closed c then Panic "close of closed channel"
  else Ok (mkChan (buf c) (cap c) true [], recvq c).

(** *** Goroutines of the pool *)

(** Where a [runWorker] goroutine stands. *)
Inductive WState : Type :=
| WReady                     (* at the head of the range loop *)
| WParked                    (* blocked in the receive *)
| WWoken                     (* the receive reported a closed, empty channel *)
| WGot (jobID : string)      (* received jobID, entering processJob *)
| WRacing (jobID : string)   (* at the select of processJob *)
          (done : option (option string))   (* what the executor has sent *)
          (expired : bool)                  (* ctx.Done() is closed *)
| WExited.                   (* returned; wg.Done() has run *)

Global Instance WState_eq_dec : EqDecision WState.
Proof. solve_decision. Defined.

(** One engine write: worker, identifier, status. *)
Definition Update : Type := nat * string * Store.Status.

Record Pool : Type := mkPool {
  jobs : Chan;
  store : Store.MemoryStore;   (* the store the pool points to, shared with the callers *)
  cfg : Config;
  wg : Z;                      (* counter of the sync.WaitGroup *)
  workers : list WState;       (* worker i of the source is at index i-1 *)
  abandoned : list string;     (* executors left behind by a deadline, by job *)
  stopped : bool;              (* Stop has returned *)
  (* history, oldest first *)
  accepted : list string;      (* identifiers for which Submit returned true *)
  updates : list Update        (* UpdateStatus calls made by workers *)
}.

Definition set_jobs (c : Chan) (p : Pool) : Pool :=
  mkPool c (store p) (cfg p) (wg p) (workers p) (abandoned p) (stopped p)
         (accepted p) (updates p).
Definition set_store (s : Store.MemoryStore) (p : Pool) : Pool :=
  mkPool (jobs p) s (cfg p) (wg p) (workers p) (abandoned p) (stopped p)
         (accepted p) (updates p).
Definition set_wg (n : Z) (p : Pool) : Pool :=
  mkPool (jobs p) (store p) (cfg p) n (workers p) (abandoned p) (stopped p)
         (accepted p) (updates p).
Definition set_workers (ws : list WState) (p : Pool) : Pool :=
  mkPool (jobs p) (store p) (cfg p) (wg p) ws (abandoned p) (stopped p)
         (accepted p) (updates p).
Definition set_abandoned (l : list string) (p : Pool) : Pool :=
  mkPool (jobs p) (store p) (cfg p) (wg p) (workers p) l (stopped p)
         (accepted p) (updates p).
Definition set_stopped (b : bool) (p : Pool) : Pool :=
  mkPool (jobs p) (store p) (cfg p) (wg p) (workers p) (abandoned p) b
         (accepted p) (updates p).
Definition log_accept (jobID : string) (p : Pool) : Pool :=
  mkPool (jobs p) (store p) (cfg p) (wg p) (workers p) (abandoned p) (stopped p)
         (accepted p ++ [jobID]) (updates p).
Definition log_update (u : Update) (p : Pool) : Pool :=
  mkPool (jobs p) (store p) (cfg p) (wg p) (workers p) (abandoned p) (stopped p)
         (accepted p) (updates p ++ [u]).

Definition set_worker (w : nat) (s : WState) (p : Pool) : Pool :=
  set_workers (<[w := s]> (workers p)) p.

(** The loop of [NewPool]: [p.wg.Add(1); go p.runWorker(i)], [n] times. *)
Fixpoint spawn (n : nat) (p : Pool) : Pool :=
  match n with
  | O => p
  | S n' => spawn n' (set_workers (workers p ++ [WReady]) (set_wg (wg p + 1) p))
  end.

(** [NewPool(s, cfg)] *)
Definition NewPool (s : Store.MemoryStore) (c : Config) : Result Pool :=
  rbind (make (QueueSize c)) (λ ch,
    Ok (spawn (Z.to_nat (NumWorkers c)) (mkPool ch s c 0 [] [] false [] []))).

(** The pool literal of [TestPoolQueueFull]:
    [&Pool{jobs: make(chan string, n), store: s, cfg: Config{}}]. *)
Definition literalPool (s : Store.MemoryStore) (n : Z) : Result Pool :=
  rbind (make n) (λ ch, Ok (mkPool ch s (mkConfig 0 0 0) 0 [] [] false [] [])).

(** [Submit(jobID)] *)
Definition Submit (p : Pool) (jobID : string) : Result (bool * Pool) :=
  rbind (trySend (jobs p) jobID) (λ r,
    match r with
    | None => Ok (false, p)
    | Some (c, None) => Ok (true, log_accept jobID (set_jobs c p))
    | Some (c, Some w) =>
        Ok (true, log_accept jobID (set_worker w (WGot jobID) (set_jobs c p)))
    end).

(** The receivers a close wakes find the channel closed and empty. *)
Definition wake (q : list nat) (ws : list WState) : list WState :=
  foldr (λ w ws, <[w := WWoken]> ws) ws q.

(** [Stop()], first half: [close(p.jobs)]. *)
Definition Stop_close (p : Pool) : Result Pool :=
  rbind (close (jobs p)) (λ '(c, woken),
    Ok (set_workers (wake woken (workers p)) (set_jobs c p))).

(** [Stop()], second half: [p.wg.Wait()] returns once the counter is zero. *)
Definition Stop_wait (p : Pool) : Result Pool :=
  if closed (jobs p) && negb (stopped p) && (wg p =? 0)
  then Ok (set_stopped true p) else Blocked.

(** [runWorker]: one receive of the range loop. *)
Definition runWorker_receive (p : Pool) (w : nat) : Result Pool :=
  match workers p !! w with
  | Some WReady =>
      match recv (jobs p) w with
      | Received v c => Ok (set_worker w (WGot v) (set_jobs c p))
      | RecvClosed => Ok (set_worker w WWoken p)
      | RecvParked c => Ok (set_worker w WParked (set_jobs c p))
      end
  | _ => Blocked
  end.

(** [runWorker]: the loop is left and the deferred [p.wg.Done()] runs. *)
Definition runWorker_exit (p : Pool) (w : nat) : Result Pool :=
  match workers p !! w with
  | Some WWoken =>
      if wg p - 1 <? 0 then Panic "sync: negative WaitGroup counter"
      else Ok (set_worker w WExited (set_wg (wg p - 1) p))
  | _ => Blocked
  end.

(** [ctx.Err().Error()] of a context whose deadline has passed. *)
Definition deadlineText : string := "context deadline exceeded".

(** [processJob] up to the select: the context is made, the status
    becomes running and the executor goroutine is started on an empty
    [done] channel. The error of [UpdateStatus] is dropped. A context made
    with a timeout that is not positive is done from the start. *)
Definition processJob_begin (p : Pool) (w : nat) (now : Store.Time) : Result Pool :=
  match workers p !! w with
  | Some (WGot jobID) =>
      rbind (Store.UpdateStatus (store p) jobID Store.StatusRunning "" now)
        (λ '(s, _),
           Ok (log_update (w, jobID, Store.StatusRunning)
                 (set_worker w (WRacing jobID None (JobTimeout (cfg p) <=? 0))
                    (set_store s p))))
  | _ => Blocked
  end.

(** The executor goroutine of worker [w]: [done <- executeTask(ctx, jobID)].
    The channel has room for the one value, so the send never blocks. *)
Definition executor_done (p : Pool) (w : nat) (err : option string) : Result Pool :=
  match workers p !! w with
  | Some (WRacing jobID None e) => Ok (set_worker w (WRacing jobID (Some err) e) p)
  | _ => Blocked
  end.

(** The timer of the context of worker [w] fires: [ctx.Done()] is closed. *)
Definition deadline_passes (p : Pool) (w : nat) : Result Pool :=
  match workers p !! w with
  | Some (WRacing jobID d false) => Ok (set_worker w (WRacing jobID d true) p)
  | _ => Blocked
  end.

(** The two cases of the select in [processJob]. *)
Inductive Case : Type :=
| CaseDone        (* [case err := <-done] *)
| CaseDeadline.   (* [case <-ctx.Done()] *)

(** The status and error text written in the first case. *)
Definition verdict (err : option string) : Store.Status * string :=
  match err with
  | Some e => (Store.StatusFailed, e)
  | None => (Store.StatusCompleted, "")
  end.

(** The write of a select case, and the worker back at its loop. *)
Definition conclude (p : Pool) (w : nat) (jobID : string)
    (v : Store.Status * string) (now : Store.Time) : Result Pool :=
  rbind (Store.UpdateStatus (store p) jobID v.1 v.2 now)
    (λ '(s, _),
       Ok (log_update (w, jobID, v.1) (set_worker w WReady (set_store s p)))).

(** [processJob] from the select on. A case can be taken when its
    channel is ready; with both ready either can be taken; with none
    ready the worker waits. When the deadline case is taken before the
    executor has sent its value, the executor goroutine is left running. *)
Definition processJob_finish (p : Pool) (w : nat) (c : Case)
    (now : Store.Time) : Result Pool :=
  match workers p !! w, c with
  | Some (WRacing jobID (Some err) _), CaseDone =>
      conclude p w jobID (verdict err) now
  | Some (WRacing jobID d true), CaseDeadline =>
      rbind (conclude p w jobID (Store.StatusCancelled, deadlineText) now)
        (λ p', Ok (match d with
                   | None => set_abandoned (abandoned p ++ [jobID]) p'
                   | Some _ => p'
                   end))
  | _, _ => Blocked
  end.

(** An executor left behind returns: [done <- err] goes into the buffer of
    a channel nobody reads any more. *)
Definition executor_returns (p : Pool) (i : nat) (err : option string) : Result Pool :=
  match abandoned p !! i with
  | Some _ => Ok (set_abandoned (delete i (abandoned p)) p)
  | None => Blocked
  end.

(** *** Schedules *)

(** The atomic steps of the program around one pool. The first three and
    the last three are taken by the callers, the others by the goroutines
    the pool starts. *)
Inductive Action : Type :=
| ASubmit (jobID : string)                  (* p.Submit(jobID) *)
| AStop                                     (* p.Stop() closes the channel *)
| AStopReturn                               (* p.Stop() returns *)
| AReceive (w : nat)                        (* worker w receives *)
| ABegin (w : nat) (now : Store.Time)       (* worker w enters processJob *)
| AExecutorDone (w : nat) (err : option string)   (* its executor returns err *)
| ADeadline (w : nat)                       (* its deadline passes *)
| AFinish (w : nat) (c : Case) (now : Store.Time) (* its select takes case c *)
| AExit (w : nat)                           (* worker w returns *)
| AExecutorReturns (i : nat) (err : option string) (* a left-behind executor returns *)
| ANew (j : Store.Job)                      (* &Job{...} *)
| ASave (l : Store.loc)                     (* s.Save(l) *)
| AWrite (l : Store.loc) (j : Store.Job).   (* *l = j *)

Definition step (a : Action) (p : Pool) : Result Pool :=
  match a with
  | ASubmit jobID => rbind (Submit p jobID) (λ r, Ok r.2)
  | AStop => Stop_close p
  | AStopReturn => Stop_wait p
  | AReceive w => runWorker_receive p w
  | ABegin w now => processJob_begin p w now
  | AExecutorDone w err => executor_done p w err
  | ADeadline w => deadline_passes p w
  | AFinish w c now => processJob_finish p w c now
  | AExit w => runWorker_exit p w
  | AExecutorReturns i err => executor_returns p i err
  | ANew j => Ok (set_store (Store.declare (store p) j).2 p)
  | ASave l => rbind (Store.Save (store p) l) (λ s, Ok (set_store s p))
  | AWrite l j =>
      match Store.heap (store p) !! l with
      | Some _ => Ok (set_store (Store.write (store p) l j) p)
      | None => Blocked
      end
  end.

Fixpoint run (acts : list Action) (p : Pool) : Result Pool :=
  match acts with
  | [] => Ok p
  | a :: rest => rbind (step a p) (run rest)
  end.

(** The actions of the pool's own goroutines. *)
Definition engine_action (a : Action) : bool :=
  match a with
  | AReceive _ | ABegin _ _ | AExecutorDone _ _ | ADeadline _ | AFinish _ _ _
  | AExit _ | AExecutorReturns _ _ => true
  | _ => false
  end.

(** The states a pool built by [NewPool] or by the test literal can reach. *)
Definition started (p0 : Pool) : Prop :=
  (∃ s c, NewPool s c = Ok p0 ∧ Store.wf s)
  ∨ (∃ s n, literalPool s n = Ok p0 ∧ Store.wf s).

Definition reachable (p : Pool) : Prop :=
  ∃ p0 acts, started p0 ∧ run acts p0 = Ok p.

(** [defaultExecuteTask]: the time the task sleeps,
    [2*time.Second + time.Duration(len(jobID)%3)*time.Second]. *)
Definition sleepDuration (jobID : string) : Z :=
  2 * Second + Z.of_nat (String.length jobID mod 3) * Second.

(** [fmt.Errorf("cancelled: %w", ctx.Err())] for a context past its deadline. *)
Definition cancelledText : string := "cancelled: context deadline exceeded".

(** [defaultExecuteTask(ctx, jobID)], started [remaining] before the
    context is done: the select takes the timer if it fires first, the
    context if it is done first, and either ([tie]) when both happen
    together. *)
Definition defaultExecuteTask (remaining : Z) (tie : bool) (jobID : string)
    : option string :=
  if sleepDuration jobID <? remaining then None
  else if remaining <? sleepDuration jobID then Some cancelledText
  else if tie then None else Some cancelledText.

End Worker.

(** ** Measures and histories used in the statements *)

Module Hist.
Import Worker.

Local Open Scope nat_scope.

(** Sum of a measure over the worker goroutines. *)
Definition wsum (f : WState → nat) (ws : list WState) : nat :=
  sum_list_with f ws.

Definition holds (jobID : string) (s : WState) : nat :=
  match s with
  | WGot j => if decide (j = jobID) then 1 else 0
  | _ => 0
  end.

Definition races (jobID : string) (s : WState) : nat :=
  match s with
  | WRacing j _ _ => if decide (j = jobID) then 1 else 0
  | _ => 0
  end.

Definition live (s : WState) : nat :=
  match s with WExited => 0 | _ => 1 end.

(** Occurrences of an identifier in a queue or in a history. *)
Definition count (jobID : string) (l : list string) : nat :=
  length (filter (λ x, x = jobID) l).

(** The statuses the workers wrote for an identifier, oldest first. *)
Definition writes (jobID : string) (us : list Update) : list Store.Status :=
  (λ u : Update, u.2) <$> filter (λ u : Update, u.1.2 = jobID) us.

Definition began (l : list Store.Status) : nat :=
  length (filter (λ st, st = Store.StatusRunning) l).

Definition ended (l : list Store.Status) : nat :=
  length (filter (λ st, Store.terminal st = true) l).

(** The writes of one worker, oldest first. *)
Definition wlog (w : nat) (us : list Update) : list (string * Store.Status) :=
  (λ u : Update, (u.1.2, u.2)) <$> filter (λ u : Update, u.1.1 = w) us.

(** Reading a worker's writes as a sequence of jobs: [running] for an
    identifier opens a job, the next write must be a terminal status for
    the same identifier and closes it. The result is the job left open,
    if the whole sequence reads this way. *)
Definition read_write (acc : option (option string)) (u : string * Store.Status)
    : option (option string) :=
  match acc with
  | Some None =>
      if decide (u.2 = Store.StatusRunning) then Some (Some u.1) else None
  | Some (Some j) =>
      if decide (u.1 = j) then
        if Store.terminal u.2 then Some None else None
      else None
  | None => None
  end.

Definition read_log (l : list (string * Store.Status)) : option (option string) :=
  foldl read_write (Some None) l.

Definition open_job (s : option WState) : option string :=
  match s with Some (WRacing j _ _) => Some j | _ => None end.

(** Work left for the pool's goroutines once the channel is closed. *)
Definition weight (s : WState) : nat :=
  match s with
  | WGot _ => 7
  | WRacing _ d e =>
      4 + (match d with None => 1 | Some _ => 0 end) + (if e then 0 else 1)
  | WReady => 2
  | WWoken => 1
  | WParked | WExited => 0
  end.

Definition remaining (p : Pool) : nat :=
  6 * length (buf (jobs p)) + wsum weight (workers p) + length (abandoned p).

(** [Submit] for each identifier of a list in turn, collecting the results. *)
Fixpoint submit_all (p : Pool) (ids : list string) : Result (list bool * Pool) :=
  match ids with
  | [] => Ok ([], p)
  | jobID :: rest =>
      rbind (Submit p jobID) (λ r,
        rbind (submit_all r.2 rest) (λ r', Ok (r.1 :: r'.1, r'.2)))
  end.

(** Nothing is left to do: the buffer is empty, every worker has returned,
    and every accepted submission has had its [running] write and its
    terminal write. *)
Definition all_done (p : Pool) : Prop :=
  buf (jobs p) = [] ∧
  (∀ w st, workers p !! w = Some st → st = WExited) ∧
  ∀ jobID, count jobID (accepted p) = began (writes jobID (updates p)) ∧
           count jobID (accepted p) = ended (writes jobID (updates p)).

(** The record of [jobID] is the object at [l], and the store knows this
    object under no other identifier and no other object under this
    identifier. *)
Record Owned (jobID : string) (l : Store.loc) (s : Store.MemoryStore) : Prop :=
  mkOwned {
    owned_key : Store.jobs s !! jobID = Some l;
    owned_only : ∀ id', Store.jobs s !! id' = Some l → id' = jobID;
    owned_id : ∀ l' j, Store.heap s !! l' = Some j → Store.ID j = jobID → l' = l
  }.

(** The status [st] of a record that had status [initial] before the
    workers wrote the statuses [L] for its identifier: the last of them. *)
Definition follows (initial : Store.Status) (L : list Store.Status)
    (st : Store.Status) : Prop :=
  (L = [] ∧ st = initial)
  ∨ (L = [Store.StatusRunning] ∧ st = Store.StatusRunning)
  ∨ ∃ t, Store.terminal t = true ∧ L = [Store.StatusRunning; t] ∧ st = t.

(** A caller's action that leaves the object at [l] alone and makes no
    other object carry [jobID]. *)
Definition respects (jobID : string) (l : Store.loc) (a : Action) : bool :=
  match a with
  | ANew j => negb (bool_decide (Store.ID j = jobID))
  | ASave l' => negb (bool_decide (l' = l))
  | AWrite l' j =>
      negb (bool_decide (l' = l)) && negb (bool_decide (Store.ID j = jobID))
  | _ => true
  end.

(** The invariant of the reachable pool states. *)
Record Inv (p : Pool) : Prop := mkInv {
  inv_wf : Store.wf (store p);
  inv_nodup : NoDup (recvq (jobs p));
  inv_parked : ∀ w, w ∈ recvq (jobs p) ↔ workers p !! w = Some WParked;
  inv_idle : recvq (jobs p) ≠ [] → buf (jobs p) = [] ∧ closed (jobs p) = false;
  inv_gone : ∀ w, workers p !! w = Some WWoken ∨ workers p !! w = Some WExited →
                  closed (jobs p) = true ∧ buf (jobs p) = [];
  inv_wg : wg p = Z.of_nat (wsum live (workers p));
  inv_stopped : stopped p = true → closed (jobs p) = true ∧ wg p = 0%Z;
  inv_acc : ∀ jobID,
      count jobID (accepted p) =
      count jobID (buf (jobs p)) + wsum (holds jobID) (workers p)
      + began (writes jobID (updates p));
  inv_run : ∀ jobID,
      began (writes jobID (updates p)) =
      wsum (races jobID) (workers p) + ended (writes jobID (updates p));
  inv_prefix : ∀ jobID k,
      ended (take k (writes jobID (updates p)))
      ≤ began (take k (writes jobID (updates p)));
  inv_kind : ∀ u, u ∈ updates p →
      u.2 = Store.StatusRunning ∨ Store.terminal u.2 = true;
  inv_log : ∀ w, read_log (wlog w (updates p)) = Some (open_job (workers p !! w))
}.

(** The identifiers for which a worker wrote [running], oldest first. *)
Definition started_ids (us : list Update) : list string :=
  (λ u : Update, u.1.2) <$> filter (λ u : Update, u.2 = Store.StatusRunning) us.

(** The identifier a worker holds between its receive and its first write. *)
Definition held (s : WState) : list string :=
  match s with WGot j => [j] | _ => [] end.

(** The records of [s'] are those of [s] up to status, error text and
    update time. *)
Definition same_records (s s' : Store.MemoryStore) : Prop :=
  Store.jobs s' = Store.jobs s ∧
  ∀ l, match Store.heap s !! l with
       | Some j => ∃ j', Store.heap s' !! l = Some j' ∧
                         Store.ID j' = Store.ID j ∧ Store.Task j' = Store.Task j ∧
                         Store.CreatedAt j' = Store.CreatedAt j
       | None => Store.heap s' !! l = None
       end.

(** The identifiers in the hands of the workers, by worker. *)
Definition in_hand (ws : list WState) : list string := ws ≫= held.

(** What one step may do to the queue, the two histories and the
    workers. *)
Inductive Effect (p p' : Pool) : Prop :=
| EQuiet :
    buf (jobs p') = buf (jobs p) → accepted p' = accepted p →
    updates p' = updates p →
    (workers p' = workers p
     ∨ ∃ w s s', workers p !! w = Some s ∧ held s = [] ∧ held s' = [] ∧
                 workers p' = <[w := s']> (workers p)) →
    Effect p p'
| EClose :
    closed (jobs p) = false →
    buf (jobs p') = buf (jobs p) → accepted p' = accepted p →
    updates p' = updates p →
    workers p' = wake (recvq (jobs p)) (workers p) →
    Effect p p'
| EQueued jobID :
    closed (jobs p) = false → recvq (jobs p) = [] →
    length (buf (jobs p)) < cap (jobs p) →
    buf (jobs p') = buf (jobs p) ++ [jobID] →
    accepted p' = accepted p ++ [jobID] →
    updates p' = updates p → workers p' = workers p →
    Effect p p'
| EHanded jobID w q :
    closed (jobs p) = false → recvq (jobs p) = w :: q →
    buf (jobs p') = buf (jobs p) →
    accepted p' = accepted p ++ [jobID] →
    updates p' = updates p → workers p' = <[w := WGot jobID]> (workers p) →
    Effect p p'
| EReceived w jobID :
    workers p !! w = Some WReady →
    buf (jobs p) = jobID :: buf (jobs p') →
    accepted p' = accepted p → updates p' = updates p →
    workers p' = <[w := WGot jobID]> (workers p) →
    Effect p p'
| EBegun w jobID e :
    workers p !! w = Some (WGot jobID) →
    buf (jobs p') = buf (jobs p) → accepted p' = accepted p →
    updates p' = updates p ++ [(w, jobID, Store.StatusRunning)] →
    workers p' = <[w := WRacing jobID None e]> (workers p) →
    Effect p p'
| EFinished w jobID d e st :
    workers p !! w = Some (WRacing jobID d e) →
    Store.terminal st = true →
    buf (jobs p') = buf (jobs p) → accepted p' = accepted p →
    updates p' = updates p ++ [(w, jobID, st)] →
    workers p' = <[w := WReady]> (workers p) →
    Effect p p'.

End Hist.

(** ** package handler

    The handler is given a store and a pool; as in [newTestHandler] they
    are a pool and the store it was made with, so the state of a handler
    is the state of its pool. The decoding of the request body, the
    identifier drawn by [uuid.NewString] and the readings of the clock are
    arguments; [strings.TrimSpace] and the [%q] verb of [fmt] are
    parameters. In [CreateJob] the steps of one call are taken with no
    other goroutine in between; [CreateJob_submit] and [CreateJob_respond]
    are its two parts, between which the goroutines of the pool may run. *)

Module Handler.

(** [CreateJobRequest], or the error of [json.Decoder.Decode]. *)
Inductive Decoded : Type :=
| DecodeError (msg : string)
| DecodeOk (Task : string).

(** What [writeJSON] encodes. *)
Inductive Payload : Type :=
| ErrorResponse (Error : string)
| CreateJobResponse (ID : string) (Status : Store.Status)
| JobPayload (job : Store.Job)
| JobsPayload (jobs : list Store.Job).

(** The status code and the payload given to [writeJSON]. *)
Definition Response : Type := Z * Payload.

Definition StatusOK : Z := 200.
Definition StatusAccepted : Z := 202.
Definition StatusBadRequest : Z := 400.
Definition StatusNotFound : Z := 404.
Definition StatusServiceUnavailable : Z := 503.

(** [strings.HasPrefix] and [strings.TrimPrefix] *)
Definition HasPrefix (s prefix : string) : bool := String.prefix prefix s.

Definition TrimPrefix (s prefix : string) : string :=
  if HasPrefix s prefix
  then String.substring (String.length prefix)
         (String.length s - String.length prefix) s
  else s.

(** A read through a pointer. *)
Definition deref (s : Store.MemoryStore) (l : Store.loc) : Result Store.Job :=
  match Store.heap s !! l with
  | Some j => Ok j
  | None => Panic "invalid memory address or nil pointer dereference"
  end.

(** The record [CreateJob] makes. *)
Definition newJob (uuid task : string) (created updated : Store.Time) : Store.Job :=
  Store.mkJob uuid task Store.StatusQueued "" created updated.

(** [CreateJob] in two parts, for a body that has passed the two checks.
    The first part runs to the return of [Submit] and yields the pointer
    [job] and what [Submit] returned; the second part is the rest. Between
    the two the goroutines of the pool may run. *)
Definition CreateJob_submit (p : Worker.Pool) (task uuid : string)
    (created updated : Store.Time) : Result (Store.loc * bool * Worker.Pool) :=
  let '(job, s1) := Store.declare (Worker.store p)
                      (newJob uuid task created updated) in
  rbind (Store.Save s1 job) (λ s2,
  rbind (deref s2 job) (λ j,
  rbind (Worker.Submit (Worker.set_store s2 p) (Store.ID j)) (λ r,
    Ok (job, r.1, r.2)))).

Definition CreateJob_respond (p : Worker.Pool) (job : Store.loc) (ok : bool)
    (now : Store.Time) : Result (Response * Worker.Pool) :=
  if ok then
    rbind (deref (Worker.store p) job) (λ j',
      Ok ((StatusAccepted,
           CreateJobResponse (Store.ID j') (Store.JobStatus j')), p))
  else
    rbind (deref (Worker.store p) job) (λ j',
    rbind (Store.UpdateStatus (Worker.store p) (Store.ID j')
             Store.StatusFailed "queue is full" now) (λ u,
      Ok ((StatusServiceUnavailable,
           ErrorResponse "job queue is full, try later"),
          Worker.set_store u.1 p))).

Section Library.

Variable TrimSpace : string → string.
Variable Quote : string → string.

(** [CreateJob] *)
Definition CreateJob (p : Worker.Pool) (body : Decoded) (uuid : string)
    (created updated now : Store.Time) : Result (Response * Worker.Pool) :=
  match body with
  | DecodeError msg =>
      Ok ((StatusBadRequest, ErrorResponse (String.append "invalid JSON: " msg)), p)
  | DecodeOk task =>
      if decide (TrimSpace task = "")
      then Ok ((StatusBadRequest, ErrorResponse "field 'task' is required"), p)
      else
        let '(job, s1) :=
          Store.declare (Worker.store p)
            (Store.mkJob uuid task Store.StatusQueued "" created updated) in
        rbind (Store.Save s1 job) (λ s2,
        rbind (deref s2 job) (λ j,
        rbind (Worker.Submit (Worker.set_store s2 p) (Store.ID j)) (λ r,
          if r.1 then
            rbind (deref (Worker.store r.2) job) (λ j',
              Ok ((StatusAccepted,
                   CreateJobResponse (Store.ID j') (Store.JobStatus j')), r.2))
          else
            rbind (deref (Worker.store r.2) job) (λ j',
            rbind (Store.UpdateStatus (Worker.store r.2) (Store.ID j')
                     Store.StatusFailed "queue is full" now) (λ u,
              Ok ((StatusServiceUnavailable,
                   ErrorResponse "job queue is full, try later"),
                  Worker.set_store u.1 r.2))))))
  end.

(** [GetJob], given [r.URL.Path] *)
Definition GetJob (p : Worker.Pool) (path : string) : Result Response :=
  let id := TrimPrefix path "/jobs/" in
  if decide (id = "")
  then Ok (StatusBadRequest, ErrorResponse "job ID is required")
  else
    rbind (Store.Get (Worker.store p) id) (λ r,
      match r.2 with
      | Some _ =>
          Ok (StatusNotFound,
              ErrorResponse (String.append "job "
                               (String.append (Quote id) " not found")))
      | None => Ok (StatusOK, JobPayload r.1)
      end).

(** [ListJobs] *)
Definition ListJobs (p : Worker.Pool) : Result Response :=
  rbind (Store.List (Worker.store p)) (λ l, Ok (StatusOK, JobsPayload l)).

End Library.

End Handler.

(** ** package main

    The lines the scanner yields and what is written to the writer are
    the state of the interactive mode; [strconv.Atoi] is a parameter, as
    [strings.TrimSpace] is. An [int] has 64 bits. *)

Module Main.

Record Config : Type := mkConfig {
  Port : Z;
  Workers : Z;
  QueueSize : Z;
  JobTimeout : Z   (* seconds *)
}.

(** A write to the [io.Writer]. *)
Inductive Out : Type :=
| Fprintf (s : string)
| Fprintln (s : string).

(** The scanner over the reader, as the lines it has yet to yield, and
    the writer, as what has been written to it. *)
Record IO : Type := mkIO {
  input : list string;
  output : list Out
}.

Definition write (o : Out) (io : IO) : IO := mkIO (input io) (output io ++ [o]).

(** Multiplication and conversion of [int64] wrap around. *)
Definition wrap64 (z : Z) : Z := (z + 2 ^ 63) mod 2 ^ 64 - 2 ^ 63.

Section Library.

Variable TrimSpace : string → string.
Variable Atoi : string → option Z.

(** The number in a line read by [promptInt]:
    [if v, err := strconv.Atoi(strings.TrimSpace(text)); err == nil && v > 0]. *)
Definition entered (text : string) (fallback : Z) : Z :=
  match Atoi (TrimSpace text) with
  | Some v => if 0 <? v then v else fallback
  | None => fallback
  end.

(** [promptInt(scanner, w, prompt, fallback)] *)
Definition promptInt (io : IO) (prompt : string) (fallback : Z) : Z * IO :=
  let io1 := write (Fprintf prompt) io in
  match input io1 with
  | text :: rest => (entered text fallback, mkIO rest (output io1))
  | [] => (fallback, io1)
  end.

(** [RunInteractive(r, w)] *)
Definition RunInteractive (io : IO) : Config * IO :=
  let io1 := write (Fprintln "=== Job Queue Server (interactive mode) ===") io in
  let io2 := write (Fprintln "") io1 in
  let '(port, io3) := promptInt io2 "HTTP port [8080]: " 8080 in
  let '(workers, io4) := promptInt io3 "Number of workers [3]: " 3 in
  let '(queue, io5) := promptInt io4 "Queue buffer size [100]: " 100 in
  let '(timeout, io6) := promptInt io5 "Job timeout in seconds [30]: " 30 in
  (mkConfig port workers queue timeout, write (Fprintln "") io6).

End Library.

(** The configuration [main] gives to [worker.NewPool]; the job timeout is
    [time.Duration(cfg.JobTimeout) * time.Second]. *)
Definition poolConfig (cfg : Config) : Worker.Config :=
  Worker.mkConfig (Workers cfg) (QueueSize cfg)
    (wrap64 (JobTimeout cfg * Worker.Second)).

(** [main] up to the start of the server: [store.New()] and
    [worker.NewPool] on the configuration. *)
Definition startPool (cfg : Config) : Result Worker.Pool :=
  Worker.NewPool (Store.New ∅) (poolConfig cfg).

(** The field a line of the input ends up in, or the default. *)
Definition answer (f : string → Z → Z) (lines : list string) (i : nat)
    (fallback : Z) : Z :=
  match lines !! i with
  | Some text => f text fallback
  | None => fallback
  end.

End Main.

(** ** Sample data *)

Definition demoJob : Store.Job := Store.mkJob "c" "t" Store.StatusQueued "" 7 7.
Definition demoStore : Store.MemoryStore := (Store.SaveNew (Store.New ∅) demoJob).2.

Definition doneJob : Store.Job := Store.mkJob "d" "t" Store.StatusCompleted "" 1 5.
Definition doneStore : Store.MemoryStore := (Store.SaveNew (Store.New ∅) doneJob).2.

Definition fullPool : Worker.Pool :=
  Worker.mkPool (Worker.mkChan ["x"] 1 false []) demoStore
    (Worker.mkConfig 0 0 0) 0 [] [] false ["x"] [].

Definition demoPool : Worker.Pool :=
  Worker.spawn 3
    (Worker.mkPool (Worker.mkChan [] 100 false []) demoStore
       Worker.DefaultConfig 0 [] [] false [] []).

(** One worker, no buffer, and the worker already blocked in its receive. *)
Definition handoffPool : Worker.Pool :=
  Worker.mkPool (Worker.mkChan [] 0 false [0%nat]) demoStore
    (Worker.mkConfig 1 0 (5 * Worker.Second)) 1 [Worker.WParked] [] false [] [].

(** One worker holding the identifier of [demoJob], and the same worker
    in its select. *)
Definition gotPool : Worker.Pool :=
  Worker.mkPool (Worker.mkChan [] 1 false []) demoStore
    (Worker.mkConfig 1 1 (5 * Worker.Second)) 1 [Worker.WGot "c"] [] false ["c"] [].

Definition racingPool : Worker.Pool :=
  Worker.mkPool (Worker.mkChan [] 1 false [])
    (Store.write demoStore 1%positive
       (Store.mkJob "c" "t" Store.StatusRunning "" 7 8))
    (Worker.mkConfig 1 1 (5 * Worker.Second)) 1
    [Worker.WRacing "c" None false] [] false ["c"]
    [(0%nat, "c", Store.StatusRunning)].

(** The same pool once the executor has returned an error. *)
Definition decidedPool : Worker.Pool :=
  Worker.set_worker 0 (Worker.WRacing "c" (Some (Some "boom")) false) racingPool.

(** The same pool once the deadline has passed instead. *)
Definition expiredPool : Worker.Pool :=
  Worker.set_worker 0 (Worker.WRacing "c" None true) racingPool.

(** * Facts about the store *)

Section StoreFacts.
Import Store.

Lemma wf_New h : wf (New h).
Proof. intros id p H. simpl in H. by rewrite lookup_empty in H. Qed.

Lemma wf_Save s p s' : wf s → Save s p = Ok s' → wf s'.
Proof.
  unfold Save. intros Hwf H. destruct (heap s !! p) as [j|] eqn:Hp; [|done].
  injection H as <-. intros id q. simpl. rewrite lookup_insert.
  case_decide; [intros [= <-]; eauto | apply Hwf].
Qed.

Lemma fresh_loc_unused (h : gmap loc Job) : h !! fresh (dom h) = None.
Proof. apply not_elem_of_dom, is_fresh. Qed.

Lemma wf_SaveNew s j : wf s → wf (SaveNew s j).2.
Proof.
  intros Hwf id q. unfold SaveNew, alloc. simpl. rewrite lookup_insert.
  case_decide.
  - intros [= <-]. rewrite lookup_insert_eq. eauto.
  - intros Hq. destruct (Hwf _ _ Hq) as [x Hx].
    rewrite lookup_insert_ne; [eauto|]. intros <-.
    by rewrite fresh_loc_unused in Hx.
Qed.

Lemma wf_declare s j : wf s → wf (declare s j).2.
Proof.
  intros Hwf id q Hq. unfold declare, alloc. simpl in *.
  destruct (Hwf _ _ Hq) as [x Hx]. rewrite lookup_insert_ne; [eauto|].
  intros <-. by rewrite fresh_loc_unused in Hx.
Qed.

Lemma wf_write s p j : wf s → wf (write s p j).
Proof.
  intros Hwf id q Hq. simpl in *. rewrite lookup_insert.
  case_decide; [eauto | by apply (Hwf id)].
Qed.

Lemma wf_UpdateStatus s id st msg now s' e :
  wf s → UpdateStatus s id st msg now = Ok (s', e) → wf s'.
Proof.
  unfold UpdateStatus. intros Hwf H.
  destruct (jobs s !! id) as [p|]; [|by injection H as <- _].
  destruct (heap s !! p) as [j|]; [|done]. injection H as <- _.
  intros i q Hq. simpl in *. rewrite lookup_insert.
  case_decide; [eauto | by apply (Hwf i)].
Qed.

Lemma UpdateStatus_total s id st msg now :
  wf s → ∃ s' e, UpdateStatus s id st msg now = Ok (s', e).
Proof.
  intros Hwf. unfold UpdateStatus.
  destruct (jobs s !! id) as [p|] eqn:Hid; [|eauto].
  destruct (Hwf _ _ Hid) as [j ->]. eauto.
Qed.

End StoreFacts.

(** C6. [Get] returns a copy. For a stored identifier [Get] yields the
    stored record; when the caller keeps that record in a variable of its
    own and overwrites it with any other value, the variable changes and a
    second [Get] of the same identifier still yields the stored record.
    For an absent identifier [Get] yields the zero record and
    [ErrNotFound]. *)
Theorem Get_returns_independent_copy (s : Store.MemoryStore) (id : string) :
  Store.wf s →
  match Store.jobs s !! id with
  | None => Store.Get s id = Ok (Store.zeroJob, Some Store.ErrNotFound)
  | Some p =>
      ∃ j, Store.heap s !! p = Some j ∧ Store.Get s id = Ok (j, None) ∧
           ∀ f : Store.Job → Store.Job,
             let x := Store.declare s j in
             let s' := Store.write x.2 x.1 (f j) in
             Store.heap s' !! x.1 = Some (f j) ∧
             Store.Get s' id = Ok (j, None)
  end.
Proof.
  intros Hwf. destruct (Store.jobs s !! id) as [p|] eqn:Hid.
  - destruct (Hwf _ _ Hid) as [j Hj]. exists j.
    split; [done|]. split; [by unfold Store.Get; rewrite Hid, Hj|].
    intros f. unfold Store.declare, Store.alloc, Store.write, Store.Get. simpl.
    rewrite lookup_insert_eq, Hid. split; [done|].
    rewrite insert_insert_eq, lookup_insert_ne; [by rewrite Hj|].
    intros E. rewrite <- E, fresh_loc_unused in Hj. done.
  - by unfold Store.Get; rewrite Hid.
Qed.

Lemma Get_returns_independent_copy_witness :
  Store.wf demoStore ∧
  match Store.jobs demoStore !! "c" with
  | None => Store.Get demoStore "c" = Ok (Store.zeroJob, Some Store.ErrNotFound)
  | Some p =>
      ∃ j, Store.heap demoStore !! p = Some j ∧ Store.Get demoStore "c" = Ok (j, None) ∧
           ∀ f : Store.Job → Store.Job,
             let x := Store.declare demoStore j in
             let s' := Store.write x.2 x.1 (f j) in
             Store.heap s' !! x.1 = Some (f j) ∧
             Store.Get s' "c" = Ok (j, None)
  end.
Proof.
  assert (H : Store.wf demoStore) by (apply wf_SaveNew, wf_New).
  split; [exact H | exact (Get_returns_independent_copy demoStore "c" H)].
Defined.

(** [TestGetReturnsCopy] of store_test.go. *)
Example TestGetReturnsCopy :
  let s := (Store.SaveNew (Store.New ∅)
              (Store.mkJob "c" "t" Store.StatusQueued "" 3 3)).2 in
  ∃ got original,
    Store.Get s "c" = Ok (got, None) ∧
    let x := Store.declare s got in
    let s' := Store.write x.2 x.1
                (Store.mkJob (Store.ID got) (Store.Task got) Store.StatusCompleted
                   (Store.Error got) (Store.CreatedAt got) (Store.UpdatedAt got)) in
    Store.Get s' "c" = Ok (original, None) ∧
    Store.JobStatus original = Store.StatusQueued.
Proof. eexists _, _. split; [reflexivity|]. split; reflexivity. Qed.

(** [TestUpdateStatusNotFound] of store_test.go. *)
Example TestUpdateStatusNotFound :
  Store.UpdateStatus (Store.New ∅) "nope" Store.StatusRunning "" 1
  = Ok (Store.New ∅, Some Store.ErrNotFound).
Proof. reflexivity. Qed.

(** In contrast, the pointer given to [Save] is shared with the store: a
    write through it is seen by the next [Get]. *)
Lemma Save_shares_pointer (s : Store.MemoryStore) (j j' : Store.Job) :
  let x := Store.SaveNew s j in
  Store.Get (Store.write x.2 x.1 j') (Store.ID j) = Ok (j', None).
Proof.
  unfold Store.SaveNew, Store.alloc, Store.write, Store.Get. simpl.
  by rewrite !lookup_insert_eq.
Qed.

(** [UpdateStatus] on a stored identifier, in full. *)
Lemma UpdateStatus_stored (s : Store.MemoryStore) (id : string) (p : Store.loc)
    (st : Store.Status) (msg : string) (now : Store.Time) :
  Store.wf s →
  Store.jobs s !! id = Some p →
  ∃ j s', Store.heap s !! p = Some j ∧
    Store.UpdateStatus s id st msg now = Ok (s', None) ∧
    Store.Get s' id =
      Ok (Store.mkJob (Store.ID j) (Store.Task j) st msg (Store.CreatedAt j) now,
          None) ∧
    Store.jobs s' = Store.jobs s ∧
    (∀ q, q ≠ p → Store.heap s' !! q = Store.heap s !! q) ∧
    Store.wf s'.
Proof.
  intros Hwf Hid. destruct (Hwf _ _ Hid) as [j Hj].
  assert (HU : Store.UpdateStatus s id st msg now =
               Ok (Store.mkStore
                     (<[p := Store.mkJob (Store.ID j) (Store.Task j) st msg
                                (Store.CreatedAt j) now]> (Store.heap s))
                     (Store.jobs s), None)).
  { unfold Store.UpdateStatus. by rewrite Hid, Hj. }
  eexists j, _. split; [done|]. split; [exact HU|].
  split; [|split; [done|split]].
  - unfold Store.Get. simpl. by rewrite Hid, lookup_insert_eq.
  - intros q Hq. simpl. by rewrite lookup_insert_ne.
  - eapply wf_UpdateStatus; [exact Hwf | exact HU].
Qed.

(** C7. [UpdateStatus] on a stored identifier returns no error and
    replaces the status, the error text and the update time of its record,
    keeping identifier, task and creation time; the map of identifiers and
    every other object are as before. On an absent identifier it returns
    [ErrNotFound] and the store is the one it was given. *)
Theorem UpdateStatus_spec (s : Store.MemoryStore) (id : string)
    (st : Store.Status) (msg : string) (now : Store.Time) :
  Store.wf s →
  match Store.jobs s !! id with
  | Some p =>
      ∃ j s', Store.heap s !! p = Some j ∧
        Store.UpdateStatus s id st msg now = Ok (s', None) ∧
        Store.Get s' id =
          Ok (Store.mkJob (Store.ID j) (Store.Task j) st msg (Store.CreatedAt j) now,
              None) ∧
        Store.jobs s' = Store.jobs s ∧
        (∀ q, q ≠ p → Store.heap s' !! q = Store.heap s !! q) ∧
        Store.wf s'
  | None => Store.UpdateStatus s id st msg now = Ok (s, Some Store.ErrNotFound)
  end.
Proof.
  intros Hwf. destruct (Store.jobs s !! id) as [p|] eqn:Hid.
  - by apply UpdateStatus_stored.
  - unfold Store.UpdateStatus. by rewrite Hid.
Qed.

Lemma UpdateStatus_spec_witness :
  Store.wf demoStore ∧
  match Store.jobs demoStore !! "c" with
  | Some p =>
      ∃ j s', Store.heap demoStore !! p = Some j ∧
        Store.UpdateStatus demoStore "c" Store.StatusFailed "boom" 9 = Ok (s', None) ∧
        Store.Get s' "c" =
          Ok (Store.mkJob (Store.ID j) (Store.Task j) Store.StatusFailed "boom"
                (Store.CreatedAt j) 9, None) ∧
        Store.jobs s' = Store.jobs demoStore ∧
        (∀ q, q ≠ p → Store.heap s' !! q = Store.heap demoStore !! q) ∧
        Store.wf s'
  | None => Store.UpdateStatus demoStore "c" Store.StatusFailed "boom" 9
            = Ok (demoStore, Some Store.ErrNotFound)
  end.
Proof.
  assert (H : Store.wf demoStore) by (apply wf_SaveNew, wf_New).
  split; [exact H|].
  exact (UpdateStatus_spec demoStore "c" Store.StatusFailed "boom" 9 H).
Defined.

(** C9. The store accepts every transition: whatever the status of a
    stored record (terminal or not) and whatever the new status,
    [UpdateStatus] returns no error and the next [Get] shows the new status
    and error text. *)
Theorem UpdateStatus_unrestricted (s : Store.MemoryStore) (id : string)
    (j : Store.Job) (st : Store.Status) (msg : string) (now : Store.Time) :
  Store.wf s →
  Store.Get s id = Ok (j, None) →
  ∃ s' j', Store.UpdateStatus s id st msg now = Ok (s', None) ∧
           Store.Get s' id = Ok (j', None) ∧
           Store.JobStatus j' = st ∧ Store.Error j' = msg.
Proof.
  intros Hwf HG. unfold Store.Get in HG.
  destruct (Store.jobs s !! id) as [p|] eqn:Hid; [|done].
  destruct (UpdateStatus_stored s id p st msg now Hwf Hid)
    as (j0 & s' & _ & HU & HG' & _).
  eexists s', _. split; [exact HU|]. split; [exact HG'|]. done.
Qed.

Lemma UpdateStatus_unrestricted_witness :
  Store.terminal (Store.JobStatus doneJob) = true ∧
  ∃ s' j', Store.UpdateStatus doneStore "d" Store.StatusQueued "" 6 = Ok (s', None) ∧
           Store.Get s' "d" = Ok (j', None) ∧
           Store.JobStatus j' = Store.StatusQueued ∧ Store.Error j' = "".
Proof.
  split; [reflexivity|].
  apply (UpdateStatus_unrestricted doneStore "d" doneJob).
  - apply wf_SaveNew, wf_New.
  - reflexivity.
Defined.
(** * Facts about the pool *)

Section ListFacts.
Import Worker Hist.
Local Open Scope nat_scope.

Lemma wsum_app f l l' : wsum f (l ++ l') = wsum f l + wsum f l'.
Proof. apply sum_list_with_app. Qed.

Lemma wsum_insert f (l : list WState) i x y :
  l !! i = Some y → wsum f (<[i := x]> l) + f y = wsum f l + f x.
Proof.
  unfold wsum. revert i. induction l as [|a l IH]; intros [|i] H; simpl in *; try done.
  - injection H as ->. lia.
  - specialize (IH i H). lia.
Qed.

Lemma wsum_le f (l : list WState) i y : l !! i = Some y → f y ≤ wsum f l.
Proof.
  unfold wsum. revert i. induction l as [|a l IH]; intros [|i] H; simpl in *; try done.
  - injection H as ->. lia.
  - specialize (IH i H). lia.
Qed.

Lemma wsum_zero f (l : list WState) i y : wsum f l = 0 → l !! i = Some y → f y = 0.
Proof. intros H0 H. pose proof (wsum_le f l i y H). lia. Qed.

Lemma wsum_all_zero f (l : list WState) :
  (∀ i y, l !! i = Some y → f y = 0) → wsum f l = 0.
Proof.
  unfold wsum. induction l as [|a l IH]; intros H; simpl; [done|].
  rewrite (H 0 a eq_refl), IH; [done|]. intros i y Hi. apply (H (S i) y Hi).
Qed.

Lemma wsum_replicate f n s : wsum f (replicate n s) = n * f s.
Proof. unfold wsum. induction n as [|n IH]; simpl; [done|]. rewrite IH. lia. Qed.

Lemma wake_length q ws : length (wake q ws) = length ws.
Proof. induction q as [|a q IH]; simpl; [done|]. by rewrite length_insert. Qed.

Lemma wake_lookup q ws w :
  (∀ v, v ∈ q → ws !! v = Some WParked) →
  wake q ws !! w = if decide (w ∈ q) then Some WWoken else ws !! w.
Proof.
  induction q as [|a q IH]; intros Hq.
  - change (wake [] ws) with ws.
    destruct (decide (w ∈ [])) as [H|H]; [|done]. by apply elem_of_nil in H.
  - change (wake (a :: q) ws) with (<[a := WWoken]> (wake q ws)).
    assert (Hq' : ∀ v, v ∈ q → ws !! v = Some WParked).
    { intros v Hv. apply Hq. by right. }
    specialize (IH Hq'). destruct (decide (w = a)) as [->|Hne].
    + rewrite list_lookup_insert_eq.
      * destruct (decide (a ∈ a :: q)) as [H|H]; [done|]. exfalso. apply H. by left.
      * rewrite wake_length. apply lookup_lt_is_Some. rewrite (Hq a); [eauto|by left].
    + rewrite list_lookup_insert_ne by done. rewrite IH.
      destruct (decide (w ∈ q)) as [H1|H1]; destruct (decide (w ∈ a :: q)) as [H2|H2];
        try done.
      * exfalso. apply H2. by right.
      * apply elem_of_cons in H2 as [?|?]; done.
Qed.

Lemma wsum_wake f q ws :
  (∀ v, v ∈ q → ws !! v = Some WParked) →
  f WParked = f WWoken →
  wsum f (wake q ws) = wsum f ws.
Proof.
  intros Hq Hf. induction q as [|a q IH]; [done|].
  change (wake (a :: q) ws) with (<[a := WWoken]> (wake q ws)).
  assert (Hq' : ∀ v, v ∈ q → ws !! v = Some WParked).
  { intros v Hv. apply Hq. by right. }
  specialize (IH Hq').
  assert (Ha : ∃ y, wake q ws !! a = Some y ∧ f y = f WWoken).
  { rewrite wake_lookup by done. destruct (decide (a ∈ q)); [eauto|].
    rewrite (Hq a); [eauto | by left]. }
  destruct Ha as (y & Hy & Hfy).
  pose proof (wsum_insert f (wake q ws) a WWoken y Hy). lia.
Qed.

Lemma count_app id l l' : count id (l ++ l') = count id l + count id l'.
Proof. unfold count. by rewrite filter_app, length_app. Qed.

Lemma count_cons id x l :
  count id (x :: l) = (if decide (x = id) then 1 else 0) + count id l.
Proof. unfold count. rewrite filter_cons. by case_decide. Qed.

Lemma count_snoc id l x :
  count id (l ++ [x]) = count id l + (if decide (x = id) then 1 else 0).
Proof. rewrite count_app, count_cons. unfold count. simpl. lia. Qed.

Lemma writes_snoc id us w j st :
  writes id (us ++ [(w, j, st)]) =
  writes id us ++ (if decide (j = id) then [st] else []).
Proof.
  unfold writes. rewrite filter_app, fmap_app. f_equal.
  rewrite filter_cons. simpl. by case_decide.
Qed.

Lemma began_app l l' : began (l ++ l') = began l + began l'.
Proof. unfold began. by rewrite filter_app, length_app. Qed.

Lemma ended_app l l' : ended (l ++ l') = ended l + ended l'.
Proof. unfold ended. by rewrite filter_app, length_app. Qed.

Lemma wlog_snoc w us w' j st :
  wlog w (us ++ [(w', j, st)]) =
  wlog w us ++ (if decide (w' = w) then [(j, st)] else []).
Proof.
  unfold wlog. rewrite filter_app, fmap_app. f_equal.
  rewrite filter_cons. simpl. by case_decide.
Qed.

Lemma read_log_snoc l u : read_log (l ++ [u]) = read_write (read_log l) u.
Proof. unfold read_log. by rewrite foldl_app. Qed.

Lemma take_snoc_cases {A} (l : list A) x k :
  take k (l ++ [x]) = take k l ∨ take k (l ++ [x]) = l ++ [x].
Proof.
  destruct (decide (k ≤ length l)) as [H|H].
  - left. by rewrite take_app_le.
  - right. apply take_ge. rewrite length_app. simpl. lia.
Qed.

End ListFacts.

(** Naming the parts of the invariant, and splitting a goal into them. *)
Ltac inv_open H :=
  destruct H as [Hwf Hnd Hpk Hid Hgn Hwg Hst Hacc Hrun Hpre Hkd Hlog].

Ltac inv_split :=
  constructor;
  unfold Worker.set_worker, Worker.set_workers, Worker.set_jobs,
    Worker.set_store, Worker.set_wg, Worker.set_abandoned,
    Worker.set_stopped, Worker.log_accept, Worker.log_update;
  simpl.

Section Invariant.
Import Worker Hist.
Local Open Scope nat_scope.

Lemma insert_lookup_worker (ws : list WState) w s y :
  ws !! w = Some y →
  ∀ w', <[w := s]> ws !! w' = if decide (w' = w) then Some s else ws !! w'.
Proof.
  intros H w'. destruct (decide (w' = w)) as [->|Hne].
  - apply list_lookup_insert_eq. apply lookup_lt_is_Some. eauto.
  - by apply list_lookup_insert_ne.
Qed.

Lemma spawn_fields n p :
  workers (spawn n p) = workers p ++ replicate n WReady
  ∧ wg (spawn n p) = (wg p + Z.of_nat n)%Z
  ∧ jobs (spawn n p) = jobs p ∧ store (spawn n p) = store p
  ∧ cfg (spawn n p) = cfg p ∧ abandoned (spawn n p) = abandoned p
  ∧ stopped (spawn n p) = stopped p ∧ accepted (spawn n p) = accepted p
  ∧ updates (spawn n p) = updates p.
Proof.
  revert p. induction n as [|n IH]; intros p.
  - simpl. rewrite app_nil_r. repeat split. lia.
  - change (spawn (S n) p)
      with (spawn n (set_workers (workers p ++ [WReady]) (set_wg (wg p + 1) p))).
    destruct (IH (set_workers (workers p ++ [WReady]) (set_wg (wg p + 1) p)))
      as (-> & -> & -> & -> & -> & -> & -> & -> & ->).
    simpl. rewrite <- app_assoc. simpl. repeat split. lia.
Qed.


Lemma Inv_fresh s c n cf :
  Store.wf s →
  Inv (spawn n (mkPool (mkChan [] c false []) s cf 0 [] [] false [] [])).
Proof.
  intros Hwf.
  set (p0 := mkPool (mkChan [] c false []) s cf 0 [] [] false [] []).
  destruct (spawn_fields n p0) as (Hw & Hg & Hj & Hs & _ & _ & Hst & Ha & Hu).
  assert (Hlk : ∀ w y, workers (spawn n p0) !! w = Some y → y = WReady).
  { intros w y. rewrite Hw. simpl. intros H. by apply lookup_replicate in H as [-> _]. }
  constructor; rewrite ?Hj, ?Hs, ?Hst, ?Ha, ?Hu; simpl.
  - done.
  - constructor.
  - intros w. split; [by intros H%elem_of_nil|]. intros H. by apply Hlk in H.
  - done.
  - intros w [H|H]; by apply Hlk in H.
  - rewrite Hg, Hw. simpl. rewrite wsum_replicate. simpl. lia.
  - done.
  - intros id. rewrite Hw. simpl. rewrite wsum_replicate. simpl.
    unfold count, began, writes. simpl. lia.
  - intros id. rewrite Hw. simpl. rewrite wsum_replicate. simpl.
    unfold began, ended, writes. simpl. lia.
  - intros id k. unfold writes. simpl. by rewrite take_nil.
  - by intros u H%elem_of_nil.
  - intros w. unfold read_log, wlog. simpl. f_equal.
    destruct (workers (spawn n p0) !! w) as [y|] eqn:E; [|done].
    by rewrite (Hlk _ _ E).
Qed.

Lemma Inv_started p : started p → Inv p.
Proof.
  intros [(s & c & H & Hwf)|(s & n & H & Hwf)].
  - unfold NewPool, make in H. destruct (QueueSize c <? 0)%Z; [done|].
    simpl in H. injection H as <-. by apply Inv_fresh.
  - unfold literalPool, make in H. destruct (n <? 0)%Z; [done|].
    simpl in H. injection H as <-. by apply (Inv_fresh s _ 0).
Qed.


Lemma Inv_Submit p jobID b p' : Inv p → Submit p jobID = Ok (b, p') → Inv p'.
Proof.
  intros HI H. unfold Submit, trySend in H.
  destruct (closed (jobs p)) eqn:Hcl; [done|].
  destruct (recvq (jobs p)) as [|w q] eqn:Hq.
  - destruct (length (buf (jobs p)) <? cap (jobs p)); simpl in H;
      injection H as <- <-; [|done].
    inv_open HI. inv_split.
    + done.
    + constructor.
    + intros w. rewrite <- Hpk, Hq. done.
    + done.
    + intros w Hw. destruct (Hgn w Hw). congruence.
    + done.
    + rewrite Hcl in Hst. done.
    + intros id. rewrite !count_snoc, Hacc. lia.
    + done.
    + done.
    + done.
    + done.
  - simpl in H. injection H as <- <-.
    inv_open HI. rewrite Hq in *.
    assert (Hw : workers p !! w = Some WParked).
    { apply Hpk. by left. }
    destruct Hid as [Hbuf _]; [done|].
    apply NoDup_cons in Hnd as [Hwq Hnd].
    pose proof (insert_lookup_worker (workers p) w (WGot jobID) _ Hw) as Hlk.
    inv_split.
    + done.
    + done.
    + intros w'. rewrite Hlk. destruct (decide (w' = w)) as [->|E].
      * split; [done|congruence].
      * rewrite <- Hpk, elem_of_cons. split; [auto | by intros [?|?]].
    + done.
    + intros w'. rewrite Hlk. destruct (decide (w' = w)) as [->|E].
      * by intros [?|?].
      * intros Hw'. destruct (Hgn w' Hw'). congruence.
    + pose proof (wsum_insert live _ w (WGot jobID) _ Hw). simpl in *. lia.
    + rewrite Hcl in Hst. done.
    + intros id. rewrite count_snoc, Hacc.
      pose proof (wsum_insert (holds id) _ w (WGot jobID) _ Hw). simpl in *. lia.
    + intros id. rewrite Hrun.
      pose proof (wsum_insert (races id) _ w (WGot jobID) _ Hw). simpl in *. lia.
    + done.
    + done.
    + intros w'. rewrite Hlog, Hlk.
      destruct (decide (w' = w)) as [->|E]; [by rewrite Hw|done].
Qed.

Lemma Inv_Stop_close p p' : Inv p → Stop_close p = Ok p' → Inv p'.
Proof.
  intros HI H. unfold Stop_close, close in H.
  destruct (closed (jobs p)) eqn:Hcl; [done|]. simpl in H. injection H as <-.
  inv_open HI.
  assert (Hq : ∀ v, v ∈ recvq (jobs p) → workers p !! v = Some WParked).
  { intros v. apply Hpk. }
  inv_split.
  - done.
  - constructor.
  - intros w. rewrite wake_lookup by done. split; [by intros ?%elem_of_nil|].
    destruct (decide (w ∈ recvq (jobs p))) as [Hw|Hw]; [done|].
    intros Hw'. by apply Hpk in Hw'.
  - done.
  - intros w. rewrite wake_lookup by done.
    destruct (decide (w ∈ recvq (jobs p))) as [Hw|Hw].
    + intros _. split; [done|]. apply Hid. intros E. rewrite E in Hw.
      by apply elem_of_nil in Hw.
    + intros Hw'. destruct (Hgn w Hw'). congruence.
  - by rewrite wsum_wake.
  - rewrite Hcl in Hst. intros Hs. by destruct (Hst Hs).
  - intros id. by rewrite wsum_wake.
  - intros id. by rewrite wsum_wake.
  - done.
  - done.
  - intros w. rewrite Hlog, wake_lookup by done.
    destruct (decide (w ∈ recvq (jobs p))) as [Hw|Hw]; [|done].
    by rewrite (Hq w Hw).
Qed.

Lemma Inv_Stop_wait p p' : Inv p → Stop_wait p = Ok p' → Inv p'.
Proof.
  intros HI H. unfold Stop_wait in H.
  destruct (closed (jobs p)) eqn:Hcl; [|done].
  destruct (stopped p); [done|]. simpl in H.
  destruct (wg p =? 0)%Z eqn:Hz; [|done]. injection H as <-.
  apply Z.eqb_eq in Hz. inv_open HI. inv_split; done.
Qed.

Lemma Inv_receive p w p' : Inv p → runWorker_receive p w = Ok p' → Inv p'.
Proof.
  intros HI H. unfold runWorker_receive, recv in H.
  destruct (workers p !! w) as [[]|] eqn:Hw; try done.
  inv_open HI.
  assert (Hwq : w ∉ recvq (jobs p)).
  { intros Hin. apply Hpk in Hin. congruence. }
  destruct (buf (jobs p)) as [|v rest] eqn:Hbuf.
  - destruct (closed (jobs p)) eqn:Hcl; injection H as <-.
    + pose proof (insert_lookup_worker (workers p) w WWoken _ Hw) as Hlk.
      inv_split.
      * done.
      * done.
      * intros w'. rewrite Hlk, Hpk. destruct (decide (w' = w)) as [->|E]; [|done].
        rewrite Hw. split; congruence.
      * intros Hne. by destruct (Hid Hne).
      * intros w' _. by rewrite ?Hcl, ?Hbuf.
      * pose proof (wsum_insert live _ w WWoken _ Hw). simpl in *. lia.
      * intros Hs. rewrite ?Hcl. by destruct (Hst Hs).
      * intros id. rewrite Hacc, ?Hbuf.
        pose proof (wsum_insert (holds id) _ w WWoken _ Hw). simpl in *. lia.
      * intros id. rewrite Hrun.
        pose proof (wsum_insert (races id) _ w WWoken _ Hw). simpl in *. lia.
      * done.
      * done.
      * intros w'. rewrite Hlog, Hlk.
        destruct (decide (w' = w)) as [->|E]; [by rewrite Hw|done].
    + pose proof (insert_lookup_worker (workers p) w WParked _ Hw) as Hlk.
      inv_split.
      * done.
      * apply NoDup_app. split; [done|]. split; [|apply NoDup_singleton].
        intros x Hx ->%list_elem_of_singleton. done.
      * intros w'. rewrite Hlk, elem_of_app, list_elem_of_singleton, Hpk.
        destruct (decide (w' = w)) as [->|E]; [|by intuition].
        split; [done|auto].
      * by rewrite ?Hcl.
      * intros w'. rewrite Hlk. destruct (decide (w' = w)) as [->|E].
        -- by intros [?|?].
        -- intros Hw'. destruct (Hgn w' Hw'). congruence.
      * pose proof (wsum_insert live _ w WParked _ Hw). simpl in *. lia.
      * intros Hs. destruct (Hst Hs). congruence.
      * intros id. rewrite Hacc, ?Hbuf.
        pose proof (wsum_insert (holds id) _ w WParked _ Hw). simpl in *. lia.
      * intros id. rewrite Hrun.
        pose proof (wsum_insert (races id) _ w WParked _ Hw). simpl in *. lia.
      * done.
      * done.
      * intros w'. rewrite Hlog, Hlk.
        destruct (decide (w' = w)) as [->|E]; [by rewrite Hw|done].
  - injection H as <-.
    pose proof (insert_lookup_worker (workers p) w (WGot v) _ Hw) as Hlk.
    inv_split.
    + done.
    + done.
    + intros w'. rewrite Hlk, Hpk. destruct (decide (w' = w)) as [->|E]; [|done].
      rewrite Hw. split; congruence.
    + intros Hne. by destruct (Hid Hne).
    + intros w'. rewrite Hlk. destruct (decide (w' = w)) as [->|E].
      * by intros [?|?].
      * intros Hw'. by destruct (Hgn w' Hw').
    + pose proof (wsum_insert live _ w (WGot v) _ Hw). simpl in *. lia.
    + done.
    + intros id. rewrite Hacc, ?Hbuf, count_cons.
      pose proof (wsum_insert (holds id) _ w (WGot v) _ Hw). simpl in *. lia.
    + intros id. rewrite Hrun.
      pose proof (wsum_insert (races id) _ w (WGot v) _ Hw). simpl in *. lia.
    + done.
    + done.
    + intros w'. rewrite Hlog, Hlk.
      destruct (decide (w' = w)) as [->|E]; [by rewrite Hw|done].
Qed.

Lemma Inv_exit p w p' : Inv p → runWorker_exit p w = Ok p' → Inv p'.
Proof.
  intros HI H. unfold runWorker_exit in H.
  destruct (workers p !! w) as [[]|] eqn:Hw; try done.
  destruct (wg p - 1 <? 0)%Z eqn:Hneg; [done|]. injection H as <-.
  inv_open HI.
  pose proof (insert_lookup_worker (workers p) w WExited _ Hw) as Hlk.
  pose proof (wsum_insert live _ w WExited _ Hw) as Hlive. simpl in Hlive.
  inv_split.
  - done.
  - done.
  - intros w'. rewrite Hlk, Hpk. destruct (decide (w' = w)) as [->|E]; [|done].
    rewrite Hw. split; congruence.
  - done.
  - intros w' _. apply (Hgn w). by left.
  - lia.
  - intros Hs. destruct (Hst Hs). lia.
  - intros id. rewrite Hacc.
    pose proof (wsum_insert (holds id) _ w WExited _ Hw). simpl in *. lia.
  - intros id. rewrite Hrun.
    pose proof (wsum_insert (races id) _ w WExited _ Hw). simpl in *. lia.
  - done.
  - done.
  - intros w'. rewrite Hlog, Hlk.
    destruct (decide (w' = w)) as [->|E]; [by rewrite Hw|done].
Qed.


Lemma verdict_terminal err : Store.terminal (verdict err).1 = true.
Proof. by destruct err. Qed.

Lemma terminal_not_running st : Store.terminal st = true → st ≠ Store.StatusRunning.
Proof. by intros H ->. Qed.

Lemma began_nil : began [] = 0.
Proof. done. Qed.

Lemma ended_nil : ended [] = 0.
Proof. done. Qed.

Lemma began_one st :
  began [st] = if decide (st = Store.StatusRunning) then 1 else 0.
Proof. unfold began. rewrite filter_cons. simpl. by case_decide. Qed.

Lemma ended_one st : ended [st] = if Store.terminal st then 1 else 0.
Proof. unfold ended. rewrite filter_cons. simpl. by destruct (Store.terminal st). Qed.

Lemma Inv_begin p w now p' : Inv p → processJob_begin p w now = Ok p' → Inv p'.
Proof.
  intros HI H. unfold processJob_begin in H.
  destruct (workers p !! w) as [[| | |jobID| |]|] eqn:Hw; try done.
  destruct (Store.UpdateStatus (store p) jobID Store.StatusRunning "" now)
    as [[s e]| |] eqn:HU; try done.
  simpl in H. injection H as <-. inv_open HI.
  set (r := WRacing jobID None (JobTimeout (cfg p) <=? 0)%Z).
  pose proof (insert_lookup_worker (workers p) w r _ Hw) as Hlk.
  assert (Hrun' : ∀ id,
    began (writes id (updates p ++ [(w, jobID, Store.StatusRunning)])) =
    wsum (races id) (<[w := r]> (workers p))
    + ended (writes id (updates p ++ [(w, jobID, Store.StatusRunning)]))).
  { intros id. rewrite writes_snoc, began_app, ended_app, Hrun.
    pose proof (wsum_insert (races id) _ w r _ Hw). simpl in *.
    destruct (decide (jobID = id));
      rewrite ?began_one, ?ended_one, ?began_nil, ?ended_nil; simpl in *; lia. }
  pose proof (wsum_insert live _ w r _ Hw) as Hlive.
  assert (Hholds : ∀ id, wsum (holds id) (<[w := r]> (workers p))
                         + holds id (WGot jobID) = wsum (holds id) (workers p)).
  { intros id. pose proof (wsum_insert (holds id) _ w r _ Hw). simpl in *. lia. }
  subst r. inv_split.
  - by eapply wf_UpdateStatus.
  - done.
  - intros w'. rewrite Hlk, Hpk. destruct (decide (w' = w)) as [->|E]; [|done].
    rewrite Hw. split; congruence.
  - done.
  - intros w'. rewrite Hlk. destruct (decide (w' = w)) as [->|E].
    + by intros [?|?].
    + apply Hgn.
  - simpl in *. lia.
  - done.
  - intros id. rewrite writes_snoc, began_app, Hacc.
    specialize (Hholds id). simpl in *.
    destruct (decide (jobID = id)); rewrite ?began_one, ?began_nil; simpl in *; lia.
  - exact Hrun'.
  - intros id k. specialize (Hrun' id). rewrite writes_snoc in Hrun' |- *.
    destruct (decide (jobID = id)); [|rewrite app_nil_r; apply Hpre].
    destruct (take_snoc_cases (writes id (updates p)) Store.StatusRunning k)
      as [->| ->]; [apply Hpre|lia].
  - intros u [Hu|Hu%list_elem_of_singleton]%elem_of_app; [by apply Hkd|].
    subst u. by left.
  - intros w'. rewrite wlog_snoc, Hlk. destruct (decide (w = w')) as [<-|E].
    + rewrite read_log_snoc, Hlog, Hw. simpl.
      by destruct (decide (w = w)).
    + rewrite app_nil_r, Hlog. by destruct (decide (w' = w)) as [->|].
Qed.

(** A worker at its select stays there while the executor returns or the
    deadline passes. *)
Lemma Inv_racing p w jobID d e d' e' :
  Inv p → workers p !! w = Some (WRacing jobID d e) →
  Inv (set_worker w (WRacing jobID d' e') p).
Proof.
  intros HI Hw. inv_open HI.
  pose proof (insert_lookup_worker (workers p) w (WRacing jobID d' e') _ Hw) as Hlk.
  inv_split.
  - done.
  - done.
  - intros w'. rewrite Hlk, Hpk. destruct (decide (w' = w)) as [->|E]; [|done].
    rewrite Hw. split; congruence.
  - done.
  - intros w'. rewrite Hlk. destruct (decide (w' = w)) as [->|E].
    + by intros [?|?].
    + apply Hgn.
  - pose proof (wsum_insert live _ w (WRacing jobID d' e') _ Hw). simpl in *. lia.
  - done.
  - intros id. rewrite Hacc.
    pose proof (wsum_insert (holds id) _ w (WRacing jobID d' e') _ Hw).
    simpl in *. lia.
  - intros id. rewrite Hrun.
    pose proof (wsum_insert (races id) _ w (WRacing jobID d' e') _ Hw).
    simpl in *. lia.
  - done.
  - done.
  - intros w'. rewrite Hlog, Hlk.
    destruct (decide (w' = w)) as [->|E]; [by rewrite Hw|done].
Qed.

Lemma Inv_executor_done p w err p' : Inv p → executor_done p w err = Ok p' → Inv p'.
Proof.
  intros HI H. unfold executor_done in H.
  destruct (workers p !! w) as [[| | | |jobID [r|] e|]|] eqn:Hw; try done.
  injection H as <-. by eapply Inv_racing.
Qed.

Lemma Inv_deadline_passes p w p' : Inv p → deadline_passes p w = Ok p' → Inv p'.
Proof.
  intros HI H. unfold deadline_passes in H.
  destruct (workers p !! w) as [[| | | |jobID d [|]|]|] eqn:Hw; try done.
  injection H as <-. by eapply Inv_racing.
Qed.

Lemma Inv_conclude p w jobID d e v now p' :
  Inv p → workers p !! w = Some (WRacing jobID d e) →
  Store.terminal v.1 = true →
  conclude p w jobID v now = Ok p' → Inv p'.
Proof.
  intros HI Hw Hterm H. unfold conclude in H. destruct v as [st msg].
  simpl in Hterm, H.
  pose proof (terminal_not_running _ Hterm) as Hnr.
  destruct (Store.UpdateStatus (store p) jobID st msg now)
    as [[s e0]| |] eqn:HU; try done.
  simpl in H. injection H as <-. inv_open HI.
  pose proof (insert_lookup_worker (workers p) w WReady _ Hw) as Hlk.
  assert (Hrun' : ∀ id,
    began (writes id (updates p ++ [(w, jobID, st)])) =
    wsum (races id) (<[w := WReady]> (workers p))
    + ended (writes id (updates p ++ [(w, jobID, st)]))).
  { intros id. rewrite writes_snoc, began_app, ended_app, Hrun.
    pose proof (wsum_insert (races id) _ w WReady _ Hw). simpl in *.
    destruct (decide (jobID = id));
      rewrite ?began_one, ?ended_one, ?began_nil, ?ended_nil, ?Hterm;
      simpl in *; [|lia].
    destruct (decide (st = Store.StatusRunning)); [done|lia]. }
  inv_split.
  - by eapply wf_UpdateStatus.
  - done.
  - intros w'. rewrite Hlk, Hpk. destruct (decide (w' = w)) as [->|E]; [|done].
    rewrite Hw. split; congruence.
  - done.
  - intros w'. rewrite Hlk. destruct (decide (w' = w)) as [->|E].
    + by intros [?|?].
    + apply Hgn.
  - pose proof (wsum_insert live _ w WReady _ Hw). simpl in *. lia.
  - done.
  - intros id. rewrite writes_snoc, began_app, Hacc.
    pose proof (wsum_insert (holds id) _ w WReady _ Hw). simpl in *.
    destruct (decide (jobID = id)); rewrite ?began_one, ?began_nil; simpl in *; [|lia].
    destruct (decide (st = Store.StatusRunning)); [done|lia].
  - exact Hrun'.
  - intros id k. specialize (Hrun' id). rewrite writes_snoc in Hrun' |- *.
    destruct (decide (jobID = id)); [|rewrite app_nil_r; apply Hpre].
    destruct (take_snoc_cases (writes id (updates p)) st k)
      as [->| ->]; [apply Hpre|lia].
  - intros u [Hu|Hu%list_elem_of_singleton]%elem_of_app; [by apply Hkd|].
    subst u. by right.
  - intros w'. rewrite wlog_snoc, Hlk. destruct (decide (w = w')) as [<-|E].
    + rewrite read_log_snoc, Hlog, Hw. simpl.
      destruct (decide (jobID = jobID)); [|done]. rewrite Hterm.
      by destruct (decide (w = w)).
    + rewrite app_nil_r, Hlog. by destruct (decide (w' = w)) as [->|].
Qed.

Lemma Inv_finish p w c now p' : Inv p → processJob_finish p w c now = Ok p' → Inv p'.
Proof.
  intros HI H. unfold processJob_finish in H.
  destruct (workers p !! w) as [[| | | |jobID d e|]|] eqn:Hw; try done.
  destruct c, d as [err|], e; simpl in H; try done.
  - eapply Inv_conclude; [exact HI|exact Hw|apply verdict_terminal|exact H].
  - eapply Inv_conclude; [exact HI|exact Hw|apply verdict_terminal|exact H].
  - destruct (conclude p w jobID (Store.StatusCancelled, deadlineText) now)
      as [q| |] eqn:E; try done.
    simpl in H. injection H as <-.
    eapply Inv_conclude; [exact HI|exact Hw| |exact E]; reflexivity.
  - destruct (conclude p w jobID (Store.StatusCancelled, deadlineText) now)
      as [q| |] eqn:E; try done.
    assert (HI' : Inv q) by (eapply Inv_conclude; [exact HI|exact Hw| |exact E]; reflexivity).
    simpl in H. injection H as <-. by destruct HI'.
Qed.

Lemma Inv_executor_returns p i err p' :
  Inv p → executor_returns p i err = Ok p' → Inv p'.
Proof.
  intros HI H. unfold executor_returns in H.
  destruct (abandoned p !! i); [|done]. injection H as <-. by destruct HI.
Qed.

Lemma Inv_step a p p' : Inv p → step a p = Ok p' → Inv p'.
Proof.
  intros HI H. destruct a; simpl in H.
  - destruct (Submit p jobID) as [[b q]| |] eqn:E; try done.
    simpl in H. injection H as <-. by eapply Inv_Submit.
  - by eapply Inv_Stop_close.
  - by eapply Inv_Stop_wait.
  - by eapply Inv_receive.
  - by eapply Inv_begin.
  - by eapply Inv_executor_done.
  - by eapply Inv_deadline_passes.
  - by eapply Inv_finish.
  - by eapply Inv_exit.
  - by eapply Inv_executor_returns.
  - injection H as <-. destruct HI. constructor; try done. by apply wf_declare.
  - destruct (Store.Save (store p) l) as [s| |] eqn:E; try done.
    simpl in H. injection H as <-. destruct HI. constructor; try done.
    by eapply wf_Save.
  - destruct (Store.heap (store p) !! l); [|done]. injection H as <-.
    destruct HI. constructor; try done. by apply wf_write.
Qed.

Lemma run_app acts acts' p :
  run (acts ++ acts') p = rbind (run acts p) (run acts').
Proof.
  revert p. induction acts as [|a acts IH]; intros p; simpl; [done|].
  destruct (step a p); simpl; [apply IH|done|done].
Qed.

Lemma Inv_run acts p p' : Inv p → run acts p = Ok p' → Inv p'.
Proof.
  revert p. induction acts as [|a acts IH]; intros p HI H; simpl in H.
  - by injection H as <-.
  - destruct (step a p) as [q| |] eqn:E; try done. simpl in H.
    eapply IH; [|exact H]. by eapply Inv_step.
Qed.

Lemma Inv_reachable p : reachable p → Inv p.
Proof.
  intros (p0 & acts & H0 & H). eapply Inv_run; [|exact H]. by apply Inv_started.
Qed.

Lemma reachable_run acts p p' : reachable p → run acts p = Ok p' → reachable p'.
Proof.
  intros (p0 & acts0 & H0 & H) H'. exists p0, (acts0 ++ acts). split; [done|].
  by rewrite run_app, H.
Qed.

Lemma reachable_step a p p' : reachable p → step a p = Ok p' → reachable p'.
Proof.
  intros Hr H. apply (reachable_run [a] p); [done|]. simpl. by rewrite H.
Qed.

End Invariant.

(** * What a step leaves alone *)

Section Frames.
Import Worker Hist.
Local Open Scope nat_scope.

Lemma conclude_fields p w jobID v now q :
  conclude p w jobID v now = Ok q →
  jobs q = jobs p ∧ accepted q = accepted p ∧
  updates q = updates p ++ [(w, jobID, v.1)] ∧
  workers q = <[w := WReady]> (workers p) ∧
  abandoned q = abandoned p.
Proof.
  unfold conclude.
  destruct (Store.UpdateStatus _ _ _ _ _) as [[s e]| |]; try done.
  simpl. by intros [= <-].
Qed.

Lemma finish_fields p w c now p' :
  processJob_finish p w c now = Ok p' →
  ∃ jobID d e st,
    workers p !! w = Some (WRacing jobID d e) ∧
    jobs p' = jobs p ∧ accepted p' = accepted p ∧
    updates p' = updates p ++ [(w, jobID, st)] ∧
    workers p' = <[w := WReady]> (workers p) ∧
    (abandoned p' = abandoned p ∨ abandoned p' = abandoned p ++ [jobID]).
Proof.
  intros H. unfold processJob_finish in H.
  destruct (workers p !! w) as [[| | | |jobID d e|]|] eqn:Hw; try done.
  exists jobID, d, e.
  destruct c, d as [err|], e; simpl in H; try done.
  - destruct (conclude_fields _ _ _ _ _ _ H) as (-> & -> & -> & -> & ->). eauto 10.
  - destruct (conclude_fields _ _ _ _ _ _ H) as (-> & -> & -> & -> & ->). eauto 10.
  - destruct (conclude p w jobID _ now) as [q| |] eqn:E; try done.
    simpl in H. injection H as <-.
    destruct (conclude_fields _ _ _ _ _ _ E) as (-> & -> & -> & -> & ->). eauto 10.
  - destruct (conclude p w jobID _ now) as [q| |] eqn:E; try done.
    simpl in H. injection H as <-. simpl.
    destruct (conclude_fields _ _ _ _ _ _ E) as (-> & -> & -> & -> & _). eauto 10.
Qed.

Lemma executor_done_fields p w err p' :
  executor_done p w err = Ok p' →
  ∃ jobID e,
    workers p !! w = Some (WRacing jobID None e) ∧
    p' = set_worker w (WRacing jobID (Some err) e) p.
Proof.
  unfold executor_done.
  destruct (workers p !! w) as [[| | | |jobID [r|] e|]|]; try done.
  intros [= <-]. eauto.
Qed.

Lemma deadline_passes_fields p w p' :
  deadline_passes p w = Ok p' →
  ∃ jobID d,
    workers p !! w = Some (WRacing jobID d false) ∧
    p' = set_worker w (WRacing jobID d true) p.
Proof.
  unfold deadline_passes.
  destruct (workers p !! w) as [[| | | |jobID d [|]|]|]; try done.
  intros [= <-]. eauto.
Qed.

End Frames.

(** * Submit, Stop and NewPool *)

Section Submission.
Import Worker Hist.
Local Open Scope nat_scope.

Lemma Submit_store p jobID b p' :
  Submit p jobID = Ok (b, p') → store p' = store p ∧ updates p' = updates p.
Proof.
  unfold Submit. destruct (trySend (jobs p) jobID) as [[[c [w|]]|]| |]; simpl;
    try done; by intros [= <- <-].
Qed.

Lemma Submit_open p jobID :
  closed (jobs p) = false →
  ∃ b p', Submit p jobID = Ok (b, p') ∧
    (b = true ↔ length (buf (jobs p)) < cap (jobs p) ∨ recvq (jobs p) ≠ []).
Proof.
  intros Hcl. unfold Submit, trySend. rewrite Hcl.
  destruct (recvq (jobs p)) as [|w q] eqn:Hq.
  - destruct (length (buf (jobs p)) <? cap (jobs p)) eqn:Hlt; simpl.
    + apply Nat.ltb_lt in Hlt. eexists _, _. split; [done|]. split; auto.
    + apply Nat.ltb_ge in Hlt. eexists _, _. split; [done|]. split; [done|].
      intros [?|?]; [lia|done].
  - simpl. eexists _, _. split; [done|]. split; [|done]. intros _. by right.
Qed.

Lemma Submit_closed p jobID :
  closed (jobs p) = true → Submit p jobID = Panic "send on closed channel".
Proof. intros Hcl. unfold Submit, trySend. by rewrite Hcl. Qed.

Lemma Stop_close_closed p :
  closed (jobs p) = true → Stop_close p = Panic "close of closed channel".
Proof. intros Hcl. unfold Stop_close, close. by rewrite Hcl. Qed.

Lemma Stop_close_closes p p' : Stop_close p = Ok p' → closed (jobs p') = true.
Proof.
  unfold Stop_close, close. destruct (closed (jobs p)); [done|].
  simpl. by intros [= <-].
Qed.

Lemma closed_step a p p' :
  closed (jobs p) = true → step a p = Ok p' → closed (jobs p') = true.
Proof.
  intros Hcl H. destruct a; simpl in H.
  - by rewrite Submit_closed in H.
  - by rewrite Stop_close_closed in H.
  - unfold Stop_wait in H.
    destruct (closed (jobs p) && negb (stopped p) && (wg p =? 0)%Z); [|done].
    by injection H as <-.
  - unfold runWorker_receive, recv in H.
    destruct (workers p !! w) as [[]|]; try done.
    destruct (buf (jobs p)); [rewrite Hcl in H|]; by injection H as <-.
  - unfold processJob_begin in H. destruct (workers p !! w) as [[]|]; try done.
    destruct (Store.UpdateStatus _ _ _ _ _) as [[s e]| |]; try done.
    by injection H as <-.
  - by destruct (executor_done_fields _ _ _ _ H) as (? & ? & _ & ->).
  - by destruct (deadline_passes_fields _ _ _ H) as (? & ? & _ & ->).
  - destruct (finish_fields _ _ _ _ _ H) as (? & ? & ? & ? & _ & Hj & _).
    by rewrite Hj.
  - unfold runWorker_exit in H. destruct (workers p !! w) as [[]|]; try done.
    destruct (wg p - 1 <? 0)%Z; [done|]. by injection H as <-.
  - unfold executor_returns in H. destruct (abandoned p !! i); [|done].
    by injection H as <-.
  - by injection H as <-.
  - destruct (Store.Save (store p) l) as [s| |]; try done. by injection H as <-.
  - destruct (Store.heap (store p) !! l); [|done]. by injection H as <-.
Qed.

Lemma closed_run acts p p' :
  closed (jobs p) = true → run acts p = Ok p' → closed (jobs p') = true.
Proof.
  revert p. induction acts as [|a acts IH]; intros p Hcl H; simpl in H.
  - by injection H as <-.
  - destruct (step a p) as [q| |] eqn:E; try done.
    eapply IH; [|exact H]. by eapply closed_step.
Qed.

Lemma submit_all_fills n : ∀ p ids,
  closed (jobs p) = false → recvq (jobs p) = [] →
  length (buf (jobs p)) + n = cap (jobs p) → length ids = S n →
  ∃ p', submit_all p ids = Ok (replicate n true ++ [false], p').
Proof.
  induction n as [|n IH]; intros p ids Hcl Hq Hlen Hids.
  - destruct ids as [|x [|y ids]]; try done. simpl.
    unfold Submit, trySend. rewrite Hcl, Hq.
    replace (length (buf (jobs p)) <? cap (jobs p)) with false
      by (symmetry; apply Nat.ltb_ge; lia).
    simpl. eauto.
  - destruct ids as [|x ids]; [done|]. simpl in Hids.
    change (submit_all p (x :: ids)) with
      (rbind (Submit p x) (λ r,
         rbind (submit_all r.2 ids) (λ r', Ok (r.1 :: r'.1, r'.2)))).
    unfold Submit, trySend. rewrite Hcl, Hq.
    replace (length (buf (jobs p)) <? cap (jobs p)) with true
      by (symmetry; apply Nat.ltb_lt; lia).
    simpl.
    destruct (IH (log_accept x
                    (set_jobs (mkChan (buf (jobs p) ++ [x]) (cap (jobs p)) false []) p))
                 ids) as [p' Hp']; simpl; try done.
    + rewrite length_app. simpl. lia.
    + lia.
    + rewrite Hp'. simpl. eauto.
Qed.

End Submission.

(** [TestPoolQueueFull] of pool_test.go. *)
Example TestPoolQueueFull :
  ∃ p p1 p2,
    Worker.literalPool (Store.New ∅) 1 = Ok p ∧
    Worker.Submit p "x" = Ok (true, p1) ∧
    Worker.Submit p1 "y" = Ok (false, p2).
Proof. eexists _, _, _. split; [reflexivity|]. split; reflexivity. Qed.

(** C8. [Submit] never writes to the store: whatever it returns, the
    store and the history of worker writes are the ones it was given, and
    when it returns [false] the whole pool state is unchanged. *)
Theorem Submit_rejected_changes_nothing (p p' : Worker.Pool) (jobID : string)
    (b : bool) :
  Worker.Submit p jobID = Ok (b, p') →
  Worker.store p' = Worker.store p ∧
  Worker.updates p' = Worker.updates p ∧
  (b = false → p' = p).
Proof.
  intros H. destruct (Submit_store _ _ _ _ H) as [Hs Hu].
  split; [done|]. split; [done|]. intros ->.
  unfold Worker.Submit in H.
  destruct (Worker.trySend (Worker.jobs p) jobID) as [[[c [w|]]|]| |];
    simpl in H; try done. by injection H as <-.
Qed.

Lemma Submit_rejected_changes_nothing_witness :
  Worker.Submit fullPool "y" = Ok (false, fullPool) ∧
  Worker.store fullPool = Worker.store fullPool ∧
  Worker.updates fullPool = Worker.updates fullPool ∧
  (false = false → fullPool = fullPool).
Proof.
  split; [reflexivity|].
  apply (Submit_rejected_changes_nothing fullPool fullPool "y" false).
  reflexivity.
Defined.

(** C10. Once [Stop] has closed the channel, and whatever the pool does
    afterwards, every [Submit] panics with a send on a closed channel and a
    second [Stop] panics with a close of a closed channel; while the
    channel is open [Submit] returns a boolean. *)
Theorem Submit_and_Stop_after_Stop (p p1 p2 : Worker.Pool)
    (acts : list Worker.Action) :
  Worker.Stop_close p = Ok p1 →
  Worker.run acts p1 = Ok p2 →
  (∀ jobID, ∃ b p', Worker.Submit p jobID = Ok (b, p')) ∧
  (∀ jobID, Worker.Submit p2 jobID = Panic "send on closed channel") ∧
  Worker.Stop_close p2 = Panic "close of closed channel".
Proof.
  intros H1 H2.
  assert (Hcl : Worker.closed (Worker.jobs p2) = true).
  { eapply closed_run; [|exact H2]. by eapply Stop_close_closes. }
  split; [|split].
  - intros jobID. unfold Worker.Stop_close, Worker.close in H1.
    destruct (Worker.closed (Worker.jobs p)) eqn:E; [done|].
    destruct (Submit_open p jobID E) as (b & p' & H & _). eauto.
  - intros jobID. by apply Submit_closed.
  - by apply Stop_close_closed.
Qed.

Lemma Submit_and_Stop_after_Stop_witness :
  ∃ p1 p2,
    Worker.Stop_close demoPool = Ok p1 ∧
    Worker.run [Worker.AReceive 0] p1 = Ok p2 ∧
    (∀ jobID, ∃ b p', Worker.Submit demoPool jobID = Ok (b, p')) ∧
    (∀ jobID, Worker.Submit p2 jobID = Panic "send on closed channel") ∧
    Worker.Stop_close p2 = Panic "close of closed channel".
Proof.
  eexists _, _. split; [reflexivity|]. split; [reflexivity|].
  eapply (Submit_and_Stop_after_Stop demoPool _ _ [Worker.AReceive 0]);
    reflexivity.
Defined.

(** [make] with a negative size is the one failure of [NewPool]. *)
Lemma NewPool_negative_queue (s : Store.MemoryStore) (c : Worker.Config) :
  (Worker.QueueSize c < 0)%Z →
  Worker.NewPool s c = Panic "makechan: size out of range".
Proof.
  intros H. unfold Worker.NewPool, Worker.make.
  by replace (Worker.QueueSize c <? 0)%Z with true by (symmetry; apply Z.ltb_lt; lia).
Qed.




Lemma demoStore_wf : Store.wf demoStore.
Proof. apply wf_SaveNew, wf_New. Qed.

Lemma demoPool_reachable : Worker.reachable demoPool.
Proof.
  exists demoPool, []. split; [|done]. left.
  exists demoStore, Worker.DefaultConfig. split; [done|apply demoStore_wf].
Qed.

Lemma handoffPool_reachable : Worker.reachable handoffPool.
Proof.
  exists (Worker.spawn 1
            (Worker.mkPool (Worker.mkChan [] 0 false []) demoStore
               (Worker.mkConfig 1 0 (5 * Worker.Second)) 0 [] [] false [] [])),
         [Worker.AReceive 0].
  split; [|done]. left.
  exists demoStore, (Worker.mkConfig 1 0 (5 * Worker.Second)).
  split; [done|apply demoStore_wf].
Qed.

(** C1, as the code has it. While the channel is open [Submit] returns at
    once, and returns [true] exactly when the buffer holds fewer
    identifiers than its capacity or a worker is blocked in its receive;
    with a capacity of at least one that is exactly when the buffer holds
    fewer identifiers than its capacity. From an empty buffer with no
    worker receiving, [cap + 1] calls in a row return [true] for the first
    [cap] and [false] for the last. *)
Theorem Submit_nonblocking (p : Worker.Pool) :
  Worker.reachable p →
  Worker.closed (Worker.jobs p) = false →
  (∀ jobID, ∃ b p',
      Worker.Submit p jobID = Ok (b, p') ∧
      (b = true ↔
         (length (Worker.buf (Worker.jobs p)) < Worker.cap (Worker.jobs p))%nat
         ∨ Worker.recvq (Worker.jobs p) ≠ []) ∧
      ((1 ≤ Worker.cap (Worker.jobs p))%nat →
       (b = true ↔
          (length (Worker.buf (Worker.jobs p)) < Worker.cap (Worker.jobs p))%nat)))
  ∧ (Worker.buf (Worker.jobs p) = [] → Worker.recvq (Worker.jobs p) = [] →
     ∀ ids, length ids = S (Worker.cap (Worker.jobs p)) →
       ∃ p', Hist.submit_all p ids
             = Ok (replicate (Worker.cap (Worker.jobs p)) true ++ [false], p')).
Proof.
  intros Hr Hcl. split.
  - intros jobID. destruct (Submit_open p jobID Hcl) as (b & p' & H & Hb).
    exists b, p'. split; [done|]. split; [done|]. intros Hcap. rewrite Hb.
    split; [|auto]. intros [?|Hq]; [done|].
    destruct (Hist.inv_idle p (Inv_reachable p Hr) Hq) as [-> _]. simpl. lia.
  - intros Hbuf Hq ids Hids. apply submit_all_fills; try done.
    by rewrite Hbuf.
Qed.

Lemma Submit_nonblocking_witness :
  (∀ jobID, ∃ b p',
      Worker.Submit demoPool jobID = Ok (b, p') ∧
      (b = true ↔ (0 < 100)%nat ∨ @nil nat ≠ []) ∧
      ((1 ≤ 100)%nat → (b = true ↔ (0 < 100)%nat)))
  ∧ (@nil string = [] → @nil nat = [] →
     ∀ ids, length ids = 101%nat →
       ∃ p', Hist.submit_all demoPool ids = Ok (replicate 100 true ++ [false], p')).
Proof.
  apply (Submit_nonblocking demoPool demoPool_reachable). reflexivity.
Defined.

(** C1, as the specification states it, does not hold: with no buffer
    and a worker blocked in its receive, the channel holds no identifier,
    which is not fewer than its capacity of zero, and [Submit] returns
    [true]. *)
Lemma Submit_true_iff_room_fails :
  ¬ (∀ (p p' : Worker.Pool) (jobID : string) (b : bool),
       Worker.reachable p →
       Worker.Submit p jobID = Ok (b, p') →
       (b = true ↔
          (length (Worker.buf (Worker.jobs p)) < Worker.cap (Worker.jobs p))%nat)).
Proof.
  intros H.
  destruct (H handoffPool _ "a" true handoffPool_reachable eq_refl) as [Hlt _].
  specialize (Hlt eq_refl). simpl in Hlt. lia.
Qed.

(** * processJob *)

Lemma gotPool_reachable : Worker.reachable gotPool.
Proof.
  exists (Worker.spawn 1
            (Worker.mkPool (Worker.mkChan [] 1 false []) demoStore
               (Worker.mkConfig 1 1 (5 * Worker.Second)) 0 [] [] false [] [])),
         [Worker.ASubmit "c"; Worker.AReceive 0].
  split; [|done]. left.
  exists demoStore, (Worker.mkConfig 1 1 (5 * Worker.Second)).
  split; [done|apply demoStore_wf].
Qed.

Lemma racingPool_reachable : Worker.reachable racingPool.
Proof.
  apply (reachable_step (Worker.ABegin 0 8) gotPool); [apply gotPool_reachable|].
  by vm_compute.
Qed.

Lemma conclude_stored (p : Worker.Pool) (w : nat) (jobID : string)
    (l : Store.loc) (v : Store.Status * string) (now : Store.Time) :
  Store.wf (Worker.store p) →
  Store.jobs (Worker.store p) !! jobID = Some l →
  (w < length (Worker.workers p))%nat →
  ∃ q j,
    Worker.conclude p w jobID v now = Ok q ∧
    Store.Get (Worker.store q) jobID = Ok (j, None) ∧
    Store.JobStatus j = v.1 ∧ Store.Error j = v.2 ∧ Store.UpdatedAt j = now ∧
    Worker.workers q !! w = Some Worker.WReady ∧
    Worker.jobs q = Worker.jobs p ∧
    Worker.updates q = Worker.updates p ++ [(w, jobID, v.1)] ∧
    Worker.abandoned q = Worker.abandoned p.
Proof.
  intros Hwf Hl Hlt.
  destruct (UpdateStatus_stored (Worker.store p) jobID l v.1 v.2 now Hwf Hl)
    as (j & s' & Hj & HU & HG & _).
  eexists _, _. split.
  { unfold Worker.conclude. rewrite HU. simpl. reflexivity. }
  simpl. split; [exact HG|]. repeat split. by apply list_lookup_insert_eq.
Qed.

(** C3. Let the identifier be stored. A worker that has received it
    writes [running] with an empty error text and comes to the select with
    the executor started. At the select: when the executor has returned
    and the deadline has not passed, only the first case can be taken and
    the write is [completed] with an empty text if the executor returned
    no error, [failed] with the executor's text if it returned one; when
    the deadline has passed and the executor has not returned, only the
    second case can be taken, the write is [cancelled] with the deadline
    text, and the executor is left running and may still return, which
    changes no record; when neither has happened the worker waits.
    Whichever case is taken, one terminal write is added to the history,
    the record shows it, the channel is as it was and the worker is back
    at the head of its loop. *)
Theorem processJob_records_one_outcome (p : Worker.Pool) (w : nat)
    (jobID : string) (l : Store.loc) :
  Worker.reachable p →
  Store.jobs (Worker.store p) !! jobID = Some l →
  (Worker.workers p !! w = Some (Worker.WGot jobID) →
   ∀ now, ∃ p1 j1,
     Worker.processJob_begin p w now = Ok p1 ∧
     Store.Get (Worker.store p1) jobID = Ok (j1, None) ∧
     Store.JobStatus j1 = Store.StatusRunning ∧ Store.Error j1 = "" ∧
     Store.UpdatedAt j1 = now ∧
     Worker.workers p1 !! w
       = Some (Worker.WRacing jobID None (Worker.JobTimeout (Worker.cfg p) <=? 0)%Z) ∧
     Worker.jobs p1 = Worker.jobs p ∧
     Worker.updates p1 = Worker.updates p ++ [(w, jobID, Store.StatusRunning)])
  ∧
  (∀ d e now, Worker.workers p !! w = Some (Worker.WRacing jobID d e) →
     (∀ r, d = Some r → e = false →
        Worker.processJob_finish p w Worker.CaseDeadline now = Blocked ∧
        ∃ p2 j2,
          Worker.processJob_finish p w Worker.CaseDone now = Ok p2 ∧
          Store.Get (Worker.store p2) jobID = Ok (j2, None) ∧
          match r with
          | None => Store.JobStatus j2 = Store.StatusCompleted ∧ Store.Error j2 = ""
          | Some msg => Store.JobStatus j2 = Store.StatusFailed ∧ Store.Error j2 = msg
          end ∧
          Store.UpdatedAt j2 = now ∧
          Worker.abandoned p2 = Worker.abandoned p)
     ∧
     (d = None → e = true →
        Worker.processJob_finish p w Worker.CaseDone now = Blocked ∧
        ∃ p2 j2,
          Worker.processJob_finish p w Worker.CaseDeadline now = Ok p2 ∧
          Store.Get (Worker.store p2) jobID = Ok (j2, None) ∧
          Store.JobStatus j2 = Store.StatusCancelled ∧
          Store.Error j2 = "context deadline exceeded" ∧
          Store.UpdatedAt j2 = now ∧
          Worker.abandoned p2 = Worker.abandoned p ++ [jobID] ∧
          ∀ err, ∃ p3,
            Worker.executor_returns p2 (length (Worker.abandoned p)) err = Ok p3 ∧
            Worker.store p3 = Worker.store p2 ∧
            Worker.updates p3 = Worker.updates p2 ∧
            Worker.workers p3 = Worker.workers p2)
     ∧
     (d = None → e = false → ∀ c, Worker.processJob_finish p w c now = Blocked)
     ∧
     (∀ c p2, Worker.processJob_finish p w c now = Ok p2 →
        Worker.workers p2 !! w = Some Worker.WReady ∧
        Worker.jobs p2 = Worker.jobs p ∧
        ∃ st j2, Store.terminal st = true ∧
                 Worker.updates p2 = Worker.updates p ++ [(w, jobID, st)] ∧
                 Store.Get (Worker.store p2) jobID = Ok (j2, None) ∧
                 Store.JobStatus j2 = st)).
Proof.
  intros Hr Hl. pose proof (Hist.inv_wf p (Inv_reachable p Hr)) as Hwf. split.
  - intros Hw now.
    destruct (UpdateStatus_stored (Worker.store p) jobID l Store.StatusRunning
                "" now Hwf Hl) as (j & s' & Hj & HU & HG & _).
    eexists _, _. split.
    { unfold Worker.processJob_begin. rewrite Hw, HU. simpl. reflexivity. }
    simpl. split; [exact HG|]. repeat split.
    apply list_lookup_insert_eq. by eapply lookup_lt_Some.
  - intros d e now Hw.
    assert (Hlt : (w < length (Worker.workers p))%nat) by by eapply lookup_lt_Some.
    pose proof (λ v, conclude_stored p w jobID l v now Hwf Hl Hlt) as Hc.
    split; [|split; [|split]].
    + intros r -> ->. unfold Worker.processJob_finish. rewrite Hw.
      split; [done|].
      destruct (Hc (Worker.verdict r))
        as (q & j & HQ & HG & Hs & He & Ht & _ & _ & _ & Hab).
      exists q, j. split; [exact HQ|]. split; [exact HG|].
      split; [by destruct r|]. done.
    + intros -> ->. unfold Worker.processJob_finish. rewrite Hw.
      split; [done|].
      destruct (Hc (Store.StatusCancelled, Worker.deadlineText))
        as (q & j & HQ & HG & Hs & He & Ht & Hws & Hjb & Hu & Hab).
      eexists _, j. rewrite HQ. simpl. split; [reflexivity|].
      split; [exact HG|]. repeat split; try done.
      intros err. unfold Worker.executor_returns. simpl.
      rewrite lookup_app_r by done. rewrite Nat.sub_diag. simpl. eauto.
    + intros -> -> c. unfold Worker.processJob_finish. rewrite Hw. by destruct c.
    + intros c p2 H. unfold Worker.processJob_finish in H. rewrite Hw in H.
      destruct c, d as [r|], e; simpl in H; try done.
      * destruct (Hc (Worker.verdict r))
          as (q & j & HQ & HG & Hs & _ & _ & Hws & Hjb & Hu & _).
        rewrite HQ in H. injection H as <-. split; [done|]. split; [done|].
        exists (Worker.verdict r).1, j. split; [apply verdict_terminal|]. done.
      * destruct (Hc (Worker.verdict r))
          as (q & j & HQ & HG & Hs & _ & _ & Hws & Hjb & Hu & _).
        rewrite HQ in H. injection H as <-. split; [done|]. split; [done|].
        exists (Worker.verdict r).1, j. split; [apply verdict_terminal|]. done.
      * destruct (Hc (Store.StatusCancelled, Worker.deadlineText))
          as (q & j & HQ & HG & Hs & _ & _ & Hws & Hjb & Hu & _).
        rewrite HQ in H. simpl in H. injection H as <-.
        split; [done|]. split; [done|].
        exists Store.StatusCancelled, j. done.
      * destruct (Hc (Store.StatusCancelled, Worker.deadlineText))
          as (q & j & HQ & HG & Hs & _ & _ & Hws & Hjb & Hu & _).
        rewrite HQ in H. simpl in H. injection H as <-.
        split; [done|]. split; [done|].
        exists Store.StatusCancelled, j. done.
Qed.

(** With both channels ready the select may take either case. *)
Lemma select_with_both_ready (p : Worker.Pool) (w : nat) (jobID : string)
    (l : Store.loc) (r : option string) (now : Store.Time) :
  Store.wf (Worker.store p) →
  Store.jobs (Worker.store p) !! jobID = Some l →
  Worker.workers p !! w = Some (Worker.WRacing jobID (Some r) true) →
  (∃ p2, Worker.processJob_finish p w Worker.CaseDone now = Ok p2) ∧
  (∃ p2, Worker.processJob_finish p w Worker.CaseDeadline now = Ok p2).
Proof.
  intros Hwf Hl Hw.
  assert (Hlt : (w < length (Worker.workers p))%nat) by by eapply lookup_lt_Some.
  unfold Worker.processJob_finish. rewrite Hw. split.
  - destruct (conclude_stored p w jobID l (Worker.verdict r) now Hwf Hl Hlt)
      as (q & _ & -> & _). eauto.
  - destruct (conclude_stored p w jobID l (Store.StatusCancelled, Worker.deadlineText)
                now Hwf Hl Hlt) as (q & _ & -> & _). simpl. eauto.
Qed.

Lemma decidedPool_reachable : Worker.reachable decidedPool.
Proof.
  apply (reachable_step (Worker.AExecutorDone 0 (Some "boom")) racingPool);
    [apply racingPool_reachable|done].
Qed.

Lemma expiredPool_reachable : Worker.reachable expiredPool.
Proof.
  apply (reachable_step (Worker.ADeadline 0) racingPool);
    [apply racingPool_reachable|done].
Qed.

Lemma processJob_records_one_outcome_witness :
  (∃ p1 j1,
     Worker.processJob_begin gotPool 0 8 = Ok p1 ∧
     Store.Get (Worker.store p1) "c" = Ok (j1, None) ∧
     Store.JobStatus j1 = Store.StatusRunning ∧ Store.Error j1 = "" ∧
     Store.UpdatedAt j1 = 8%Z ∧
     Worker.workers p1 !! 0%nat = Some (Worker.WRacing "c" None false) ∧
     Worker.jobs p1 = Worker.jobs gotPool ∧
     Worker.updates p1 = Worker.updates gotPool ++ [(0%nat, "c", Store.StatusRunning)])
  ∧
  (Worker.processJob_finish decidedPool 0 Worker.CaseDeadline 9 = Blocked ∧
   ∃ p2 j2,
     Worker.processJob_finish decidedPool 0 Worker.CaseDone 9 = Ok p2 ∧
     Store.Get (Worker.store p2) "c" = Ok (j2, None) ∧
     (Store.JobStatus j2 = Store.StatusFailed ∧ Store.Error j2 = "boom") ∧
     Store.UpdatedAt j2 = 9%Z ∧
     Worker.abandoned p2 = Worker.abandoned decidedPool)
  ∧
  (Worker.processJob_finish expiredPool 0 Worker.CaseDone 9 = Blocked ∧
   ∃ p2 j2,
     Worker.processJob_finish expiredPool 0 Worker.CaseDeadline 9 = Ok p2 ∧
     Store.Get (Worker.store p2) "c" = Ok (j2, None) ∧
     Store.JobStatus j2 = Store.StatusCancelled ∧
     Store.Error j2 = "context deadline exceeded" ∧
     Store.UpdatedAt j2 = 9%Z ∧
     Worker.abandoned p2 = Worker.abandoned expiredPool ++ ["c"] ∧
     ∀ err, ∃ p3,
       Worker.executor_returns p2 (length (Worker.abandoned expiredPool)) err = Ok p3 ∧
       Worker.store p3 = Worker.store p2 ∧
       Worker.updates p3 = Worker.updates p2 ∧
       Worker.workers p3 = Worker.workers p2).
Proof.
  split; [|split].
  - exact (proj1 (processJob_records_one_outcome gotPool 0 "c" 1%positive
                    gotPool_reachable eq_refl) eq_refl 8%Z).
  - exact (proj1 (proj2 (processJob_records_one_outcome decidedPool 0 "c" 1%positive
                           decidedPool_reachable eq_refl)
                    (Some (Some "boom")) false 9%Z eq_refl)
             (Some "boom") eq_refl eq_refl).
  - exact (proj1 (proj2 (proj2 (processJob_records_one_outcome expiredPool 0 "c"
                                  1%positive expiredPool_reachable eq_refl)
                           None true 9%Z eq_refl))
             eq_refl eq_refl).
Defined.

(** * The history of worker writes *)

Section Histories.
Import Worker Hist.
Local Open Scope nat_scope.

Lemma writes_app id us us' : writes id (us ++ us') = writes id us ++ writes id us'.
Proof. unfold writes. by rewrite filter_app, fmap_app. Qed.

Lemma writes_kind id us x :
  (∀ u, u ∈ us → u.2 = Store.StatusRunning ∨ Store.terminal u.2 = true) →
  x ∈ writes id us → x = Store.StatusRunning ∨ Store.terminal x = true.
Proof.
  intros Hk Hx. unfold writes in Hx.
  apply list_elem_of_fmap in Hx as (u & -> & Hu).
  apply list_elem_of_filter in Hu as [_ Hu]. by apply Hk.
Qed.

(** The shape of a history with at most one [running] in which no prefix
    has more terminal writes than [running] writes. *)
Lemma writes_shape (L : list Store.Status) :
  (∀ x, x ∈ L → x = Store.StatusRunning ∨ Store.terminal x = true) →
  (∀ k, ended (take k L) ≤ began (take k L)) →
  began L ≤ 1 →
  L = [] ∨ L = [Store.StatusRunning]
  ∨ ∃ st, Store.terminal st = true ∧ L = [Store.StatusRunning; st].
Proof.
  intros Hk Hpre Hb. destruct L as [|x L]; [by left|]. right.
  assert (Hx : x = Store.StatusRunning).
  { destruct (Hk x) as [?|Ht]; [by left|done|].
    specialize (Hpre 1). simpl in Hpre. rewrite take_0 in Hpre.
    rewrite began_one, ended_one, Ht in Hpre.
    destruct (decide (x = Store.StatusRunning)); [done|lia]. }
  subst x. change (Store.StatusRunning :: L) with ([Store.StatusRunning] ++ L) in Hb.
  rewrite began_app, began_one in Hb. simpl in Hb.
  destruct L as [|y L]; [by left|]. right.
  assert (Hy : Store.terminal y = true).
  { destruct (Hk y) as [->|?]; [right; by left| |done].
    change (Store.StatusRunning :: L) with ([Store.StatusRunning] ++ L) in Hb.
    rewrite began_app, began_one in Hb. simpl in Hb. lia. }
  exists y. split; [done|]. do 2 f_equal.
  destruct L as [|z L]; [done|]. exfalso.
  change (y :: z :: L) with ([y] ++ [z] ++ L) in Hb.
  rewrite !began_app, !began_one in Hb.
  destruct (Hk z) as [->|Hz]; [right; right; by left|simpl in Hb; lia|].
  specialize (Hpre 3). simpl in Hpre. rewrite take_0 in Hpre.
  change [Store.StatusRunning; y; z] with ([Store.StatusRunning] ++ [y] ++ [z]) in Hpre.
  rewrite !began_app, !ended_app, !began_one, !ended_one, Hy, Hz in Hpre.
  simpl in Hpre.
  destruct (decide (y = Store.StatusRunning)) as [->|]; [done|].
  destruct (decide (z = Store.StatusRunning)) as [->|]; [done|]. lia.
Qed.

Lemma updates_step a p p' :
  step a p = Ok p' → ∃ more, updates p' = updates p ++ more.
Proof.
  intros H. destruct a; simpl in H.
  - destruct (Submit p jobID) as [[b q]| |] eqn:E; try done.
    simpl in H. injection H as <-. destruct (Submit_store _ _ _ _ E) as [_ ->].
    exists []. by rewrite app_nil_r.
  - unfold Stop_close in H. destruct (close (jobs p)) as [[c q]| |]; try done.
    injection H as <-. exists []. by rewrite app_nil_r.
  - unfold Stop_wait in H.
    destruct (closed (jobs p) && negb (stopped p) && (wg p =? 0)%Z); [|done].
    injection H as <-. exists []. by rewrite app_nil_r.
  - unfold runWorker_receive in H. destruct (workers p !! w) as [[]|]; try done.
    destruct (recv (jobs p) w); injection H as <-; exists []; by rewrite app_nil_r.
  - unfold processJob_begin in H. destruct (workers p !! w) as [[]|]; try done.
    destruct (Store.UpdateStatus _ _ _ _ _) as [[s e]| |]; try done.
    injection H as <-. eauto.
  - destruct (executor_done_fields _ _ _ _ H) as (? & ? & _ & ->).
    exists []. by rewrite app_nil_r.
  - destruct (deadline_passes_fields _ _ _ H) as (? & ? & _ & ->).
    exists []. by rewrite app_nil_r.
  - destruct (finish_fields _ _ _ _ _ H) as (? & ? & ? & ? & _ & _ & _ & Hu & _).
    eauto.
  - unfold runWorker_exit in H. destruct (workers p !! w) as [[]|]; try done.
    destruct (wg p - 1 <? 0)%Z; [done|]. injection H as <-.
    exists []. by rewrite app_nil_r.
  - unfold executor_returns in H. destruct (abandoned p !! i); [|done].
    injection H as <-. exists []. by rewrite app_nil_r.
  - injection H as <-. exists []. by rewrite app_nil_r.
  - destruct (Store.Save (store p) l) as [s| |]; try done. injection H as <-.
    exists []. by rewrite app_nil_r.
  - destruct (Store.heap (store p) !! l); [|done]. injection H as <-.
    exists []. by rewrite app_nil_r.
Qed.

Lemma updates_run acts p p' :
  run acts p = Ok p' → ∃ more, updates p' = updates p ++ more.
Proof.
  revert p. induction acts as [|a acts IH]; intros p H; simpl in H.
  - injection H as <-. exists []. by rewrite app_nil_r.
  - destruct (step a p) as [q| |] eqn:E; try done. simpl in H.
    destruct (updates_step _ _ _ E) as [m1 H1].
    destruct (IH _ H) as [m2 H2]. exists (m1 ++ m2).
    by rewrite H2, H1, app_assoc.
Qed.

Lemma writes_once p jobID :
  Inv p → count jobID (accepted p) ≤ 1 →
  writes jobID (updates p) = []
  ∨ writes jobID (updates p) = [Store.StatusRunning]
  ∨ ∃ st, Store.terminal st = true ∧
          writes jobID (updates p) = [Store.StatusRunning; st].
Proof.
  intros HI Hc. apply writes_shape.
  - intros x. apply writes_kind, (inv_kind p HI).
  - apply (inv_prefix p HI).
  - pose proof (inv_acc p HI jobID). lia.
Qed.

End Histories.

(** * The stored status and the history *)

Section Observed.
Import Worker Hist.
Local Open Scope nat_scope.

Lemma UpdateStatus_owned s jobID l j id' st msg now s' e :
  Owned jobID l s → Store.heap s !! l = Some j →
  Store.UpdateStatus s id' st msg now = Ok (s', e) →
  Owned jobID l s' ∧
  ∃ j', Store.heap s' !! l = Some j' ∧
        Store.JobStatus j' = if decide (id' = jobID) then st else Store.JobStatus j.
Proof.
  intros [Hk Ho Hi] Hj H. unfold Store.UpdateStatus in H.
  destruct (Store.jobs s !! id') as [l'|] eqn:Hid'.
  - destruct (Store.heap s !! l') as [x|] eqn:Hx; [|done]. injection H as <- _.
    split.
    + constructor; simpl; [done|done|].
      intros l'' y. rewrite lookup_insert. case_decide as E.
      * subst l''. intros [= <-]. simpl. intros HID. by apply (Hi l' x).
      * apply Hi.
    + simpl. destruct (decide (id' = jobID)) as [->|Hne].
      * assert (l' = l) by congruence. subst l'.
        rewrite lookup_insert_eq. eauto.
      * assert (l' ≠ l) by (intros ->; by apply Hne, Ho).
        rewrite lookup_insert_ne by done. eauto.
  - injection H as <- _. split; [done|]. exists j. split; [done|].
    destruct (decide (id' = jobID)) as [->|]; [congruence|done].
Qed.

Lemma last_snoc_default {A} (x : A) (l k : list A) :
  default (default x (last l)) (last k) = default x (last (l ++ k)).
Proof.
  destruct k as [|y k] using rev_ind.
  - by rewrite app_nil_r.
  - by rewrite app_assoc, !last_snoc.
Qed.

Lemma status_step a p p' jobID l j :
  Store.wf (store p) → Owned jobID l (store p) →
  Store.heap (store p) !! l = Some j →
  respects jobID l a = true →
  step a p = Ok p' →
  ∃ more j',
    updates p' = updates p ++ more ∧ Owned jobID l (store p') ∧
    Store.heap (store p') !! l = Some j' ∧
    Store.JobStatus j' = default (Store.JobStatus j) (last (writes jobID more)).
Proof.
  intros Hwf HO Hj Hres H.
  assert (Hsame : store p' = store p → updates p' = updates p →
                  ∃ more j', updates p' = updates p ++ more ∧
                    Owned jobID l (store p') ∧
                    Store.heap (store p') !! l = Some j' ∧
                    Store.JobStatus j'
                    = default (Store.JobStatus j) (last (writes jobID more))).
  { intros -> ->. exists [], j. by rewrite app_nil_r. }
  destruct a; simpl in H.
  - destruct (Submit p jobID0) as [[b q]| |] eqn:E; try done.
    simpl in H. injection H as <-.
    destruct (Submit_store _ _ _ _ E). by apply Hsame.
  - unfold Stop_close in H. destruct (close (jobs p)) as [[c q]| |]; try done.
    injection H as <-. by apply Hsame.
  - unfold Stop_wait in H.
    destruct (closed (jobs p) && negb (stopped p) && (wg p =? 0)%Z); [|done].
    injection H as <-. by apply Hsame.
  - unfold runWorker_receive in H. destruct (workers p !! w) as [[]|]; try done.
    destruct (recv (jobs p) w); injection H as <-; by apply Hsame.
  - unfold processJob_begin in H.
    destruct (workers p !! w) as [[| | |id'| |]|]; try done.
    destruct (Store.UpdateStatus _ _ _ _ _) as [[s e]| |] eqn:HU; try done.
    injection H as <-. simpl.
    destruct (UpdateStatus_owned _ _ _ _ _ _ _ _ _ _ HO Hj HU) as (HO' & j' & Hj' & Hs).
    exists [(w, id', Store.StatusRunning)], j'. split; [done|]. split; [done|].
    split; [done|]. rewrite Hs. unfold writes. rewrite filter_cons. simpl.
    by destruct (decide (id' = jobID)).
  - destruct (executor_done_fields _ _ _ _ H) as (? & ? & _ & ->). by apply Hsame.
  - destruct (deadline_passes_fields _ _ _ H) as (? & ? & _ & ->). by apply Hsame.
  - assert (Hc : ∀ id' v q, conclude p w id' v now = Ok q →
        ∃ j', updates q = updates p ++ [(w, id', v.1)] ∧ Owned jobID l (store q) ∧
              Store.heap (store q) !! l = Some j' ∧
              Store.JobStatus j'
              = default (Store.JobStatus j) (last (writes jobID [(w, id', v.1)]))).
    { intros id' v q HQ. unfold conclude in HQ.
      destruct (Store.UpdateStatus _ _ _ _ _) as [[s e]| |] eqn:HU; try done.
      simpl in HQ. injection HQ as <-. simpl.
      destruct (UpdateStatus_owned _ _ _ _ _ _ _ _ _ _ HO Hj HU)
        as (HO' & j' & Hj' & Hs).
      exists j'. split; [done|]. split; [done|]. split; [done|].
      rewrite Hs. unfold writes. rewrite filter_cons. simpl.
      by destruct (decide (id' = jobID)). }
    unfold processJob_finish in H.
    destruct (workers p !! w) as [[| | | |id' d e|]|]; try done.
    destruct c, d as [r|], e; simpl in H; try done.
    + destruct (Hc _ _ _ H) as (j' & ?). eauto.
    + destruct (Hc _ _ _ H) as (j' & ?). eauto.
    + destruct (conclude p w id' _ now) as [q| |] eqn:E; try done.
      simpl in H. injection H as <-. destruct (Hc _ _ _ E) as (j' & ?). eauto.
    + destruct (conclude p w id' _ now) as [q| |] eqn:E; try done.
      simpl in H. injection H as <-. destruct (Hc _ _ _ E) as (j' & ?). eauto.
  - unfold runWorker_exit in H. destruct (workers p !! w) as [[]|]; try done.
    destruct (wg p - 1 <? 0)%Z; [done|]. injection H as <-. by apply Hsame.
  - unfold executor_returns in H. destruct (abandoned p !! i); [|done].
    injection H as <-. by apply Hsame.
  - injection H as <-. simpl in Hres. apply negb_true_iff, bool_decide_eq_false in Hres.
    exists [], j. rewrite app_nil_r. split; [done|].
    destruct HO as [Hk Ho Hi].
    assert (Hfr : fresh (dom (Store.heap (store p))) ≠ l).
    { intros E. pose proof (fresh_loc_unused (Store.heap (store p))) as Hf.
      rewrite E in Hf. congruence. }
    unfold Store.declare, Store.alloc. simpl. split; [|split; [|done]].
    + constructor; simpl; [done|done|].
      intros l' y. rewrite lookup_insert. case_decide.
      * intros [= <-]. done.
      * apply Hi.
    + by rewrite lookup_insert_ne.
  - simpl in Hres. apply negb_true_iff, bool_decide_eq_false in Hres.
    unfold Store.Save in H.
    destruct (Store.heap (store p) !! l0) as [x|] eqn:Hx; [|done].
    simpl in H. injection H as <-. exists [], j. rewrite app_nil_r.
    split; [done|]. simpl. split; [|done].
    destruct HO as [Hk Ho Hi].
    assert (Hne : Store.ID x ≠ jobID) by (intros E; by apply Hres, (Hi l0 x)).
    constructor; simpl.
    + by rewrite lookup_insert_ne.
    + intros id'. rewrite lookup_insert. case_decide; [congruence|apply Ho].
    + done.
  - simpl in Hres. apply andb_true_iff in Hres as [H1 H2].
    apply negb_true_iff, bool_decide_eq_false in H1.
    apply negb_true_iff, bool_decide_eq_false in H2.
    destruct (Store.heap (store p) !! l0) as [x|] eqn:Hx; [|done].
    injection H as <-. exists [], j. rewrite app_nil_r. split; [done|]. simpl.
    destruct HO as [Hk Ho Hi]. split; [|split; [|done]].
    + constructor; simpl; [done|done|].
      intros l' y. rewrite lookup_insert. case_decide.
      * intros [= <-]. done.
      * apply Hi.
    + by rewrite lookup_insert_ne.
Qed.

(** While the callers leave a record alone, its status is the last one a
    worker wrote for its identifier, or the one it had if none did. *)
Lemma stored_status_follows_writes jobID l acts : ∀ p p' j,
  Inv p → Owned jobID l (store p) →
  Store.heap (store p) !! l = Some j →
  Forall (λ a, respects jobID l a = true) acts →
  run acts p = Ok p' →
  ∃ more j',
    updates p' = updates p ++ more ∧ Owned jobID l (store p') ∧
    Store.Get (store p') jobID = Ok (j', None) ∧
    Store.JobStatus j' = default (Store.JobStatus j) (last (writes jobID more)).
Proof.
  induction acts as [|a acts IH]; intros p p' j HI HO Hj Hall H; simpl in H.
  - injection H as <-. exists [], j. rewrite app_nil_r. split; [done|].
    split; [done|]. split; [|done].
    unfold Store.Get. by rewrite (owned_key _ _ _ HO), Hj.
  - destruct (step a p) as [q| |] eqn:E; try done. simpl in H.
    apply Forall_cons in Hall as [Ha Hall].
    destruct (status_step a p q jobID l j (inv_wf p HI) HO Hj Ha E)
      as (m1 & j1 & Hu1 & HO1 & Hj1 & Hs1).
    destruct (IH q p' j1 (Inv_step a p q HI E) HO1 Hj1 Hall H)
      as (m2 & j2 & Hu2 & HO2 & HG2 & Hs2).
    exists (m1 ++ m2), j2. split; [by rewrite Hu2, Hu1, app_assoc|].
    split; [done|]. split; [done|].
    by rewrite Hs2, Hs1, writes_app, last_snoc_default.
Qed.

End Observed.

(** C2, as the code has it. In every reachable state: each write of a
    worker is [running] or a terminal status, never [queued]; the writes
    of each worker read as a sequence of jobs, [running] for an identifier
    followed by one terminal status for the same identifier, the last job
    being open exactly when the worker is at its select; for an identifier
    accepted by [Submit] at most once the writes are, in order, [running]
    and then one terminal status, after which no run of the pool in which
    the identifier is still accepted at most once adds a write for it; and
    the record of such an identifier, while the callers leave it alone,
    shows the status it had, then [running], then that terminal status. *)
Theorem worker_writes_are_monotonic (p : Worker.Pool) :
  Worker.reachable p →
  (∀ u, u ∈ Worker.updates p →
        u.2 = Store.StatusRunning ∨ Store.terminal u.2 = true)
  ∧ (∀ w, Hist.read_log (Hist.wlog w (Worker.updates p))
          = Some (Hist.open_job (Worker.workers p !! w)))
  ∧ (∀ jobID, (Hist.count jobID (Worker.accepted p) ≤ 1)%nat →
       (Hist.writes jobID (Worker.updates p) = []
        ∨ Hist.writes jobID (Worker.updates p) = [Store.StatusRunning]
        ∨ ∃ st, Store.terminal st = true ∧
                Hist.writes jobID (Worker.updates p) = [Store.StatusRunning; st])
       ∧ ∀ st acts p',
           Hist.writes jobID (Worker.updates p) = [Store.StatusRunning; st] →
           Worker.run acts p = Ok p' →
           (Hist.count jobID (Worker.accepted p') ≤ 1)%nat →
           Hist.writes jobID (Worker.updates p') = [Store.StatusRunning; st])
  ∧ (∀ jobID l j acts p',
       Hist.Owned jobID l (Worker.store p) →
       Store.heap (Worker.store p) !! l = Some j →
       Hist.writes jobID (Worker.updates p) = [] →
       Forall (λ a, Hist.respects jobID l a = true) acts →
       Worker.run acts p = Ok p' →
       (Hist.count jobID (Worker.accepted p') ≤ 1)%nat →
       ∃ j', Store.Get (Worker.store p') jobID = Ok (j', None) ∧
             Hist.follows (Store.JobStatus j)
               (Hist.writes jobID (Worker.updates p')) (Store.JobStatus j')).
Proof.
  intros Hr. pose proof (Inv_reachable p Hr) as HI.
  split; [apply (Hist.inv_kind p HI)|]. split; [apply (Hist.inv_log p HI)|].
  split.
  - intros jobID Hc. split; [by apply writes_once|].
    intros st acts p' HL Hrun Hc'.
    pose proof (Inv_reachable p' (reachable_run acts p p' Hr Hrun)) as HI'.
    destruct (updates_run _ _ _ Hrun) as [more Hm].
    pose proof (writes_once p' jobID HI' Hc') as Hs.
    rewrite Hm, writes_app, HL in Hs |- *.
    destruct Hs as [Hs|[Hs|(st' & _ & Hs)]]; try done.
    simpl in Hs. injection Hs as _ Hs.
    destruct (Hist.writes jobID more); [done|]. simpl in Hs. done.
  - intros jobID l j acts p' HO Hj HL Hall Hrun Hc'.
    pose proof (Inv_reachable p' (reachable_run acts p p' Hr Hrun)) as HI'.
    destruct (stored_status_follows_writes jobID l acts p p' j HI HO Hj Hall Hrun)
      as (more & j' & Hm & _ & HG & Hs).
    exists j'. split; [exact HG|].
    pose proof (writes_once p' jobID HI' Hc') as Hw.
    rewrite Hm, writes_app, HL in Hw |- *. simpl in Hw |- *. rewrite Hs.
    destruct Hw as [->|[->|(t & Ht & ->)]].
    + by left.
    + right. by left.
    + right. right. by exists t.
Qed.

Lemma demoStore_owned : Hist.Owned "c" 1%positive demoStore.
Proof.
  constructor.
  - reflexivity.
  - intros id'. unfold demoStore, Store.SaveNew, Store.alloc. simpl.
    rewrite lookup_insert. case_decide; [done|]. by rewrite lookup_empty.
  - intros l' j. unfold demoStore, Store.SaveNew, Store.alloc. simpl.
    rewrite lookup_insert. case_decide; [done|]. by rewrite lookup_empty.
Qed.

Lemma worker_writes_are_monotonic_witness :
  (Hist.writes "c" (Worker.updates racingPool) = []
   ∨ Hist.writes "c" (Worker.updates racingPool) = [Store.StatusRunning]
   ∨ ∃ st, Store.terminal st = true ∧
           Hist.writes "c" (Worker.updates racingPool) = [Store.StatusRunning; st])
  ∧ ∃ p' j',
      Worker.run [Worker.ABegin 0 8; Worker.AExecutorDone 0 None;
                  Worker.AFinish 0 Worker.CaseDone 9] gotPool = Ok p' ∧
      Store.Get (Worker.store p') "c" = Ok (j', None) ∧
      Hist.follows Store.StatusQueued
        (Hist.writes "c" (Worker.updates p')) (Store.JobStatus j').
Proof.
  split.
  - refine (proj1 (proj1 (proj2 (proj2 (worker_writes_are_monotonic racingPool
                                          racingPool_reachable))) "c" _)).
    vm_compute. lia.
  - eexists. 
    destruct (proj2 (proj2 (proj2 (worker_writes_are_monotonic gotPool
                                     gotPool_reachable)))
                "c" 1%positive demoJob
                [Worker.ABegin 0 8; Worker.AExecutorDone 0 None;
                 Worker.AFinish 0 Worker.CaseDone 9] _
                demoStore_owned eq_refl eq_refl
                ltac:(repeat constructor) ltac:(vm_compute; reflexivity)
                ltac:(vm_compute; lia))
      as (j' & HG & HF).
    exists j'. split; [vm_compute; reflexivity|]. split; [exact HG|exact HF].
Defined.

(** C2, as the specification states it, does not hold: an identifier
    submitted twice is taken from [completed] back to [running] by the
    worker that receives it the second time. *)
Lemma resubmitted_job_leaves_terminal_state :
  ∃ p0 p p' j j',
    Worker.NewPool demoStore (Worker.mkConfig 1 2 (5 * Worker.Second)) = Ok p0 ∧
    Worker.run [Worker.ASubmit "c"; Worker.ASubmit "c"; Worker.AReceive 0;
                Worker.ABegin 0 1; Worker.AExecutorDone 0 None;
                Worker.AFinish 0 Worker.CaseDone 2;
                Worker.AReceive 0] p0 = Ok p ∧
    Store.Get (Worker.store p) "c" = Ok (j, None) ∧
    Store.JobStatus j = Store.StatusCompleted ∧
    Worker.processJob_begin p 0 3 = Ok p' ∧
    Store.Get (Worker.store p') "c" = Ok (j', None) ∧
    Store.JobStatus j' = Store.StatusRunning ∧
    Hist.writes "c" (Worker.updates p')
    = [Store.StatusRunning; Store.StatusCompleted; Store.StatusRunning].
Proof.
  eexists _, _, _, _, _.
  split; [reflexivity|]. split; [vm_compute; reflexivity|].
  split; [vm_compute; reflexivity|]. split; [reflexivity|].
  split; [vm_compute; reflexivity|]. split; [vm_compute; reflexivity|].
  split; reflexivity.
Qed.

(** * Stop *)

Section Shutdown.
Import Worker Hist.
Local Open Scope nat_scope.

Lemma workers_length_step a p p' :
  step a p = Ok p' → length (workers p') = length (workers p).
Proof.
  intros H. destruct a; simpl in H.
  - unfold Submit in H.
    destruct (trySend (jobs p) jobID) as [[[c [w|]]|]| |]; simpl in H; try done;
      injection H as <-; simpl; by rewrite ?length_insert.
  - unfold Stop_close in H. destruct (close (jobs p)) as [[c q]| |]; try done.
    injection H as <-. simpl. apply wake_length.
  - unfold Stop_wait in H.
    destruct (closed (jobs p) && negb (stopped p) && (wg p =? 0)%Z); [|done].
    by injection H as <-.
  - unfold runWorker_receive in H. destruct (workers p !! w) as [[]|]; try done.
    destruct (recv (jobs p) w); injection H as <-; simpl; by rewrite length_insert.
  - unfold processJob_begin in H. destruct (workers p !! w) as [[]|]; try done.
    destruct (Store.UpdateStatus _ _ _ _ _) as [[s e]| |]; try done.
    injection H as <-. simpl. by rewrite length_insert.
  - destruct (executor_done_fields _ _ _ _ H) as (? & ? & _ & ->).
    simpl. by rewrite length_insert.
  - destruct (deadline_passes_fields _ _ _ H) as (? & ? & _ & ->).
    simpl. by rewrite length_insert.
  - destruct (finish_fields _ _ _ _ _ H) as (? & ? & ? & ? & _ & _ & _ & _ & Hws & _).
    by rewrite Hws, length_insert.
  - unfold runWorker_exit in H. destruct (workers p !! w) as [[]|]; try done.
    destruct (wg p - 1 <? 0)%Z; [done|]. injection H as <-. simpl.
    by rewrite length_insert.
  - unfold executor_returns in H. destruct (abandoned p !! i); [|done].
    by injection H as <-.
  - by injection H as <-.
  - destruct (Store.Save (store p) l) as [s| |]; try done. by injection H as <-.
  - destruct (Store.heap (store p) !! l); [|done]. by injection H as <-.
Qed.

Lemma workers_length_run acts p p' :
  run acts p = Ok p' → length (workers p') = length (workers p).
Proof.
  revert p. induction acts as [|a acts IH]; intros p H; simpl in H.
  - by injection H as <-.
  - destruct (step a p) as [q| |] eqn:E; try done. simpl in H.
    rewrite (IH _ H). by eapply workers_length_step.
Qed.

Lemma NewPool_workers s c p :
  NewPool s c = Ok p → length (workers p) = Z.to_nat (NumWorkers c).
Proof.
  unfold NewPool, make. destruct (QueueSize c <? 0)%Z; [done|]. simpl.
  intros [= <-].
  match goal with |- context [spawn ?n ?q] =>
    destruct (spawn_fields n q) as (-> & _) end.
  simpl. by rewrite length_replicate.
Qed.

(** With the counter of the WaitGroup at zero and at least one worker,
    nothing is left to do. *)
Lemma drained p :
  Inv p → 1 ≤ length (workers p) → wg p = 0%Z →
  buf (jobs p) = [] ∧
  (∀ w st, workers p !! w = Some st → st = WExited) ∧
  ∀ jobID, count jobID (accepted p) = began (writes jobID (updates p)) ∧
           count jobID (accepted p) = ended (writes jobID (updates p)).
Proof.
  intros HI Hlen Hz. inv_open HI.
  assert (Hall : ∀ w st, workers p !! w = Some st → st = WExited).
  { intros w st Hw. assert (H0 : wsum live (workers p) = 0) by lia.
    pose proof (wsum_zero live _ _ _ H0 Hw). by destruct st. }
  assert (Hbuf : buf (jobs p) = []).
  { destruct (workers p) as [|st ws] eqn:E; [simpl in Hlen; lia|].
    apply (Hgn 0). right. simpl. f_equal. by apply (Hall 0). }
  split; [done|]. split; [done|]. intros jobID.
  assert (Hh : wsum (holds jobID) (workers p) = 0).
  { apply wsum_all_zero. intros i y Hy. by rewrite (Hall i y Hy). }
  assert (Hr : wsum (races jobID) (workers p) = 0).
  { apply wsum_all_zero. intros i y Hy. by rewrite (Hall i y Hy). }
  specialize (Hacc jobID). specialize (Hrun jobID). rewrite Hbuf in Hacc.
  unfold count in Hacc at 2. simpl in Hacc. lia.
Qed.

Lemma live_worker (ws : list WState) :
  wsum live ws ≠ 0 → ∃ w st, ws !! w = Some st ∧ st ≠ WExited.
Proof.
  induction ws as [|s ws IH]; [done|]. unfold wsum. simpl. intros H.
  destruct (decide (s = WExited)) as [->|Hs].
  - destruct IH as (w & st & Hw & Hst); [done|]. by exists (S w), st.
  - by exists 0, s.
Qed.

(** After the close, while [Stop] has not returned, either [Stop] can
    return or a goroutine of the pool can take a step. *)
Lemma shutdown_progress p :
  Inv p → closed (jobs p) = true → stopped p = false →
  (∃ p', Stop_wait p = Ok p')
  ∨ (∃ a p', engine_action a = true ∧ step a p = Ok p').
Proof.
  intros HI Hcl Hns. destruct (decide (wg p = 0%Z)) as [Hz|Hz].
  - left. unfold Stop_wait. rewrite Hcl, Hns, Hz. simpl. eauto.
  - right. inv_open HI.
    destruct (live_worker (workers p)) as (w & st & Hw & Hne); [lia|].
    pose proof (wsum_le live _ _ _ Hw) as Hle.
    destruct st as [| | |jobID|jobID d e|]; try done.
    + exists (AReceive w). simpl. unfold runWorker_receive, recv.
      rewrite Hw, Hcl. destruct (buf (jobs p)); eauto.
    + exfalso. apply Hpk in Hw. destruct Hid as [_ ?]; [|congruence].
      intros E. rewrite E in Hw. by apply elem_of_nil in Hw.
    + exists (AExit w). simpl. unfold runWorker_exit. rewrite Hw.
      replace (wg p - 1 <? 0)%Z with false
        by (symmetry; apply Z.ltb_ge; simpl in Hle; lia).
      eauto.
    + exists (ABegin w 0%Z). simpl. unfold processJob_begin. rewrite Hw.
      destruct (UpdateStatus_total (store p) jobID Store.StatusRunning "" 0%Z Hwf)
        as (s & e & ->). simpl. eauto.
    + destruct e.
      * exists (AFinish w CaseDeadline 0%Z). simpl.
        unfold processJob_finish, conclude. rewrite Hw. simpl.
        destruct (UpdateStatus_total (store p) jobID Store.StatusCancelled
                    deadlineText 0%Z Hwf) as (s & e & ->). simpl.
        destruct d; eauto.
      * exists (ADeadline w). simpl. unfold deadline_passes. rewrite Hw. eauto.
Qed.

(** After the close every step of a goroutine of the pool uses up some of
    the remaining work. *)
Lemma shutdown_step a p p' :
  closed (jobs p) = true → engine_action a = true → step a p = Ok p' →
  remaining p' < remaining p.
Proof.
  intros Hcl Ha H. unfold remaining. destruct a; try done; simpl in H.
  - unfold runWorker_receive, recv in H.
    destruct (workers p !! w) as [[]|] eqn:Hw; try done.
    destruct (buf (jobs p)) as [|v rest] eqn:Hbuf.
    + rewrite Hcl in H. injection H as <-. simpl. rewrite Hbuf.
      pose proof (wsum_insert weight _ w WWoken _ Hw). simpl in *. lia.
    + injection H as <-. simpl.
      pose proof (wsum_insert weight _ w (WGot v) _ Hw). simpl in *. lia.
  - unfold processJob_begin in H.
    destruct (workers p !! w) as [[| | |jobID| |]|] eqn:Hw; try done.
    destruct (Store.UpdateStatus _ _ _ _ _) as [[s e]| |]; try done.
    injection H as <-. simpl.
    pose proof (wsum_insert weight _ w
                  (WRacing jobID None (JobTimeout (cfg p) <=? 0)%Z) _ Hw).
    simpl in *. destruct (JobTimeout (cfg p) <=? 0)%Z; lia.
  - destruct (executor_done_fields _ _ _ _ H) as (jobID & e & Hw & ->). simpl.
    pose proof (wsum_insert weight _ w (WRacing jobID (Some err) e) _ Hw).
    simpl in *. lia.
  - destruct (deadline_passes_fields _ _ _ H) as (jobID & d & Hw & ->). simpl.
    pose proof (wsum_insert weight _ w (WRacing jobID d true) _ Hw).
    simpl in *. lia.
  - destruct (finish_fields _ _ _ _ _ H)
      as (jobID & d & e & st & Hw & -> & _ & _ & -> & Hab).
    pose proof (wsum_insert weight _ w WReady _ Hw). simpl in *.
    destruct Hab as [-> | ->]; rewrite ?length_app; simpl; lia.
  - unfold runWorker_exit in H.
    destruct (workers p !! w) as [[]|] eqn:Hw; try done.
    destruct (wg p - 1 <? 0)%Z; [done|]. injection H as <-. simpl.
    pose proof (wsum_insert weight _ w WExited _ Hw). simpl in *. lia.
  - unfold executor_returns in H.
    destruct (abandoned p !! i) eqn:Hi; [|done]. injection H as <-. simpl.
    rewrite length_delete by eauto.
    apply lookup_lt_Some in Hi. lia.
Qed.

Lemma shutdown_bounded acts : ∀ p p',
  closed (jobs p) = true →
  Forall (λ a, engine_action a = true) acts →
  run acts p = Ok p' →
  length acts + remaining p' ≤ remaining p.
Proof.
  induction acts as [|a acts IH]; intros p p' Hcl Hall H; simpl in H.
  - injection H as <-. simpl. lia.
  - destruct (step a p) as [q| |] eqn:E; try done. simpl in H.
    apply Forall_cons in Hall as [Ha Hall].
    pose proof (shutdown_step a p q Hcl Ha E).
    pose proof (IH q p' (closed_step a p q Hcl E) Hall H). simpl. lia.
Qed.

End Shutdown.

Lemma accepted_step_closed a p p' :
  Worker.closed (Worker.jobs p) = true → Worker.step a p = Ok p' →
  Worker.accepted p' = Worker.accepted p.
Proof.
  intros Hcl H. destruct a; simpl in H.
  - by rewrite Submit_closed in H.
  - by rewrite Stop_close_closed in H.
  - unfold Worker.Stop_wait in H.
    destruct (Worker.closed (Worker.jobs p) && negb (Worker.stopped p)
              && (Worker.wg p =? 0)%Z); [|done].
    by injection H as <-.
  - unfold Worker.runWorker_receive in H.
    destruct (Worker.workers p !! w) as [[]|]; try done.
    destruct (Worker.recv (Worker.jobs p) w); by injection H as <-.
  - unfold Worker.processJob_begin in H.
    destruct (Worker.workers p !! w) as [[]|]; try done.
    destruct (Store.UpdateStatus _ _ _ _ _) as [[s e]| |]; try done.
    by injection H as <-.
  - by destruct (executor_done_fields _ _ _ _ H) as (? & ? & _ & ->).
  - by destruct (deadline_passes_fields _ _ _ H) as (? & ? & _ & ->).
  - by destruct (finish_fields _ _ _ _ _ H) as (? & ? & ? & ? & _ & _ & Ha & _).
  - unfold Worker.runWorker_exit in H.
    destruct (Worker.workers p !! w) as [[]|]; try done.
    destruct (Worker.wg p - 1 <? 0)%Z; [done|]. by injection H as <-.
  - unfold Worker.executor_returns in H.
    destruct (Worker.abandoned p !! i); [|done]. by injection H as <-.
  - by injection H as <-.
  - destruct (Store.Save (Worker.store p) l) as [s| |]; try done.
    by injection H as <-.
  - destruct (Store.heap (Worker.store p) !! l); [|done]. by injection H as <-.
Qed.

Lemma accepted_run_closed acts : ∀ p p',
  Worker.closed (Worker.jobs p) = true → Worker.run acts p = Ok p' →
  Worker.accepted p' = Worker.accepted p.
Proof.
  induction acts as [|a acts IH]; intros p p' Hcl H; simpl in H.
  - by injection H as <-.
  - destruct (Worker.step a p) as [q| |] eqn:E; try done. simpl in H.
    rewrite (IH q p' (closed_step a p q Hcl E) H).
    by eapply accepted_step_closed.
Qed.

(** C4, as the code has it. Take a pool started by [NewPool] with at
    least one worker, in any state it can reach. [Stop] returns only
    when the buffer is empty, every worker has returned and every accepted
    submission has had its [running] write and its terminal write, and
    this is so in every state in which [Stop] has returned; the record of
    an identifier accepted once, if the callers left it alone since before
    the first write, then shows a terminal status. After the close no
    further submission is accepted; while [Stop] has not returned, either
    it can return or some goroutine of the pool can take a step; and the
    goroutines of the pool can take no more steps than the work that
    remained at the close. *)
Theorem Stop_returns_after_the_drain (s : Store.MemoryStore) (c : Worker.Config)
    (p0 p : Worker.Pool) (acts : list Worker.Action) :
  Store.wf s →
  (1 ≤ Worker.NumWorkers c)%Z →
  Worker.NewPool s c = Ok p0 →
  Worker.run acts p0 = Ok p →
  (∀ p', Worker.Stop_wait p = Ok p' → Hist.all_done p)
  ∧ (Worker.stopped p = true → Hist.all_done p)
  ∧ (∀ acts1 acts2 p1 jobID l j,
       acts = acts1 ++ acts2 →
       Worker.run acts1 p0 = Ok p1 →
       Hist.Owned jobID l (Worker.store p1) →
       Store.heap (Worker.store p1) !! l = Some j →
       Hist.writes jobID (Worker.updates p1) = [] →
       Forall (λ a, Hist.respects jobID l a = true) acts2 →
       Hist.count jobID (Worker.accepted p) = 1%nat →
       Worker.stopped p = true →
       ∃ j', Store.Get (Worker.store p) jobID = Ok (j', None) ∧
             Store.terminal (Store.JobStatus j') = true)
  ∧ (Worker.closed (Worker.jobs p) = true →
     (∀ acts' p', Worker.run acts' p = Ok p' →
                  Worker.accepted p' = Worker.accepted p)
     ∧ (Worker.stopped p = false →
        (∃ p', Worker.Stop_wait p = Ok p')
        ∨ (∃ a p', Worker.engine_action a = true ∧ Worker.step a p = Ok p'))
     ∧ (∀ acts' p',
          Forall (λ a, Worker.engine_action a = true) acts' →
          Worker.run acts' p = Ok p' →
          (length acts' + Hist.remaining p' ≤ Hist.remaining p)%nat)).
Proof.
  intros Hwf Hn H0 Hrun.
  assert (Hr0 : Worker.reachable p0).
  { exists p0, []. split; [|done]. left. by exists s, c. }
  pose proof (reachable_run _ _ _ Hr0 Hrun) as Hr.
  pose proof (Inv_reachable p Hr) as HI.
  assert (Hlen : (1 ≤ length (Worker.workers p))%nat).
  { rewrite (workers_length_run _ _ _ Hrun), (NewPool_workers _ _ _ H0). lia. }
  assert (Hdone : Worker.stopped p = true → Hist.all_done p).
  { intros Hs. apply drained; try done. by destruct (Hist.inv_stopped p HI Hs). }
  split; [|split; [exact Hdone|split]].
  - intros p' H. apply drained; try done. unfold Worker.Stop_wait in H.
    destruct (Worker.closed (Worker.jobs p)); [|done].
    destruct (Worker.stopped p); [done|]. simpl in H.
    destruct (Worker.wg p =? 0)%Z eqn:Hz; [|done]. by apply Z.eqb_eq.
  - intros acts1 acts2 p1 jobID l j -> H1 HO Hj HL Hall Hc Hs.
    rewrite run_app, H1 in Hrun. simpl in Hrun.
    pose proof (Inv_reachable p1 (reachable_run _ _ _ Hr0 H1)) as HI1.
    destruct (stored_status_follows_writes jobID l acts2 p1 p j HI1 HO Hj Hall Hrun)
      as (more & j' & Hm & _ & HG & Hst).
    exists j'. split; [exact HG|].
    destruct (Hdone Hs) as (_ & _ & Hcnt). destruct (Hcnt jobID) as [Hb He].
    assert (Hle : (Hist.count jobID (Worker.accepted p) ≤ 1)%nat) by lia.
    pose proof (writes_once p jobID HI Hle) as Hw.
    rewrite Hc in Hb, He.
    rewrite Hm, writes_app, HL in Hw, Hb, He. simpl in Hw, Hb, He.
    rewrite Hst.
    destruct Hw as [Hw|[Hw|(t & Ht & Hw)]]; rewrite Hw in Hb, He |- *;
      try done.
  - intros Hcl. split; [|split].
    + intros acts' p'. by apply accepted_run_closed.
    + by apply shutdown_progress.
    + intros acts' p'. by apply shutdown_bounded.
Qed.

Lemma Stop_returns_after_the_drain_witness :
  ∃ p0 p,
    Worker.NewPool demoStore (Worker.mkConfig 1 1 (5 * Worker.Second)) = Ok p0 ∧
    Worker.run [Worker.ASubmit "c"; Worker.AStop; Worker.AReceive 0;
                Worker.ABegin 0 1; Worker.AExecutorDone 0 None;
                Worker.AFinish 0 Worker.CaseDone 2;
                Worker.AReceive 0; Worker.AExit 0; Worker.AStopReturn] p0 = Ok p ∧
    Worker.stopped p = true ∧
    Hist.all_done p.
Proof.
  eexists _, _. split; [reflexivity|]. split; [vm_compute; reflexivity|].
  split; [reflexivity|].
  match goal with |- Hist.all_done ?p =>
    refine (proj1 (proj2 (Stop_returns_after_the_drain demoStore
              (Worker.mkConfig 1 1 (5 * Worker.Second)) _ p
              [Worker.ASubmit "c"; Worker.AStop; Worker.AReceive 0;
               Worker.ABegin 0 1; Worker.AExecutorDone 0 None;
                Worker.AFinish 0 Worker.CaseDone 2;
               Worker.AReceive 0; Worker.AExit 0; Worker.AStopReturn]
              demoStore_wf _ eq_refl _)) eq_refl)
  end.
  - simpl. lia.
  - vm_compute. reflexivity.
Defined.

(** C4, as the specification states it, does not hold: in a pool without
    workers [Stop] returns while an accepted identifier is still in the
    buffer, its record still [queued]. *)
Lemma Stop_without_workers_leaves_the_queue :
  ∃ p0 p j,
    Worker.NewPool demoStore (Worker.mkConfig 0 1 (5 * Worker.Second)) = Ok p0 ∧
    Worker.run [Worker.ASubmit "c"; Worker.AStop; Worker.AStopReturn] p0 = Ok p ∧
    Worker.stopped p = true ∧
    Worker.accepted p = ["c"] ∧
    Worker.buf (Worker.jobs p) = ["c"] ∧
    Worker.updates p = [] ∧
    Store.Get (Worker.store p) "c" = Ok (j, None) ∧
    Store.JobStatus j = Store.StatusQueued.
Proof.
  eexists _, _, _. split; [reflexivity|]. split; [vm_compute; reflexivity|].
  repeat split; reflexivity.
Qed.

(** * More about the store *)

Section StoreMore.
Import Store.

Lemma List_Forall2 s l :
  List s = Ok l ↔
  Forall2 (λ (kv : string * loc) j, heap s !! kv.2 = Some j)
          (map_to_list (jobs s)) l.
Proof.
  unfold List. rewrite <- mapM_Some.
  destruct (mapM _ _); split; intros H; congruence.
Qed.

Lemma List_total s : wf s → ∃ l, List s = Ok l.
Proof.
  intros Hwf.
  assert (H : is_Some (mapM (λ kv : string * loc, heap s !! kv.2)
                         (map_to_list (jobs s)))).
  { apply mapM_is_Some, Forall_forall. intros [id p] Hin.
    apply elem_of_map_to_list in Hin. simpl. by eapply Hwf. }
  destruct H as [l H]. exists l. unfold List. by rewrite H.
Qed.

Lemma List_length s l : List s = Ok l → length l = size (jobs s).
Proof.
  intros H. apply List_Forall2, Forall2_length in H.
  by rewrite <- H, length_map_to_list.
Qed.

Lemma List_elem s l j :
  List s = Ok l →
  j ∈ l ↔ ∃ id p, jobs s !! id = Some p ∧ heap s !! p = Some j.
Proof.
  intros H. apply List_Forall2 in H. split.
  - intros Hj. apply list_elem_of_lookup in Hj as [i Hi].
    destruct (Forall2_lookup_r _ _ _ _ _ H Hi) as ([id p] & Hkv & Hp).
    exists id, p. split; [|done].
    apply elem_of_map_to_list. by eapply list_elem_of_lookup_2.
  - intros (id & p & Hid & Hp). apply elem_of_map_to_list in Hid.
    apply list_elem_of_lookup in Hid as [i Hi].
    destruct (Forall2_lookup_l _ _ _ _ _ H Hi) as (j' & Hj' & Hp').
    simpl in Hp'. assert (j' = j) by congruence. subst j'.
    by eapply list_elem_of_lookup_2.
Qed.

Lemma Save_Ok s l j :
  heap s !! l = Some j → Save s l = Ok (mkStore (heap s) (<[ID j := l]> (jobs s))).
Proof. intros H. unfold Save. by rewrite H. Qed.

End StoreMore.

(** X1. [Save] then [Get]: saving a pointer to a record makes [Get] on the
    record's identifier return that record, whatever was stored under the
    identifier before; [Get] on every other identifier answers as before,
    and no object of the heap is changed. *)
Theorem Save_then_Get (s : Store.MemoryStore) (l : Store.loc) (j : Store.Job) :
  Store.heap s !! l = Some j →
  ∃ s', Store.Save s l = Ok s' ∧
        Store.Get s' (Store.ID j) = Ok (j, None) ∧
        (∀ id, id ≠ Store.ID j → Store.Get s' id = Store.Get s id) ∧
        Store.heap s' = Store.heap s.
Proof.
  intros Hl. eexists. split; [by apply Save_Ok|]. split; [|split; [|done]].
  - unfold Store.Get. simpl. by rewrite lookup_insert_eq, Hl.
  - intros id Hne. unfold Store.Get. simpl. by rewrite lookup_insert_ne.
Qed.

Lemma Save_then_Get_witness :
  Store.heap demoStore !! 1%positive = Some demoJob ∧
  ∃ s', Store.Save demoStore 1%positive = Ok s' ∧
        Store.Get s' (Store.ID demoJob) = Ok (demoJob, None) ∧
        (∀ id, id ≠ Store.ID demoJob → Store.Get s' id = Store.Get demoStore id) ∧
        Store.heap s' = Store.heap demoStore.
Proof. split; [reflexivity|]. apply (Save_then_Get demoStore 1%positive demoJob). reflexivity. Defined.

(** X2. [List] is a snapshot of the store: in a store whose pointers are
    all allocated it returns, without panicking, one record for each stored
    identifier, and a record is in the result exactly when it is the
    object some stored identifier points to. *)
Theorem List_is_a_snapshot (s : Store.MemoryStore) :
  Store.wf s →
  ∃ l, Store.List s = Ok l ∧
       length l = size (Store.jobs s) ∧
       ∀ j, j ∈ l ↔ ∃ id, Store.Get s id = Ok (j, None).
Proof.
  intros Hwf. destruct (List_total s Hwf) as [l Hl]. exists l.
  split; [done|]. split; [by apply List_length|].
  intros j. rewrite (List_elem s l j Hl). split.
  - intros (id & p & Hid & Hp). exists id. unfold Store.Get. by rewrite Hid, Hp.
  - intros [id H]. unfold Store.Get in H.
    destruct (Store.jobs s !! id) as [p|] eqn:Hid; [|done].
    destruct (Store.heap s !! p) as [x|] eqn:Hp; [|done].
    injection H as ->. eauto.
Qed.

Lemma List_is_a_snapshot_witness :
  ∃ l, Store.List demoStore = Ok l ∧
       length l = size (Store.jobs demoStore) ∧
       ∀ j, j ∈ l ↔ ∃ id, Store.Get demoStore id = Ok (j, None).
Proof. apply (List_is_a_snapshot demoStore), demoStore_wf. Defined.

(** X3. A second [Save] under a stored identifier replaces the entry: the
    number of records [List] returns grows by one when the identifier of
    the saved record is new and stays the same when it is not, and the
    saved record is among them. *)
Theorem List_after_Save (s : Store.MemoryStore) (l : Store.loc) (j : Store.Job) :
  Store.wf s →
  Store.heap s !! l = Some j →
  ∃ s' before after,
    Store.Save s l = Ok s' ∧ Store.List s = Ok before ∧
    Store.List s' = Ok after ∧ j ∈ after ∧
    length after = match Store.jobs s !! Store.ID j with
                   | Some _ => length before
                   | None => S (length before)
                   end.
Proof.
  intros Hwf Hl. pose proof (Save_Ok s l j Hl) as HS.
  destruct (List_total s Hwf) as [before Hb].
  destruct (List_total _ (wf_Save _ _ _ Hwf HS)) as [after Ha].
  eexists _, before, after. split; [exact HS|]. split; [done|]. split; [done|].
  split.
  - apply (List_elem _ _ _ Ha). exists (Store.ID j), l. simpl.
    by rewrite lookup_insert_eq.
  - rewrite (List_length _ _ Ha), (List_length _ _ Hb). simpl.
    rewrite map_size_insert. by destruct (Store.jobs s !! Store.ID j).
Qed.

Lemma List_after_Save_witness :
  ∃ s' before after,
    Store.Save demoStore 1%positive = Ok s' ∧ Store.List demoStore = Ok before ∧
    Store.List s' = Ok after ∧ demoJob ∈ after ∧
    length after = match Store.jobs demoStore !! Store.ID demoJob with
                   | Some _ => length before
                   | None => S (length before)
                   end.
Proof.
  apply (List_after_Save demoStore 1%positive demoJob);
    [apply demoStore_wf | reflexivity].
Defined.

(** X4. Two [UpdateStatus] calls in a row on one identifier leave the
    store as the second call alone would: nothing of the earlier status,
    error text or time remains, and the answer is the second call's. *)
Theorem UpdateStatus_last_wins (s : Store.MemoryStore) (id : string)
    (st1 st2 : Store.Status) (msg1 msg2 : string) (t1 t2 : Store.Time) :
  rbind (Store.UpdateStatus s id st1 msg1 t1)
        (λ r, Store.UpdateStatus r.1 id st2 msg2 t2)
  = Store.UpdateStatus s id st2 msg2 t2.
Proof.
  unfold Store.UpdateStatus.
  destruct (Store.jobs s !! id) as [p|] eqn:Hid; simpl; [|by rewrite Hid].
  destruct (Store.heap s !! p) as [j|] eqn:Hp; simpl; [|done].
  by rewrite Hid, lookup_insert_eq, insert_insert_eq.
Qed.

(** * The queue *)

Section Queue.
Import Worker Hist.
Local Open Scope nat_scope.

Lemma step_cap a p p' : step a p = Ok p' → cap (jobs p') = cap (jobs p).
Proof.
  intros H. destruct a; simpl in H.
  - unfold Submit, trySend in H. destruct (closed (jobs p)); [done|].
    destruct (recvq (jobs p)) as [|w q]; simpl in H.
    + destruct (length (buf (jobs p)) <? cap (jobs p)); simpl in H;
        by injection H as <-.
    + by injection H as <-.
  - unfold Stop_close, close in H. destruct (closed (jobs p)); [done|].
    by injection H as <-.
  - unfold Stop_wait in H.
    destruct (closed (jobs p) && negb (stopped p) && (wg p =? 0)%Z); [|done].
    by injection H as <-.
  - unfold runWorker_receive, recv in H.
    destruct (workers p !! w) as [[]|]; try done.
    destruct (buf (jobs p)); [destruct (closed (jobs p))|]; by injection H as <-.
  - unfold processJob_begin in H. destruct (workers p !! w) as [[]|]; try done.
    destruct (Store.UpdateStatus _ _ _ _ _) as [[s e]| |]; try done.
    by injection H as <-.
  - by destruct (executor_done_fields _ _ _ _ H) as (? & ? & _ & ->).
  - by destruct (deadline_passes_fields _ _ _ H) as (? & ? & _ & ->).
  - destruct (finish_fields _ _ _ _ _ H) as (? & ? & ? & ? & _ & Hj & _).
    by rewrite Hj.
  - unfold runWorker_exit in H. destruct (workers p !! w) as [[]|]; try done.
    destruct (wg p - 1 <? 0)%Z; [done|]. by injection H as <-.
  - unfold executor_returns in H. destruct (abandoned p !! i); [|done].
    by injection H as <-.
  - by injection H as <-.
  - destruct (Store.Save (store p) l) as [s| |]; try done. by injection H as <-.
  - destruct (Store.heap (store p) !! l); [|done]. by injection H as <-.
Qed.

Local Ltac quiet_worker w :=
  right; eexists w, _, _;
  split; [eassumption|split; [reflexivity|split; [|reflexivity]]]; reflexivity.

Lemma step_effect a p p' : step a p = Ok p' → Effect p p'.
Proof.
  intros H. destruct a; simpl in H.
  - unfold Submit, trySend in H. destruct (closed (jobs p)) eqn:Hcl; [done|].
    destruct (recvq (jobs p)) as [|w q] eqn:Hq; simpl in H.
    + destruct (length (buf (jobs p)) <? cap (jobs p)) eqn:Hlt; simpl in H;
        injection H as <-.
      * apply Nat.ltb_lt in Hlt. by apply (EQueued _ _ jobID).
      * apply EQuiet; auto.
    + injection H as <-. by apply (EHanded _ _ jobID w q).
  - unfold Stop_close, close in H. destruct (closed (jobs p)) eqn:Hcl; [done|].
    injection H as <-. by apply EClose.
  - unfold Stop_wait in H.
    destruct (closed (jobs p) && negb (stopped p) && (wg p =? 0)%Z); [|done].
    injection H as <-. apply EQuiet; auto.
  - unfold runWorker_receive, recv in H.
    destruct (workers p !! w) as [[]|] eqn:Hw; try done.
    destruct (buf (jobs p)) as [|v rest] eqn:Hb.
    + destruct (closed (jobs p)); injection H as <-; apply EQuiet; simpl;
        rewrite ?Hb; try done; quiet_worker w.
    + injection H as <-. by apply (EReceived _ _ w v).
  - unfold processJob_begin in H.
    destruct (workers p !! w) as [[| | |jobID| |]|] eqn:Hw; try done.
    destruct (Store.UpdateStatus _ _ _ _ _) as [[s e]| |]; try done.
    injection H as <-. by eapply (EBegun _ _ w jobID).
  - destruct (executor_done_fields _ _ _ _ H) as (jobID & e & Hw & ->).
    apply EQuiet; try done. quiet_worker w.
  - destruct (deadline_passes_fields _ _ _ H) as (jobID & d & Hw & ->).
    apply EQuiet; try done. quiet_worker w.
  - unfold processJob_finish in H.
    destruct (workers p !! w) as [[| | | |jobID d e|]|] eqn:Hw; try done.
    destruct c; simpl in H.
    + destruct d as [err|]; [|by destruct e].
      assert (H' : conclude p w jobID (verdict err) now = Ok p')
        by (by destruct e).
      clear H. rename H' into H.
      destruct (conclude_fields _ _ _ _ _ _ H) as (Hj & Ha & Hu & Hws & _).
      apply (EFinished _ _ w jobID (Some err) e (verdict err).1);
        try done; [apply verdict_terminal|by rewrite Hj].
    + destruct e; [|by destruct d].
      destruct (conclude p w jobID _ now) as [q| |] eqn:E;
        [|by destruct d|by destruct d].
      destruct (conclude_fields _ _ _ _ _ _ E) as (Hj & Ha & Hu & Hws & _).
      assert (H' : jobs p' = jobs q ∧ accepted p' = accepted q ∧
                   updates p' = updates q ∧ workers p' = workers q).
      { destruct d; simpl in H; by injection H as <-. }
      destruct H' as (Hj' & Ha' & Hu' & Hws'). simpl in Hu.
      apply (EFinished _ _ w jobID d true Store.StatusCancelled);
        try done; congruence.
  - unfold runWorker_exit in H.
    destruct (workers p !! w) as [[]|] eqn:Hw; try done.
    destruct (wg p - 1 <? 0)%Z; [done|]. injection H as <-.
    apply EQuiet; try done. quiet_worker w.
  - unfold executor_returns in H. destruct (abandoned p !! i); [|done].
    injection H as <-. apply EQuiet; auto.
  - injection H as <-. apply EQuiet; auto.
  - destruct (Store.Save (store p) l) as [s| |]; try done. injection H as <-.
    apply EQuiet; auto.
  - destruct (Store.heap (store p) !! l); [|done]. injection H as <-.
    apply EQuiet; auto.
Qed.

Lemma queue_step a p p' :
  Inv p → step a p = Ok p' →
  length (buf (jobs p)) ≤ cap (jobs p) ∧ (∃ pre, accepted p = pre ++ buf (jobs p)) →
  length (buf (jobs p')) ≤ cap (jobs p') ∧ (∃ pre, accepted p' = pre ++ buf (jobs p')).
Proof.
  intros HI H [Hle [pre Hpre]]. rewrite (step_cap _ _ _ H).
  destruct (step_effect _ _ _ H)
    as [Hb Ha _ _|_ Hb Ha _ _|jobID _ _ Hlt Hb Ha _ _|jobID w q _ Hq Hb Ha _ _
       |w jobID _ Hb Ha _ _|w jobID e _ Hb Ha _ _|w jobID d e st _ _ Hb Ha _ _];
    rewrite ?Hb, ?Ha.
  - eauto.
  - eauto.
  - rewrite length_app. simpl. split; [lia|].
    exists pre. by rewrite Hpre, app_assoc.
  - split; [done|]. destruct (inv_idle p HI) as [Hnil _]; [by rewrite Hq|].
    rewrite Hnil in Hpre |- *. exists (pre ++ [jobID]).
    by rewrite Hpre, !app_nil_r.
  - rewrite Hb in Hle, Hpre. simpl in Hle. split; [lia|].
    exists (pre ++ [jobID]). by rewrite Hpre, <- app_assoc.
  - eauto.
  - eauto.
Qed.

Lemma queue_run acts : ∀ p p',
  Inv p → run acts p = Ok p' →
  length (buf (jobs p)) ≤ cap (jobs p) ∧ (∃ pre, accepted p = pre ++ buf (jobs p)) →
  length (buf (jobs p')) ≤ cap (jobs p') ∧ (∃ pre, accepted p' = pre ++ buf (jobs p')).
Proof.
  induction acts as [|a acts IH]; intros p p' HI H Hq; simpl in H.
  - by injection H as <-.
  - destruct (step a p) as [q| |] eqn:E; try done. simpl in H.
    apply (IH q p' (Inv_step _ _ _ HI E) H). by eapply queue_step.
Qed.

Lemma cap_run acts : ∀ p p', run acts p = Ok p' → cap (jobs p') = cap (jobs p).
Proof.
  induction acts as [|a acts IH]; intros p p' H; simpl in H.
  - by injection H as <-.
  - destruct (step a p) as [q| |] eqn:E; try done. simpl in H.
    by rewrite (IH _ _ H), (step_cap _ _ _ E).
Qed.

(** The pool [NewPool] returns. *)
Lemma NewPool_fields s c p :
  NewPool s c = Ok p →
  (0 ≤ QueueSize c)%Z ∧
  jobs p = mkChan [] (Z.to_nat (QueueSize c)) false [] ∧
  workers p = replicate (Z.to_nat (NumWorkers c)) WReady ∧
  wg p = Z.of_nat (Z.to_nat (NumWorkers c)) ∧
  store p = s ∧ cfg p = c ∧ abandoned p = [] ∧ stopped p = false ∧
  accepted p = [] ∧ updates p = [].
Proof.
  unfold NewPool, make. destruct (QueueSize c <? 0)%Z eqn:Hq; [done|].
  apply Z.ltb_ge in Hq. simpl. intros [= <-].
  match goal with |- context [spawn ?n ?q] =>
    destruct (spawn_fields n q) as (-> & -> & -> & -> & -> & -> & -> & -> & ->)
  end.
  simpl. done.
Qed.

End Queue.

(** X5. The queue is bounded and first in, first out. In every state of
    a pool made by [NewPool] the channel holds at most [QueueSize]
    identifiers, and they are the most recently accepted ones, in the
    order in which [Submit] accepted them. *)
Theorem queue_is_bounded_and_in_order (s : Store.MemoryStore) (c : Worker.Config)
    (p0 p : Worker.Pool) (acts : list Worker.Action) :
  Store.wf s →
  Worker.NewPool s c = Ok p0 →
  Worker.run acts p0 = Ok p →
  (Z.of_nat (length (Worker.buf (Worker.jobs p))) ≤ Worker.QueueSize c)%Z
  ∧ ∃ earlier, Worker.accepted p = earlier ++ Worker.buf (Worker.jobs p).
Proof.
  intros Hwf H0 Hrun.
  assert (HI : Hist.Inv p0) by (apply Inv_started; left; eauto).
  destruct (NewPool_fields _ _ _ H0) as (Hq & Hj & _ & _ & _ & _ & _ & _ & Ha & _).
  destruct (queue_run acts p0 p HI Hrun) as [Hle Hpre].
  { rewrite Hj, Ha. simpl. split; [lia|]. by exists []. }
  rewrite (cap_run _ _ _ Hrun), Hj in Hle. simpl in Hle. split; [lia|done].
Qed.

Lemma queue_is_bounded_and_in_order_witness :
  ∃ p0 p,
    Worker.NewPool demoStore (Worker.mkConfig 1 2 (5 * Worker.Second)) = Ok p0 ∧
    Worker.run [Worker.ASubmit "a"; Worker.ASubmit "b"; Worker.ASubmit "c";
                Worker.AReceive 0; Worker.ASubmit "d"] p0 = Ok p ∧
    Worker.accepted p = ["a"; "b"; "d"] ∧
    (Z.of_nat (length (Worker.buf (Worker.jobs p))) ≤ 2)%Z
    ∧ ∃ earlier, Worker.accepted p = earlier ++ Worker.buf (Worker.jobs p).
Proof.
  eexists _, _. split; [reflexivity|]. split; [vm_compute; reflexivity|].
  split; [reflexivity|].
  match goal with |- context [Worker.jobs ?p] =>
    apply (queue_is_bounded_and_in_order demoStore
             (Worker.mkConfig 1 2 (5 * Worker.Second)) _ p
             [Worker.ASubmit "a"; Worker.ASubmit "b"; Worker.ASubmit "c";
              Worker.AReceive 0; Worker.ASubmit "d"] demoStore_wf eq_refl)
  end.
  vm_compute. reflexivity.
Defined.

(** * The order in which one worker starts the jobs *)

Section Order.
Import Worker Hist.
Local Open Scope nat_scope.

Lemma started_ids_running us w jobID :
  started_ids (us ++ [(w, jobID, Store.StatusRunning)]) = started_ids us ++ [jobID].
Proof.
  unfold started_ids. rewrite filter_app, fmap_app.
  rewrite filter_cons_True by done. done.
Qed.

Lemma started_ids_terminal us w jobID st :
  Store.terminal st = true →
  started_ids (us ++ [(w, jobID, st)]) = started_ids us.
Proof.
  intros Ht. unfold started_ids. rewrite filter_app, fmap_app.
  rewrite filter_cons_False by (simpl; by apply terminal_not_running).
  simpl. by rewrite app_nil_r.
Qed.

Lemma one_worker (ws : list WState) w s :
  length ws ≤ 1 → ws !! w = Some s → ws = [s] ∧ w = 0.
Proof.
  intros Hlen Hw. destruct ws as [|x [|y ws]]; simpl in Hlen; [done| |lia].
  destruct w as [|w]; [|done]. by injection Hw as ->.
Qed.

Lemma in_hand_insert (ws : list WState) w s s' :
  ws !! w = Some s → held s = [] → held s' = [] →
  in_hand (<[w := s']> ws) = in_hand ws.
Proof.
  unfold in_hand. revert w. induction ws as [|x ws IH]; intros [|w] Hw Hs Hs';
    try done.
  - injection Hw as ->.
    change (<[0 := s']> (s :: ws)) with (s' :: ws).
    by rewrite !bind_cons, Hs, Hs'.
  - change (<[S w := s']> (x :: ws)) with (x :: <[w := s']> ws).
    rewrite !bind_cons. f_equal. by apply IH.
Qed.

Lemma in_hand_wake q ws :
  (∀ v, v ∈ q → ws !! v = Some WParked) → in_hand (wake q ws) = in_hand ws.
Proof.
  intros Hq. induction q as [|a q IH]; [done|].
  change (wake (a :: q) ws) with (<[a := WWoken]> (wake q ws)).
  assert (Hq' : ∀ v, v ∈ q → ws !! v = Some WParked).
  { intros v Hv. apply Hq. by right. }
  rewrite <- (IH Hq').
  assert (Ha : ws !! a = Some WParked) by (apply Hq; by left).
  pose proof (wake_lookup q ws a Hq') as Hl.
  destruct (decide (a ∈ q)).
  - by apply (in_hand_insert _ a WWoken).
  - rewrite Ha in Hl. by apply (in_hand_insert _ a WParked).
Qed.

Lemma order_step a p p' :
  Inv p → length (workers p) ≤ 1 → step a p = Ok p' →
  accepted p = started_ids (updates p) ++ in_hand (workers p) ++ buf (jobs p) →
  accepted p' = started_ids (updates p') ++ in_hand (workers p') ++ buf (jobs p').
Proof.
  intros HI Hlen H Hacc.
  destruct (step_effect _ _ _ H)
    as [Hb Ha Hu Hw|_ Hb Ha Hu Hw|jobID _ _ _ Hb Ha Hu Hw
       |jobID w q _ Hq Hb Ha Hu Hw|w jobID Hs Hb Ha Hu Hw
       |w jobID e Hs Hb Ha Hu Hw|w jobID d e st Hs Ht Hb Ha Hu Hw];
    rewrite Ha, Hu, ?Hb.
  - destruct Hw as [->|(w & s & s' & Hs & Hh & Hh' & ->)]; [done|].
    by rewrite (in_hand_insert _ _ _ _ Hs Hh Hh').
  - rewrite Hw, in_hand_wake; [done|]. intros v Hv. by apply (inv_parked p HI).
  - by rewrite Hw, Hacc, !app_assoc.
  - assert (Hp : workers p !! w = Some WParked).
    { apply (inv_parked p HI). rewrite Hq. by left. }
    destruct (one_worker _ _ _ Hlen Hp) as [Hws ->].
    destruct (inv_idle p HI) as [Hnil _]; [by rewrite Hq|].
    rewrite Hw, Hacc, Hws, Hnil. simpl. by rewrite !app_nil_r.
  - destruct (one_worker _ _ _ Hlen Hs) as [Hws ->].
    rewrite Hw, Hacc, Hws, Hb. done.
  - destruct (one_worker _ _ _ Hlen Hs) as [Hws ->].
    rewrite Hw, Hacc, Hws, started_ids_running. simpl. by rewrite <- app_assoc.
  - destruct (one_worker _ _ _ Hlen Hs) as [Hws ->].
    rewrite Hw, Hacc, Hws, started_ids_terminal by done. done.
Qed.

Lemma order_run acts : ∀ p p',
  Inv p → length (workers p) ≤ 1 → run acts p = Ok p' →
  accepted p = started_ids (updates p) ++ in_hand (workers p) ++ buf (jobs p) →
  accepted p' = started_ids (updates p') ++ in_hand (workers p') ++ buf (jobs p').
Proof.
  induction acts as [|a acts IH]; intros p p' HI Hlen H Hacc; simpl in H.
  - by injection H as <-.
  - destruct (step a p) as [q| |] eqn:E; try done. simpl in H.
    apply (IH q p' (Inv_step _ _ _ HI E)); [|done|by eapply order_step].
    by rewrite (workers_length_step _ _ _ E).
Qed.

End Order.

(** X6. A pool with a single worker starts the jobs in the order in which
    they were accepted: at every moment the accepted identifiers are, in
    order, those for which the worker wrote [running], then the one it has
    just received, then those still in the channel. *)
Theorem single_worker_starts_jobs_in_order (s : Store.MemoryStore)
    (c : Worker.Config) (p0 p : Worker.Pool) (acts : list Worker.Action) :
  Store.wf s →
  (Worker.NumWorkers c ≤ 1)%Z →
  Worker.NewPool s c = Ok p0 →
  Worker.run acts p0 = Ok p →
  Worker.accepted p =
    Hist.started_ids (Worker.updates p) ++ Hist.in_hand (Worker.workers p)
    ++ Worker.buf (Worker.jobs p)
  ∧ Hist.started_ids (Worker.updates p) `prefix_of` Worker.accepted p.
Proof.
  intros Hwf Hn H0 Hrun.
  assert (HI : Hist.Inv p0) by (apply Inv_started; left; eauto).
  destruct (NewPool_fields _ _ _ H0) as (_ & Hj & Hw & _ & _ & _ & _ & _ & Ha & Hu).
  assert (Hacc : Worker.accepted p =
    Hist.started_ids (Worker.updates p) ++ Hist.in_hand (Worker.workers p)
    ++ Worker.buf (Worker.jobs p)).
  { apply (order_run acts p0 p HI); [|done|].
    - rewrite Hw, length_replicate. lia.
    - rewrite Ha, Hu, Hj, Hw. simpl.
      destruct (Z.to_nat (Worker.NumWorkers c)) as [|[|n]] eqn:E; [done|done|lia]. }
  split; [done|]. rewrite Hacc. by eexists.
Qed.

Lemma single_worker_starts_jobs_in_order_witness :
  ∃ p0 p,
    Worker.NewPool demoStore (Worker.mkConfig 1 2 (5 * Worker.Second)) = Ok p0 ∧
    Worker.run [Worker.ASubmit "a"; Worker.ASubmit "b"; Worker.AReceive 0;
                Worker.ABegin 0 1; Worker.ASubmit "c";
                Worker.AExecutorDone 0 None; Worker.AFinish 0 Worker.CaseDone 2;
                Worker.AReceive 0] p0 = Ok p ∧
    Hist.started_ids (Worker.updates p) = ["a"] ∧
    Hist.in_hand (Worker.workers p) = ["b"] ∧
    Worker.buf (Worker.jobs p) = ["c"] ∧
    Worker.accepted p =
      Hist.started_ids (Worker.updates p) ++ Hist.in_hand (Worker.workers p)
      ++ Worker.buf (Worker.jobs p)
    ∧ Hist.started_ids (Worker.updates p) `prefix_of` Worker.accepted p.
Proof.
  eexists _, _. split; [reflexivity|]. split; [vm_compute; reflexivity|].
  split; [reflexivity|]. split; [reflexivity|]. split; [reflexivity|].
  match goal with |- context [Worker.jobs ?p] =>
    apply (single_worker_starts_jobs_in_order demoStore
             (Worker.mkConfig 1 2 (5 * Worker.Second)) _ p
             [Worker.ASubmit "a"; Worker.ASubmit "b"; Worker.AReceive 0;
              Worker.ABegin 0 1; Worker.ASubmit "c";
              Worker.AExecutorDone 0 None; Worker.AFinish 0 Worker.CaseDone 2;
              Worker.AReceive 0] demoStore_wf ltac:(simpl; lia) eq_refl)
  end.
  vm_compute. reflexivity.
Defined.

(** * Panics *)

(** X7. The goroutines of the pool never panic, and the callers can make
    the program panic in three ways only: a [Submit] after the close, a
    second [Stop], and a [Save] of a nil pointer. *)
Theorem only_misuse_panics (p : Worker.Pool) (a : Worker.Action) (msg : string) :
  Worker.reachable p →
  Worker.step a p = Panic msg →
  Worker.engine_action a = false ∧
  ((∃ jobID, a = Worker.ASubmit jobID ∧ Worker.closed (Worker.jobs p) = true ∧
             msg = "send on closed channel")
   ∨ (a = Worker.AStop ∧ Worker.closed (Worker.jobs p) = true ∧
      msg = "close of closed channel")
   ∨ (∃ l, a = Worker.ASave l ∧ Store.heap (Worker.store p) !! l = None)).
Proof.
  intros Hr H. pose proof (Inv_reachable p Hr) as HI.
  pose proof (Hist.inv_wf p HI) as Hwf.
  destruct a; simpl in H.
  - split; [done|]. left. exists jobID. split; [done|].
    unfold Worker.Submit, Worker.trySend in H.
    destruct (Worker.closed (Worker.jobs p)); [by injection H as <-|].
    destruct (Worker.recvq (Worker.jobs p)); simpl in H; [|done].
    by destruct (length _ <? _)%nat.
  - split; [done|]. right. left. split; [done|].
    unfold Worker.Stop_close, Worker.close in H.
    destruct (Worker.closed (Worker.jobs p)); [by injection H as <-|done].
  - exfalso. unfold Worker.Stop_wait in H. by destruct (_ && _ && _).
  - exfalso. unfold Worker.runWorker_receive, Worker.recv in H.
    destruct (Worker.workers p !! w) as [[]|]; try done.
    destruct (Worker.buf (Worker.jobs p)); [|done].
    by destruct (Worker.closed (Worker.jobs p)).
  - exfalso. unfold Worker.processJob_begin in H.
    destruct (Worker.workers p !! w) as [[| | |jobID| |]|]; try done.
    by destruct (UpdateStatus_total (Worker.store p) jobID Store.StatusRunning
                   "" now Hwf) as (s & e & E); rewrite E in H.
  - exfalso. unfold Worker.executor_done in H.
    by destruct (Worker.workers p !! w) as [[| | | |? [] ?|]|].
  - exfalso. unfold Worker.deadline_passes in H.
    by destruct (Worker.workers p !! w) as [[| | | |? ? []|]|].
  - exfalso. unfold Worker.processJob_finish, Worker.conclude in H.
    destruct (Worker.workers p !! w) as [[| | | |jobID d e|]|]; try done.
    destruct c.
    + destruct d as [err|]; [|by destruct e].
      destruct (UpdateStatus_total (Worker.store p) jobID
                  (Worker.verdict err).1 (Worker.verdict err).2 now Hwf)
        as (s & e' & E).
      rewrite E in H. by destruct e.
    + destruct e; [|by destruct d].
      destruct (UpdateStatus_total (Worker.store p) jobID
                  Store.StatusCancelled Worker.deadlineText now Hwf)
        as (s & e' & E).
      simpl in H. rewrite E in H. by destruct d.
  - exfalso. unfold Worker.runWorker_exit in H.
    destruct (Worker.workers p !! w) as [[]|] eqn:Hw; try done.
    destruct (Worker.wg p - 1 <? 0) eqn:Hlt; [|done]. apply Z.ltb_lt in Hlt.
    pose proof (wsum_le Hist.live _ _ _ Hw) as Hle. simpl in Hle.
    rewrite (Hist.inv_wg p HI) in Hlt. lia.
  - exfalso. unfold Worker.executor_returns in H.
    by destruct (Worker.abandoned p !! i).
  - done.
  - split; [done|]. right. right. exists l. split; [done|].
    unfold Store.Save in H. by destruct (Store.heap (Worker.store p) !! l).
  - exfalso. by destruct (Store.heap (Worker.store p) !! l).
Qed.

Lemma only_misuse_panics_witness :
  ∃ p, Worker.run [Worker.AStop] demoPool = Ok p ∧
       Worker.step (Worker.ASubmit "c") p = Panic "send on closed channel" ∧
       Worker.closed (Worker.jobs p) = true.
Proof.
  eexists. split; [vm_compute; reflexivity|]. split; [reflexivity|].
  match goal with |- Worker.closed (Worker.jobs ?p) = true =>
    destruct (only_misuse_panics p (Worker.ASubmit "c") "send on closed channel")
      as [_ [(? & _ & H & _)|[(H & _)|(? & H & _)]]]
  end.
  - apply (reachable_run [Worker.AStop] demoPool); [apply demoPool_reachable|].
    vm_compute. reflexivity.
  - reflexivity.
  - exact H.
  - discriminate H.
  - discriminate H.
Defined.

(** * What the workers leave alone *)

Section Identity.
Import Worker Hist.

Lemma same_records_refl s : same_records s s.
Proof. split; [done|]. intros l. destruct (Store.heap s !! l); eauto. Qed.

Lemma same_records_trans s1 s2 s3 :
  same_records s1 s2 → same_records s2 s3 → same_records s1 s3.
Proof.
  intros [Hj1 Hh1] [Hj2 Hh2]. split; [congruence|]. intros l.
  specialize (Hh1 l). specialize (Hh2 l).
  destruct (Store.heap s1 !! l) as [j|].
  - destruct Hh1 as (j' & E & ? & ? & ?). rewrite E in Hh2.
    destruct Hh2 as (j'' & ? & ? & ? & ?). exists j''. repeat split; congruence.
  - by rewrite Hh1 in Hh2.
Qed.

Lemma same_records_UpdateStatus s id st msg now s' e :
  Store.UpdateStatus s id st msg now = Ok (s', e) → same_records s s'.
Proof.
  unfold Store.UpdateStatus. intros H.
  destruct (Store.jobs s !! id) as [p|]; [|injection H as <- _; apply same_records_refl].
  destruct (Store.heap s !! p) as [j|] eqn:Hp; [|done]. injection H as <- _.
  split; [done|]. intros l. simpl. destruct (decide (l = p)) as [->|Hne].
  - rewrite Hp, lookup_insert_eq. eauto.
  - rewrite lookup_insert_ne by done. destruct (Store.heap s !! l); eauto.
Qed.

Lemma same_records_step a p p' :
  engine_action a = true → step a p = Ok p' → same_records (store p) (store p').
Proof.
  intros Ha H. destruct a; try done; simpl in H.
  - unfold runWorker_receive, recv in H.
    destruct (workers p !! w) as [[]|]; try done.
    destruct (buf (jobs p)); [destruct (closed (jobs p))|];
      injection H as <-; apply same_records_refl.
  - unfold processJob_begin in H. destruct (workers p !! w) as [[]|]; try done.
    destruct (Store.UpdateStatus _ _ _ _ _) as [[s e]| |] eqn:E; try done.
    injection H as <-. simpl. by eapply same_records_UpdateStatus.
  - destruct (executor_done_fields _ _ _ _ H) as (? & ? & _ & ->).
    apply same_records_refl.
  - destruct (deadline_passes_fields _ _ _ H) as (? & ? & _ & ->).
    apply same_records_refl.
  - unfold processJob_finish, conclude in H.
    destruct (workers p !! w) as [[| | | |jobID d e|]|]; try done.
    destruct c.
    + destruct d as [err|]; [|by destruct e].
      destruct (Store.UpdateStatus _ _ _ _ _) as [[s e']| |] eqn:E;
        [|by destruct e|by destruct e].
      apply same_records_UpdateStatus in E.
      assert (store p' = s) as -> by (destruct e; by injection H as <-). done.
    + destruct e; [|by destruct d]. simpl in H.
      destruct (Store.UpdateStatus _ _ _ _ _) as [[s e']| |] eqn:E;
        [|by destruct d|by destruct d].
      apply same_records_UpdateStatus in E.
      assert (store p' = s) as -> by (destruct d; by injection H as <-). done.
  - unfold runWorker_exit in H. destruct (workers p !! w) as [[]|]; try done.
    destruct (wg p - 1 <? 0); [done|]. injection H as <-. apply same_records_refl.
  - unfold executor_returns in H. destruct (abandoned p !! i); [|done].
    injection H as <-. apply same_records_refl.
Qed.

Lemma same_records_run acts : ∀ p p',
  Forall (λ a, engine_action a = true) acts → run acts p = Ok p' →
  same_records (store p) (store p').
Proof.
  induction acts as [|a acts IH]; intros p p' Hall H; simpl in H.
  - injection H as <-. apply same_records_refl.
  - destruct (step a p) as [q| |] eqn:E; try done. simpl in H.
    apply Forall_cons in Hall as [Ha Hall].
    eapply same_records_trans; [by eapply same_records_step|by apply IH].
Qed.

End Identity.

(** X8. The goroutines of the pool neither add nor remove records and
    change nothing of a record but its status, error text and update time:
    after any number of their steps [Get] finds the same identifiers as
    before, each with the identifier, task and creation time it had, and an
    identifier that was submitted without a record still has none. *)
Theorem workers_keep_the_records (p p' : Worker.Pool) (acts : list Worker.Action)
    (id : string) :
  Forall (λ a, Worker.engine_action a = true) acts →
  Worker.run acts p = Ok p' →
  match Store.Get (Worker.store p) id with
  | Ok (j, None) =>
      ∃ j', Store.Get (Worker.store p') id = Ok (j', None) ∧
            Store.ID j' = Store.ID j ∧ Store.Task j' = Store.Task j ∧
            Store.CreatedAt j' = Store.CreatedAt j
  | r => Store.Get (Worker.store p') id = r
  end.
Proof.
  intros Hall H. destruct (same_records_run acts p p' Hall H) as [Hj Hh].
  unfold Store.Get. rewrite Hj.
  destruct (Store.jobs (Worker.store p) !! id) as [l|]; [|done].
  specialize (Hh l). destruct (Store.heap (Worker.store p) !! l) as [j|].
  - destruct Hh as (j' & -> & ?). eauto.
  - by rewrite Hh.
Qed.

Lemma workers_keep_the_records_witness :
  ∃ p' j',
    Worker.run [Worker.ABegin 0 1; Worker.AExecutorDone 0 None;
                Worker.AFinish 0 Worker.CaseDone 2] gotPool = Ok p' ∧
    Store.Get (Worker.store p') "c" = Ok (j', None) ∧
    Store.JobStatus j' = Store.StatusCompleted ∧
    Store.ID j' = "c" ∧ Store.Task j' = "t" ∧ Store.CreatedAt j' = 7.
Proof.
  eexists _, _. split; [vm_compute; reflexivity|].
  match goal with |- Store.Get (Worker.store ?p') _ = _ ∧ _ =>
    pose proof (workers_keep_the_records gotPool p'
                  [Worker.ABegin 0 1; Worker.AExecutorDone 0 None;
                   Worker.AFinish 0 Worker.CaseDone 2] "c") as H
  end.
  destruct H as (j' & HG & H1 & H2 & H3).
  - repeat constructor.
  - vm_compute. reflexivity.
  - split; [reflexivity|]. split; [reflexivity|].
    injection HG as <-. exact (conj H1 (conj H2 H3)).
Defined.

(** * Stop can return *)

Section Completion.
Import Worker Hist.
Local Open Scope nat_scope.

Lemma stopped_step a p p' :
  engine_action a = true → step a p = Ok p' → stopped p' = stopped p.
Proof.
  intros Ha H. destruct a; try done; simpl in H.
  - unfold runWorker_receive, recv in H.
    destruct (workers p !! w) as [[]|]; try done.
    destruct (buf (jobs p)); [destruct (closed (jobs p))|]; by injection H as <-.
  - unfold processJob_begin in H. destruct (workers p !! w) as [[]|]; try done.
    destruct (Store.UpdateStatus _ _ _ _ _) as [[s e]| |]; try done.
    by injection H as <-.
  - by destruct (executor_done_fields _ _ _ _ H) as (? & ? & _ & ->).
  - by destruct (deadline_passes_fields _ _ _ H) as (? & ? & _ & ->).
  - unfold processJob_finish, conclude in H.
    destruct (workers p !! w) as [[| | | |jobID d e|]|]; try done.
    destruct c.
    + destruct d as [err|]; [|by destruct e].
      destruct (Store.UpdateStatus _ _ _ _ _) as [[s e']| |];
        [|by destruct e|by destruct e].
      destruct e; by injection H as <-.
    + destruct e; [|by destruct d]. simpl in H.
      destruct (Store.UpdateStatus _ _ _ _ _) as [[s e']| |];
        [|by destruct d|by destruct d].
      destruct d; by injection H as <-.
  - unfold runWorker_exit in H. destruct (workers p !! w) as [[]|]; try done.
    destruct (wg p - 1 <? 0)%Z; [done|]. by injection H as <-.
  - unfold executor_returns in H. destruct (abandoned p !! i); [|done].
    by injection H as <-.
Qed.

Lemma completion n : ∀ p,
  remaining p ≤ n → Inv p → closed (jobs p) = true → stopped p = false →
  ∃ acts p',
    Forall (λ a, engine_action a = true) acts ∧ length acts ≤ remaining p ∧
    run (acts ++ [AStopReturn]) p = Ok p' ∧ stopped p' = true.
Proof.
  induction n as [|n IH]; intros p Hn HI Hcl Hns;
    (destruct (shutdown_progress p HI Hcl Hns) as [[p' H]|(a & q & Ha & H)];
     [exists [], p'; split; [constructor|]; split; [simpl; lia|];
      split; [simpl; by rewrite H|];
      unfold Stop_wait in H; destruct (_ && _ && _); [by injection H as <-|done]
     |]);
    pose proof (shutdown_step a p q Hcl Ha H) as Hlt; [lia|].
  destruct (IH q) as (acts & p' & Hall & Hlen & Hrun & Hs).
  - lia.
  - by eapply Inv_step.
  - by eapply closed_step.
  - by rewrite (stopped_step _ _ _ Ha H).
  - exists (a :: acts), p'. split; [by constructor|]. split; [simpl; lia|].
    split; [|done]. simpl. by rewrite H.
Qed.

End Completion.

(** X9. [Stop] can always return. Once the channel is closed and while
    [Stop] has not returned, the goroutines of the pool can, in no more
    steps than the work that remains, bring the pool to a state in which
    [Stop] returns. *)
Theorem Stop_can_return (p : Worker.Pool) :
  Worker.reachable p →
  Worker.closed (Worker.jobs p) = true →
  Worker.stopped p = false →
  ∃ acts p',
    Forall (λ a, Worker.engine_action a = true) acts ∧
    (length acts ≤ Hist.remaining p)%nat ∧
    Worker.run (acts ++ [Worker.AStopReturn]) p = Ok p' ∧
    Worker.stopped p' = true.
Proof.
  intros Hr Hcl Hns.
  apply (completion (Hist.remaining p)); [lia|by apply Inv_reachable|done|done].
Qed.

Lemma Stop_can_return_witness :
  ∃ p, Worker.run [Worker.ASubmit "c"; Worker.AStop] demoPool = Ok p ∧
    ∃ acts p',
      Forall (λ a, Worker.engine_action a = true) acts ∧
      (length acts ≤ Hist.remaining p)%nat ∧
      Worker.run (acts ++ [Worker.AStopReturn]) p = Ok p' ∧
      Worker.stopped p' = true.
Proof.
  eexists. split; [vm_compute; reflexivity|].
  apply Stop_can_return; [|reflexivity|reflexivity].
  apply (reachable_run [Worker.ASubmit "c"; Worker.AStop] demoPool);
    [apply demoPool_reachable|].
  vm_compute. reflexivity.
Defined.

(** * The default task *)

(** X10. The default task sleeps between two and four seconds, chosen by
    the length of the identifier. Started with more than four seconds left
    before the deadline it returns no error, as it always does under
    [DefaultConfig] and its thirty seconds; started with less than two
    seconds left it returns the cancellation error. *)
Theorem default_task_takes_two_to_four_seconds (jobID : string)
    (remaining : Z) (tie : bool) :
  (2 * Worker.Second ≤ Worker.sleepDuration jobID ≤ 4 * Worker.Second)
  ∧ (4 * Worker.Second < remaining →
     Worker.defaultExecuteTask remaining tie jobID = None)
  ∧ (remaining < 2 * Worker.Second →
     Worker.defaultExecuteTask remaining tie jobID = Some Worker.cancelledText)
  ∧ Worker.defaultExecuteTask (Worker.JobTimeout Worker.DefaultConfig) tie jobID
    = None.
Proof.
  assert (Hs : 2 * Worker.Second ≤ Worker.sleepDuration jobID ≤ 4 * Worker.Second).
  { unfold Worker.sleepDuration, Worker.Second.
    pose proof (Nat.mod_upper_bound (String.length jobID) 3). lia. }
  assert (Hlong : ∀ r, 4 * Worker.Second < r →
                       Worker.defaultExecuteTask r tie jobID = None).
  { intros r Hr. unfold Worker.defaultExecuteTask.
    by replace (Worker.sleepDuration jobID <? r) with true
      by (symmetry; apply Z.ltb_lt; lia). }
  split; [done|]. split; [apply Hlong|]. split.
  - intros Hr. unfold Worker.defaultExecuteTask.
    replace (Worker.sleepDuration jobID <? remaining) with false
      by (symmetry; apply Z.ltb_ge; lia).
    by replace (remaining <? Worker.sleepDuration jobID) with true
      by (symmetry; apply Z.ltb_lt; lia).
  - apply Hlong. unfold Worker.DefaultConfig, Worker.Second. simpl. lia.
Qed.

(** * The handler *)

Section HandlerFacts.
Import Worker Hist Handler.
Local Open Scope nat_scope.

Variable TrimSpace : string → string.
Variable Quote : string → string.

Lemma substring_whole s : String.substring 0 (String.length s) s = s.
Proof. induction s as [|c s IH]; simpl; [done|]. by rewrite IH. Qed.

Lemma TrimPrefix_append prefix s :
  TrimPrefix (String.append prefix s) prefix = s.
Proof.
  unfold TrimPrefix, HasPrefix.
  assert (H : String.prefix prefix (String.append prefix s) = true ∧
              String.substring (String.length prefix)
                (String.length (String.append prefix s) - String.length prefix)
                (String.append prefix s) = s).
  { induction prefix as [|c prefix [IH1 IH2]]; simpl.
    - split; [by destruct s|]. rewrite Nat.sub_0_r. apply substring_whole.
    - split; [|done]. by destruct (Ascii.ascii_dec c c). }
  destruct H as [-> H]. exact H.
Qed.

Lemma CreateJob_valid p task uuid created updated now :
  TrimSpace task ≠ "" →
  let l := fresh (dom (Store.heap (store p))) in
  let j0 := newJob uuid task created updated in
  let s2 := Store.mkStore (<[l := j0]> (Store.heap (store p)))
              (<[uuid := l]> (Store.jobs (store p))) in
  CreateJob TrimSpace p (DecodeOk task) uuid created updated now =
  rbind (Submit (set_store s2 p) uuid) (λ r,
    if r.1
    then Ok ((StatusAccepted, CreateJobResponse uuid Store.StatusQueued), r.2)
    else Ok ((StatusServiceUnavailable,
              ErrorResponse "job queue is full, try later"),
             set_store
               (Store.write s2 l
                  (Store.mkJob uuid task Store.StatusFailed "queue is full"
                     created now)) r.2)).
Proof.
  intros Hne l j0 s2. unfold CreateJob.
  destruct (decide (TrimSpace task = "")) as [|_]; [done|].
  unfold Store.declare, Store.alloc, Store.Save, deref. simpl.
  fold l. rewrite lookup_insert_eq. simpl. rewrite lookup_insert_eq. simpl.
  change (Store.mkJob uuid task Store.StatusQueued "" created updated) with j0.
  change (Store.mkStore (<[l := j0]> (Store.heap (store p)))
            (<[uuid := l]> (Store.jobs (store p)))) with s2.
  destruct (Submit (set_store s2 p) uuid) as [[b q]| |] eqn:E; simpl; try done.
  destruct (Submit_store _ _ _ _ E) as [Hs _]. simpl in Hs. rewrite Hs.
  unfold s2 at 1 3. simpl. rewrite lookup_insert_eq.
  destruct b; [done|].
  unfold Store.UpdateStatus. simpl. rewrite !lookup_insert_eq. done.
Qed.

(** [CreateJob] with a well-formed body on an open channel, in full. *)
Lemma CreateJob_open p task uuid created updated now :
  TrimSpace task ≠ "" → closed (jobs p) = false →
  let l := fresh (dom (Store.heap (store p))) in
  let s2 := Store.mkStore (<[l := newJob uuid task created updated]>
                             (Store.heap (store p)))
              (<[uuid := l]> (Store.jobs (store p))) in
  ∃ resp p',
    CreateJob TrimSpace p (DecodeOk task) uuid created updated now = Ok (resp, p') ∧
    ((resp = (StatusAccepted, CreateJobResponse uuid Store.StatusQueued) ∧
      (length (buf (jobs p)) < cap (jobs p) ∨ recvq (jobs p) ≠ []) ∧
      Submit (set_store s2 p) uuid = Ok (true, p') ∧ store p' = s2)
     ∨ (resp = (StatusServiceUnavailable,
                ErrorResponse "job queue is full, try later") ∧
        cap (jobs p) ≤ length (buf (jobs p)) ∧ recvq (jobs p) = [] ∧
        p' = set_store
               (Store.write s2 l
                  (Store.mkJob uuid task Store.StatusFailed "queue is full"
                     created now)) p)).
Proof.
  intros Hne Hcl l s2.
  rewrite (CreateJob_valid p task uuid created updated now Hne).
  fold l. fold s2.
  destruct (Submit_open (set_store s2 p) uuid Hcl) as (b & q & E & Hb).
  simpl in Hb. rewrite E. simpl. destruct b.
  - eexists _, _. split; [done|]. left. split; [done|].
    split; [by apply Hb|]. split; [done|].
    by destruct (Submit_store _ _ _ _ E) as [-> _].
  - eexists _, _. split; [done|]. right. split; [done|].
    assert (Hfull : ¬ (length (buf (jobs p)) < cap (jobs p) ∨ recvq (jobs p) ≠ [])).
    { intros H. apply Hb in H. done. }
    assert (Hq : recvq (jobs p) = []).
    { destruct (recvq (jobs p)) eqn:Hq; [done|]. exfalso. apply Hfull. by right. }
    split; [lia|]. split; [done|].
    unfold Submit, trySend in E. simpl in E. rewrite Hcl, Hq in E.
    destruct (length (buf (jobs p)) <? cap (jobs p)); simpl in E; [done|].
    by injection E as <-.
Qed.

Lemma Get_fresh_frame (s : Store.MemoryStore) id uuid h :
  Store.wf s → id ≠ uuid →
  (∀ q, q ≠ fresh (dom (Store.heap s)) → h !! q = Store.heap s !! q) →
  Store.Get (Store.mkStore h (<[uuid := fresh (dom (Store.heap s))]> (Store.jobs s))) id
  = Store.Get s id.
Proof.
  intros Hwf Hne Hh. unfold Store.Get. simpl. rewrite lookup_insert_ne by done.
  destruct (Store.jobs s !! id) as [q|] eqn:Hq; [|done].
  rewrite Hh; [done|]. intros ->. destruct (Hwf _ _ Hq) as [x Hx].
  by rewrite fresh_loc_unused in Hx.
Qed.

End HandlerFacts.

(** X11. [CreateJob] with a well-formed body while the channel is open.
    With room in the queue, or a worker waiting, the answer is 202 with
    the new identifier and the status [queued], the record is stored as
    [queued] and the identifier is accepted by the pool. Otherwise the
    answer is 503, the record is stored as [failed] with the error text
    [queue is full] and the time of the update, and nothing reaches the
    pool. In both cases the records stored under other identifiers are
    as before. *)
Theorem CreateJob_answers (TrimSpace : string → string) (p : Worker.Pool)
    (task uuid : string) (created updated now : Store.Time) :
  Store.wf (Worker.store p) →
  Worker.closed (Worker.jobs p) = false →
  TrimSpace task ≠ "" →
  ∃ resp p',
    Handler.CreateJob TrimSpace p (Handler.DecodeOk task) uuid created updated now
    = Ok (resp, p') ∧
    (∀ id, id ≠ uuid →
           Store.Get (Worker.store p') id = Store.Get (Worker.store p) id) ∧
    ((resp = (Handler.StatusAccepted,
              Handler.CreateJobResponse uuid Store.StatusQueued) ∧
      (length (Worker.buf (Worker.jobs p)) < Worker.cap (Worker.jobs p)
       ∨ Worker.recvq (Worker.jobs p) ≠ [])%nat ∧
      Store.Get (Worker.store p') uuid
      = Ok (Store.mkJob uuid task Store.StatusQueued "" created updated, None) ∧
      Worker.accepted p' = Worker.accepted p ++ [uuid])
     ∨ (resp = (Handler.StatusServiceUnavailable,
                Handler.ErrorResponse "job queue is full, try later") ∧
        (Worker.cap (Worker.jobs p) ≤ length (Worker.buf (Worker.jobs p)))%nat ∧
        Worker.recvq (Worker.jobs p) = [] ∧
        Store.Get (Worker.store p') uuid
        = Ok (Store.mkJob uuid task Store.StatusFailed "queue is full" created now,
              None) ∧
        Worker.accepted p' = Worker.accepted p ∧
        Worker.jobs p' = Worker.jobs p ∧ Worker.workers p' = Worker.workers p)).
Proof.
  intros Hwf Hcl Hne.
  destruct (CreateJob_open TrimSpace p task uuid created updated now Hne Hcl)
    as (resp & p' & HC & [(-> & Hroom & HS & Hs)|(-> & Hfull & Hq & ->)]).
  - eexists _, p'. split; [exact HC|]. split.
    + intros id Hid. rewrite Hs. apply Get_fresh_frame; [done|done|].
      intros q Hq. by rewrite lookup_insert_ne.
    + left. split; [done|]. split; [done|]. split.
      * rewrite Hs. unfold Store.Get. simpl. by rewrite !lookup_insert_eq.
      * unfold Worker.Submit in HS.
        destruct (Worker.trySend _ _) as [[[c [w|]]|]| |]; simpl in HS; try done;
          by injection HS as <-.
  - eexists _, _. split; [exact HC|]. split.
    + intros id Hid. simpl. apply Get_fresh_frame; [done|done|].
      intros q Hne'. rewrite lookup_insert_ne by done. simpl.
      by rewrite lookup_insert_ne.
    + right. split; [done|]. split; [done|]. split; [done|]. split; [|done].
      unfold Store.Get. simpl. by rewrite !lookup_insert_eq.
Qed.

Lemma CreateJob_answers_witness :
  ∃ resp p',
    Handler.CreateJob (λ s, s) demoPool (Handler.DecodeOk "resize") "u1" 10 11 12
    = Ok (resp, p') ∧
    resp = (Handler.StatusAccepted,
            Handler.CreateJobResponse "u1" Store.StatusQueued) ∧
    Store.Get (Worker.store p') "c" = Store.Get (Worker.store demoPool) "c".
Proof.
  destruct (CreateJob_answers (λ s, s) demoPool "resize" "u1" 10 11 12)
    as (resp & p' & HC & Hframe & H).
  - apply demoStore_wf.
  - reflexivity.
  - discriminate.
  - exists resp, p'. split; [exact HC|]. split; [|by apply Hframe].
    destruct H as [(-> & _)|(_ & Hfull & _)]; [reflexivity|].
    exfalso. vm_compute in Hfull. lia.
Defined.

Section HandlerRuns.
Import Worker Hist Handler.
Local Open Scope nat_scope.

Variable TrimSpace : string → string.

(** The steps a call of [CreateJob] takes. *)
Lemma CreateJob_run p body uuid created updated now resp p' :
  CreateJob TrimSpace p body uuid created updated now = Ok (resp, p') →
  ∃ acts, Forall (λ a, engine_action a = false) acts ∧ length acts ≤ 4 ∧
          run acts p = Ok p'.
Proof.
  intros H. destruct body as [msg|task].
  - injection H as _ <-. exists []. split; [done|]. split; [simpl; lia|done].
  - destruct (decide (TrimSpace task = "")) as [Hb|Hne].
    + unfold CreateJob in H. destruct (decide (TrimSpace task = "")); [|done].
      injection H as _ <-. exists []. split; [done|]. split; [simpl; lia|done].
    + rewrite (CreateJob_valid TrimSpace p task uuid created updated now Hne) in H.
      set (l := fresh (dom (Store.heap (store p)))) in *.
      set (j0 := newJob uuid task created updated) in *.
      destruct (Submit _ uuid) as [[b q]| |] eqn:E; simpl in H; try done.
      assert (H3 : run [ANew j0; ASave l; ASubmit uuid] p = Ok q).
      { simpl. unfold Store.declare, Store.alloc, Store.Save. simpl.
        fold l. rewrite lookup_insert_eq. simpl.
        unfold set_store at 1. simpl. unfold set_store in E. simpl in E.
        by rewrite E. }
      destruct b; injection H as _ <-.
      * exists [ANew j0; ASave l; ASubmit uuid].
        split; [by repeat constructor|]. split; [simpl; lia|done].
      * eexists ([ANew j0; ASave l; ASubmit uuid] ++ [AWrite l _]).
        split; [by repeat constructor|]. split; [simpl; lia|].
        rewrite run_app, H3. simpl.
        destruct (Submit_store _ _ _ _ E) as [-> _]. simpl.
        rewrite lookup_insert_eq. done.
Qed.

End HandlerRuns.

(** X12. [CreateJob] after [Stop]. Once the channel is closed every
    request with a well-formed body makes the handler panic with a send on
    a closed channel; a body that does not decode, or a blank task, is
    still answered with 400 and changes nothing. *)
Theorem CreateJob_after_Stop (TrimSpace : string → string) (p : Worker.Pool)
    (body : Handler.Decoded) (uuid : string) (created updated now : Store.Time) :
  Worker.closed (Worker.jobs p) = true →
  Handler.CreateJob TrimSpace p body uuid created updated now =
  match body with
  | Handler.DecodeError msg =>
      Ok ((Handler.StatusBadRequest,
           Handler.ErrorResponse (String.append "invalid JSON: " msg)), p)
  | Handler.DecodeOk task =>
      if decide (TrimSpace task = "")
      then Ok ((Handler.StatusBadRequest,
                Handler.ErrorResponse "field 'task' is required"), p)
      else Panic "send on closed channel"
  end.
Proof.
  intros Hcl. destruct body as [msg|task]; [done|].
  destruct (decide (TrimSpace task = "")) as [Hb|Hne].
  - unfold Handler.CreateJob. by destruct (decide (TrimSpace task = "")).
  - rewrite (CreateJob_valid TrimSpace p task uuid created updated now Hne).
    by rewrite Submit_closed.
Qed.

Lemma CreateJob_after_Stop_witness :
  ∃ p, Worker.run [Worker.AStop] demoPool = Ok p ∧
       Handler.CreateJob (λ s, s) p (Handler.DecodeOk "resize") "u1" 10 11 12
       = Panic "send on closed channel".
Proof.
  eexists. split; [vm_compute; reflexivity|].
  match goal with |- Handler.CreateJob _ ?p _ _ _ _ _ = _ =>
    exact (CreateJob_after_Stop (λ s, s) p (Handler.DecodeOk "resize")
             "u1" 10 11 12 eq_refl)
  end.
Defined.

(** X13. A call of [CreateJob] is a run of the callers' steps of the
    pool: allocate the record, [Save] it, [Submit] its identifier and, on
    a refusal, write the failure. So whatever holds in every reachable
    state of the pool holds after any number of requests. *)
Theorem CreateJob_keeps_the_pool_reachable (TrimSpace : string → string)
    (p p' : Worker.Pool) (body : Handler.Decoded) (uuid : string)
    (created updated now : Store.Time) (resp : Handler.Response) :
  Handler.CreateJob TrimSpace p body uuid created updated now = Ok (resp, p') →
  (∃ acts, Forall (λ a, Worker.engine_action a = false) acts ∧
           (length acts ≤ 4)%nat ∧ Worker.run acts p = Ok p')
  ∧ (Worker.reachable p → Worker.reachable p').
Proof.
  intros H.
  pose proof (CreateJob_run TrimSpace _ _ _ _ _ _ _ _ H) as Hrun.
  split; [exact Hrun|]. intros Hr. destruct Hrun as (acts & _ & _ & Hrun).
  by eapply reachable_run.
Qed.

Lemma CreateJob_keeps_the_pool_reachable_witness :
  ∃ resp p',
    Handler.CreateJob (λ s, s) demoPool (Handler.DecodeOk "resize") "u1" 10 11 12
    = Ok (resp, p') ∧ Worker.reachable p'.
Proof.
  eexists _, _. split; [vm_compute; reflexivity|].
  match goal with |- Worker.reachable ?p' =>
    refine (proj2 (CreateJob_keeps_the_pool_reachable (λ s, s) demoPool p'
                     (Handler.DecodeOk "resize") "u1" 10 11 12 _ _)
              demoPool_reachable)
  end.
  vm_compute. reflexivity.
Defined.

Lemma GetJob_path (Quote : string → string) (p : Worker.Pool) (x : string) :
  Handler.GetJob Quote p (String.append "/jobs/" x) =
  if decide (x = "")
  then Ok (Handler.StatusBadRequest, Handler.ErrorResponse "job ID is required")
  else rbind (Store.Get (Worker.store p) x) (λ r,
    match r.2 with
    | Some _ =>
        Ok (Handler.StatusNotFound,
            Handler.ErrorResponse
              (String.append "job " (String.append (Quote x) " not found")))
    | None => Ok (Handler.StatusOK, Handler.JobPayload r.1)
    end).
Proof. unfold Handler.GetJob. by rewrite TrimPrefix_append. Qed.

(** X14. [GetJob] takes the identifier from the path after [/jobs/]. An
    empty identifier is answered with 400, an identifier the store does
    not know with 404 and the quoted identifier in the message, a stored
    one with 200 and a copy of its record. A path that does not begin with
    [/jobs/] is taken whole as the identifier. *)
Theorem GetJob_answers (Quote : string → string) (p : Worker.Pool) (id : string) :
  Handler.GetJob Quote p "/jobs/"
  = Ok (Handler.StatusBadRequest, Handler.ErrorResponse "job ID is required")
  ∧ (id ≠ "" →
     Handler.GetJob Quote p (String.append "/jobs/" id) =
     match Store.Get (Worker.store p) id with
     | Ok (j, None) => Ok (Handler.StatusOK, Handler.JobPayload j)
     | Ok (_, Some _) =>
         Ok (Handler.StatusNotFound,
             Handler.ErrorResponse
               (String.append "job " (String.append (Quote id) " not found")))
     | Panic msg => Panic msg
     | Blocked => Blocked
     end)
  ∧ (Store.jobs (Worker.store p) !! id = None → id ≠ "" →
     Handler.GetJob Quote p (String.append "/jobs/" id) =
     Ok (Handler.StatusNotFound,
         Handler.ErrorResponse
           (String.append "job " (String.append (Quote id) " not found"))))
  ∧ (Handler.HasPrefix id "/jobs/" = false →
     Handler.GetJob Quote p id = Handler.GetJob Quote p (String.append "/jobs/" id)).
Proof.
  pose proof (GetJob_path Quote p) as Hpath.
  split; [exact (Hpath "")|]. split; [|split].
  - intros Hne. rewrite Hpath. destruct (decide (id = "")); [done|].
    by destruct (Store.Get (Worker.store p) id) as [[j [e|]]| |].
  - intros Hid Hne. rewrite Hpath. destruct (decide (id = "")); [done|].
    unfold Store.Get. by rewrite Hid.
  - intros Hpre. rewrite Hpath. unfold Handler.GetJob, Handler.TrimPrefix.
    by rewrite Hpre.
Qed.

(** X15. A job made by [CreateJob] can be fetched at once: [GetJob] on
    [/jobs/] followed by the identifier answers 200 with the record, which
    carries the identifier, the task and the creation time of the request
    and the status the answer of [CreateJob] reported, [queued] after a 202
    and [failed] after a 503; and [ListJobs] answers 200 with a list that
    holds this record. *)
Theorem created_job_can_be_fetched (TrimSpace Quote : string → string)
    (p p' : Worker.Pool) (task uuid : string) (created updated now : Store.Time)
    (resp : Handler.Response) :
  Store.wf (Worker.store p) →
  uuid ≠ "" →
  TrimSpace task ≠ "" →
  Handler.CreateJob TrimSpace p (Handler.DecodeOk task) uuid created updated now
  = Ok (resp, p') →
  ∃ j l,
    Handler.GetJob Quote p' (String.append "/jobs/" uuid)
    = Ok (Handler.StatusOK, Handler.JobPayload j) ∧
    Handler.ListJobs p' = Ok (Handler.StatusOK, Handler.JobsPayload l) ∧
    j ∈ l ∧
    Store.ID j = uuid ∧ Store.Task j = task ∧ Store.CreatedAt j = created ∧
    ((resp = (Handler.StatusAccepted,
              Handler.CreateJobResponse uuid (Store.JobStatus j)) ∧
      Store.JobStatus j = Store.StatusQueued)
     ∨ (resp.1 = Handler.StatusServiceUnavailable ∧
        Store.JobStatus j = Store.StatusFailed ∧
        Store.Error j = "queue is full" ∧ Store.UpdatedAt j = now)).
Proof.
  intros Hwf Hid Hne H.
  assert (Hcl : Worker.closed (Worker.jobs p) = false).
  { destruct (Worker.closed (Worker.jobs p)) eqn:Hcl; [|done].
    rewrite (CreateJob_valid TrimSpace p task uuid created updated now Hne) in H.
    by rewrite Submit_closed in H. }
  set (l0 := fresh (dom (Store.heap (Worker.store p)))).
  assert (HG : ∃ j, Store.Get (Worker.store p') uuid = Ok (j, None) ∧
                    Store.wf (Worker.store p') ∧
    Store.ID j = uuid ∧ Store.Task j = task ∧ Store.CreatedAt j = created ∧
    ((resp = (Handler.StatusAccepted,
              Handler.CreateJobResponse uuid (Store.JobStatus j)) ∧
      Store.JobStatus j = Store.StatusQueued)
     ∨ (resp.1 = Handler.StatusServiceUnavailable ∧
        Store.JobStatus j = Store.StatusFailed ∧
        Store.Error j = "queue is full" ∧ Store.UpdatedAt j = now))).
  { assert (Hwf2 : Store.wf
      (Store.mkStore (<[l0 := Handler.newJob uuid task created updated]>
                        (Store.heap (Worker.store p)))
         (<[uuid := l0]> (Store.jobs (Worker.store p))))).
    { apply (wf_Save (Store.declare (Worker.store p)
                        (Handler.newJob uuid task created updated)).2 l0).
      - by apply wf_declare.
      - unfold Store.Save, Store.declare, Store.alloc. simpl. fold l0.
        by rewrite lookup_insert_eq. }
    destruct (CreateJob_open TrimSpace p task uuid created updated now Hne Hcl)
      as (resp' & q & HC & Hcase).
    rewrite H in HC. injection HC as <- <-.
    destruct Hcase as [(-> & _ & _ & Hs)|(-> & _ & _ & ->)].
    - eexists. rewrite Hs. split.
      + unfold Store.Get. simpl. by rewrite !lookup_insert_eq.
      + split; [exact Hwf2|]. simpl. repeat split. by left.
    - eexists. split.
      + unfold Store.Get. simpl. by rewrite !lookup_insert_eq.
      + split; [by apply wf_write|]. simpl. repeat split. right. done. }
  destruct HG as (j & HG & Hwf' & HI & HT & HCr & Hst).
  destruct (List_total _ Hwf') as [l Hl].
  exists j, l. split; [|split; [|split]]; try done.
  - rewrite GetJob_path. destruct (decide (uuid = "")); [done|].
    by rewrite HG.
  - unfold Handler.ListJobs. by rewrite Hl.
  - apply (List_elem _ _ _ Hl). unfold Store.Get in HG.
    destruct (Store.jobs (Worker.store p') !! uuid) as [q|] eqn:Hq; [|done].
    destruct (Store.heap (Worker.store p') !! q) as [x|] eqn:Hx; [|done].
    injection HG as ->. eauto.
Qed.

Lemma created_job_can_be_fetched_witness :
  ∃ resp p',
    Handler.CreateJob (λ s, s) demoPool (Handler.DecodeOk "resize") "u1" 10 11 12
    = Ok (resp, p') ∧
    ∃ j l,
      Handler.GetJob (λ s, s) p' "/jobs/u1"
      = Ok (Handler.StatusOK, Handler.JobPayload j) ∧
      Handler.ListJobs p' = Ok (Handler.StatusOK, Handler.JobsPayload l) ∧
      j ∈ l ∧ Store.Task j = "resize".
Proof.
  eexists _, _. split; [vm_compute; reflexivity|].
  match goal with |- ∃ j l, Handler.GetJob _ ?p' _ = _ ∧ _ =>
    destruct (created_job_can_be_fetched (λ s, s) (λ s, s) demoPool p'
                "resize" "u1" 10 11 12
                (Handler.StatusAccepted,
                 Handler.CreateJobResponse "u1" Store.StatusQueued))
      as (j & l & HG & HL & Hin & _ & HT & _)
  end.
  - apply demoStore_wf.
  - discriminate.
  - discriminate.
  - vm_compute. reflexivity.
  - exists j, l. split; [exact HG|]. split; [exact HL|]. split; [exact Hin|exact HT].
Defined.

(** * From the request to the final status *)

Section EndToEnd.
Import Worker Hist Handler.
Local Open Scope nat_scope.

Lemma count_absent (id : string) (l : list string) : id ∉ l → count id l = 0.
Proof.
  induction l as [|x l IH]; intros H; [done|].
  rewrite count_cons. apply not_elem_of_cons in H as [Hne Hl].
  rewrite (IH Hl). by destruct (decide (x = id)).
Qed.

Lemma Submit_accepts p jobID p' :
  Submit p jobID = Ok (true, p') → accepted p' = accepted p ++ [jobID].
Proof.
  unfold Submit. destruct (trySend _ _) as [[[c [w|]]|]| |]; simpl; try done;
    by intros [= <-].
Qed.

(** Nothing has been written for an identifier that was never accepted. *)
Lemma writes_absent p jobID :
  Inv p → jobID ∉ accepted p → writes jobID (updates p) = [].
Proof.
  intros HI Hno. pose proof (count_absent _ _ Hno) as H0.
  pose proof (inv_acc p HI jobID) as Hacc. rewrite H0 in Hacc.
  destruct (writes_once p jobID HI) as [E|[E|(st & _ & E)]]; [lia|done| |];
    rewrite E in Hacc.
  - rewrite began_one in Hacc. destruct (decide _); [lia|done].
  - change [Store.StatusRunning; st] with ([Store.StatusRunning] ++ [st]) in Hacc.
    rewrite began_app, began_one in Hacc. destruct (decide _); [lia|done].
Qed.

End EndToEnd.

(** X16. From the request to the final status. Take a pool with at least
    one worker, in any state it can reach, and a request that [CreateJob]
    answers with 202, its identifier being new to the store and to the
    pool. If afterwards the callers leave the record alone and do not
    submit the identifier again, then once [Stop] has returned the record
    is stored with a terminal status. *)
Theorem accepted_job_ends_in_a_terminal_state (TrimSpace : string → string)
    (p p1 p2 : Worker.Pool) (task uuid : string)
    (created updated now : Store.Time) (acts : list Worker.Action) :
  Worker.reachable p →
  (1 ≤ length (Worker.workers p))%nat →
  (∀ l j, Store.heap (Worker.store p) !! l = Some j → Store.ID j ≠ uuid) →
  uuid ∉ Worker.accepted p →
  Handler.CreateJob TrimSpace p (Handler.DecodeOk task) uuid created updated now
  = Ok ((Handler.StatusAccepted,
         Handler.CreateJobResponse uuid Store.StatusQueued), p1) →
  (∀ l, Store.jobs (Worker.store p1) !! uuid = Some l →
        Forall (λ a, Hist.respects uuid l a = true) acts) →
  Worker.run acts p1 = Ok p2 →
  Hist.count uuid (Worker.accepted p2) = 1%nat →
  Worker.stopped p2 = true →
  ∃ j, Store.Get (Worker.store p2) uuid = Ok (j, None) ∧
       Store.terminal (Store.JobStatus j) = true.
Proof.
  intros Hr Hlen Hnew Hno HC Hresp Hrun Hc Hs.
  pose proof (Inv_reachable p Hr) as HI.
  pose proof (Hist.inv_wf p HI) as Hwf.
  assert (Hne : TrimSpace task ≠ "").
  { intros Hb. unfold Handler.CreateJob in HC.
    destruct (decide (TrimSpace task = "")); [|done]. discriminate HC. }
  assert (Hcl : Worker.closed (Worker.jobs p) = false).
  { destruct (Worker.closed (Worker.jobs p)) eqn:Hcl; [|done].
    rewrite (CreateJob_valid TrimSpace p task uuid created updated now Hne) in HC.
    by rewrite Submit_closed in HC. }
  destruct (CreateJob_run TrimSpace _ _ _ _ _ _ _ _ HC) as (acts0 & _ & _ & Hrun0).
  pose proof (Inv_run _ _ _ HI Hrun0) as HI1.
  pose proof (workers_length_run _ _ _ Hrun0) as Hlen1.
  set (l0 := fresh (dom (Store.heap (Worker.store p)))).
  destruct (CreateJob_open TrimSpace p task uuid created updated now Hne Hcl)
    as (resp' & q & HC' & Hcase).
  rewrite HC in HC'. injection HC' as <- <-.
  destruct Hcase as [(_ & _ & HS & Hst1)|(Hbad & _)]; [|discriminate Hbad].
  fold l0 in HS, Hst1.
  assert (Hu1 : Worker.updates p1 = Worker.updates p).
  { by destruct (Submit_store _ _ _ _ HS) as [_ ->]. }
  assert (HO : Hist.Owned uuid l0 (Worker.store p1)).
  { rewrite Hst1. constructor; simpl.
    - by rewrite lookup_insert_eq.
    - intros id'. destruct (decide (id' = uuid)) as [|Hd]; [done|].
      rewrite lookup_insert_ne by done. intros Hid'.
      destruct (Hwf _ _ Hid') as [x Hx]. unfold l0 in Hx.
      by rewrite fresh_loc_unused in Hx.
    - intros l' j. destruct (decide (l' = l0)) as [|Hd]; [done|].
      rewrite lookup_insert_ne by done. intros Hj HID. by destruct (Hnew _ _ Hj). }
  assert (Hj0 : Store.heap (Worker.store p1) !! l0
                = Some (Handler.newJob uuid task created updated)).
  { rewrite Hst1. simpl. by rewrite lookup_insert_eq. }
  assert (HL : Hist.writes uuid (Worker.updates p1) = []).
  { rewrite Hu1. by apply writes_absent. }
  destruct (stored_status_follows_writes uuid l0 acts p1 p2 _ HI1 HO Hj0
              (Hresp l0 (Hist.owned_key _ _ _ HO)) Hrun)
    as (more & j' & Hm & _ & HG & Hst).
  exists j'. split; [exact HG|].
  pose proof (Inv_run _ _ _ HI1 Hrun) as HI2.
  destruct (drained p2 HI2) as (_ & _ & Hcnt).
  { rewrite (workers_length_run _ _ _ Hrun), Hlen1. done. }
  { by destruct (Hist.inv_stopped p2 HI2 Hs). }
  destruct (Hcnt uuid) as [Hb He]. rewrite Hc in Hb, He.
  assert (Hle : (Hist.count uuid (Worker.accepted p2) ≤ 1)%nat) by lia.
  pose proof (writes_once p2 uuid HI2 Hle) as Hw.
  rewrite Hm, writes_app, HL in Hw, Hb, He. simpl in Hw, Hb, He.
  rewrite Hst.
  destruct Hw as [Hw|[Hw|(t & Ht & Hw)]]; rewrite Hw in Hb, He |- *; try done.
Qed.

Lemma accepted_job_ends_in_a_terminal_state_witness :
  ∃ p0 p1 p2 j,
    Worker.NewPool (Store.New ∅) (Worker.mkConfig 1 10 (5 * Worker.Second)) = Ok p0 ∧
    Handler.CreateJob (λ s, s) p0 (Handler.DecodeOk "resize") "u1" 10 11 12
    = Ok ((Handler.StatusAccepted,
           Handler.CreateJobResponse "u1" Store.StatusQueued), p1) ∧
    Worker.run [Worker.AReceive 0; Worker.ABegin 0 13;
                Worker.AExecutorDone 0 None; Worker.AStop;
                Worker.AFinish 0 Worker.CaseDone 14;
                Worker.AReceive 0; Worker.AExit 0; Worker.AStopReturn] p1 = Ok p2 ∧
    Store.Get (Worker.store p2) "u1" = Ok (j, None) ∧
    Store.JobStatus j = Store.StatusCompleted ∧
    Store.terminal (Store.JobStatus j) = true.
Proof.
  eexists _, _, _, _. split; [reflexivity|]. split; [vm_compute; reflexivity|].
  split; [vm_compute; reflexivity|].
  match goal with |- Store.Get (Worker.store ?p2) _ = _ ∧ _ =>
    let r := eval vm_compute in
      (Handler.CreateJob (λ s, s)
         (Worker.spawn 1 (Worker.mkPool (Worker.mkChan [] 10 false [])
            (Store.New ∅) (Worker.mkConfig 1 10 (5 * Worker.Second))
            0 [] [] false [] []))
         (Handler.DecodeOk "resize") "u1" 10 11 12) in
    match r with
    | Ok (_, ?p1) =>
        destruct (accepted_job_ends_in_a_terminal_state (λ s, s)
           (Worker.spawn 1 (Worker.mkPool (Worker.mkChan [] 10 false [])
              (Store.New ∅) (Worker.mkConfig 1 10 (5 * Worker.Second))
              0 [] [] false [] []))
           p1 p2 "resize" "u1" 10 11 12
           [Worker.AReceive 0; Worker.ABegin 0 13;
            Worker.AExecutorDone 0 None; Worker.AStop;
            Worker.AFinish 0 Worker.CaseDone 14;
            Worker.AReceive 0; Worker.AExit 0; Worker.AStopReturn])
          as (j & HG & Ht)
    end
  end.
  - eexists _, []. split; [|reflexivity]. left.
    exists (Store.New ∅), (Worker.mkConfig 1 10 (5 * Worker.Second)).
    split; [reflexivity|apply wf_New].
  - simpl. lia.
  - intros l j H. vm_compute in H. discriminate H.
  - intros H. vm_compute in H. by apply elem_of_nil in H.
  - vm_compute. reflexivity.
  - intros l H. vm_compute in H. injection H as <-. repeat constructor.
  - vm_compute. reflexivity.
  - vm_compute. reflexivity.
  - reflexivity.
  - split; [vm_compute; reflexivity|]. split; [reflexivity|].
    vm_compute in HG. injection HG as <-. exact Ht.
Defined.

(** X17. A job refused with 503 stays as the handler left it. If the
    identifier of the request was new to the store and to the pool and is
    never submitted, and the callers leave the record alone, then in every
    later state the record is stored as [failed]: no worker ever writes
    to it. *)
Theorem refused_job_stays_failed (TrimSpace : string → string)
    (p p1 p2 : Worker.Pool) (task uuid : string)
    (created updated now : Store.Time) (acts : list Worker.Action)
    (payload : Handler.Payload) :
  Worker.reachable p →
  (∀ l j, Store.heap (Worker.store p) !! l = Some j → Store.ID j ≠ uuid) →
  Handler.CreateJob TrimSpace p (Handler.DecodeOk task) uuid created updated now
  = Ok ((Handler.StatusServiceUnavailable, payload), p1) →
  (∀ l, Store.jobs (Worker.store p1) !! uuid = Some l →
        Forall (λ a, Hist.respects uuid l a = true) acts) →
  Worker.run acts p1 = Ok p2 →
  uuid ∉ Worker.accepted p2 →
  Hist.writes uuid (Worker.updates p2) = [] ∧
  ∃ j, Store.Get (Worker.store p2) uuid = Ok (j, None) ∧
       Store.JobStatus j = Store.StatusFailed.
Proof.
  intros Hr Hnew HC Hresp Hrun Hno.
  pose proof (Inv_reachable p Hr) as HI.
  pose proof (Hist.inv_wf p HI) as Hwf.
  assert (Hne : TrimSpace task ≠ "").
  { intros Hb. unfold Handler.CreateJob in HC.
    destruct (decide (TrimSpace task = "")); [|done]. discriminate HC. }
  assert (Hcl : Worker.closed (Worker.jobs p) = false).
  { destruct (Worker.closed (Worker.jobs p)) eqn:Hcl; [|done].
    rewrite (CreateJob_valid TrimSpace p task uuid created updated now Hne) in HC.
    by rewrite Submit_closed in HC. }
  destruct (CreateJob_run TrimSpace _ _ _ _ _ _ _ _ HC) as (acts0 & _ & _ & Hrun0).
  pose proof (Inv_run _ _ _ HI Hrun0) as HI1.
  pose proof (Inv_run _ _ _ HI1 Hrun) as HI2.
  set (l0 := fresh (dom (Store.heap (Worker.store p)))).
  destruct (CreateJob_open TrimSpace p task uuid created updated now Hne Hcl)
    as (resp' & q & HC' & Hcase).
  rewrite HC in HC'. injection HC' as <- <-.
  destruct Hcase as [(Hbad & _)|(_ & _ & _ & Hp1)]; [discriminate Hbad|].
  fold l0 in Hp1.
  assert (HO : Hist.Owned uuid l0 (Worker.store p1)).
  { rewrite Hp1. constructor; simpl.
    - by rewrite lookup_insert_eq.
    - intros id'. destruct (decide (id' = uuid)) as [|Hd]; [done|].
      rewrite lookup_insert_ne by done. intros Hid'.
      destruct (Hwf _ _ Hid') as [x Hx]. unfold l0 in Hx.
      by rewrite fresh_loc_unused in Hx.
    - intros l' j. destruct (decide (l' = l0)) as [|Hd]; [done|].
      rewrite !lookup_insert_ne by done. intros Hj HID. by destruct (Hnew _ _ Hj). }
  assert (Hj0 : Store.heap (Worker.store p1) !! l0
                = Some (Store.mkJob uuid task Store.StatusFailed "queue is full"
                          created now)).
  { rewrite Hp1. simpl. by rewrite lookup_insert_eq. }
  destruct (stored_status_follows_writes uuid l0 acts p1 p2 _ HI1 HO Hj0
              (Hresp l0 (Hist.owned_key _ _ _ HO)) Hrun)
    as (more & j' & Hm & _ & HG & Hst).
  pose proof (writes_absent p2 uuid HI2 Hno) as HL.
  split; [exact HL|]. exists j'. split; [exact HG|].
  rewrite Hm, writes_app in HL. apply app_eq_nil in HL as [_ HL].
  by rewrite Hst, HL.
Qed.

Lemma refused_job_stays_failed_witness :
  ∃ p0 p1 p2 j,
    Worker.NewPool (Store.New ∅) (Worker.mkConfig 1 0 (5 * Worker.Second)) = Ok p0 ∧
    Handler.CreateJob (λ s, s) p0 (Handler.DecodeOk "resize") "u1" 10 11 12
    = Ok ((Handler.StatusServiceUnavailable,
           Handler.ErrorResponse "job queue is full, try later"), p1) ∧
    Worker.run [Worker.AReceive 0; Worker.AStop; Worker.AExit 0;
                Worker.AStopReturn] p1 = Ok p2 ∧
    Store.Get (Worker.store p2) "u1" = Ok (j, None) ∧
    Store.JobStatus j = Store.StatusFailed.
Proof.
  eexists _, _, _, _. split; [reflexivity|]. split; [vm_compute; reflexivity|].
  split; [vm_compute; reflexivity|].
  match goal with |- Store.Get (Worker.store ?p2) _ = _ ∧ _ =>
    let r := eval vm_compute in
      (Handler.CreateJob (λ s, s)
         (Worker.spawn 1 (Worker.mkPool (Worker.mkChan [] 0 false [])
            (Store.New ∅) (Worker.mkConfig 1 0 (5 * Worker.Second))
            0 [] [] false [] []))
         (Handler.DecodeOk "resize") "u1" 10 11 12) in
    match r with
    | Ok (_, ?p1) =>
        destruct (refused_job_stays_failed (λ s, s)
           (Worker.spawn 1 (Worker.mkPool (Worker.mkChan [] 0 false [])
              (Store.New ∅) (Worker.mkConfig 1 0 (5 * Worker.Second))
              0 [] [] false [] []))
           p1 p2 "resize" "u1" 10 11 12
           [Worker.AReceive 0; Worker.AStop; Worker.AExit 0; Worker.AStopReturn]
           (Handler.ErrorResponse "job queue is full, try later"))
          as (_ & j & HG & Ht)
    end
  end.
  - eexists _, []. split; [|reflexivity]. left.
    exists (Store.New ∅), (Worker.mkConfig 1 0 (5 * Worker.Second)).
    split; [reflexivity|apply wf_New].
  - intros l j H. vm_compute in H. discriminate H.
  - vm_compute. reflexivity.
  - intros l H. vm_compute in H. injection H as <-. repeat constructor.
  - vm_compute. reflexivity.
  - intros H. vm_compute in H. by apply elem_of_nil in H.
  - split; [vm_compute; reflexivity|].
    vm_compute in HG. injection HG as <-. exact Ht.
Defined.

(** * Deadlines that have passed before the job starts *)

(** X18. With a [JobTimeout] that is not positive the context of a job is
    done as soon as it is made. The default task then returns the
    cancellation error, and whichever case the select of [processJob]
    takes, before or after the task has returned, the job is recorded as
    [cancelled] or as [failed], never as [completed]. *)
Theorem nonpositive_timeout_never_completes (p p1 : Worker.Pool) (w : nat)
    (jobID : string) (t0 : Store.Time) :
  Worker.workers p !! w = Some (Worker.WGot jobID) →
  (Worker.JobTimeout (Worker.cfg p) ≤ 0)%Z →
  Worker.processJob_begin p w t0 = Ok p1 →
  Worker.workers p1 !! w = Some (Worker.WRacing jobID None true)
  ∧ ∀ (r : Z) (tie : bool) (c : Worker.Case) (t1 : Store.Time) (p2 : Worker.Pool),
      (r ≤ 0)%Z →
      Worker.processJob_finish p1 w c t1 = Ok p2
      ∨ Worker.run [Worker.AExecutorDone w (Worker.defaultExecuteTask r tie jobID);
                    Worker.AFinish w c t1] p1 = Ok p2 →
      ∃ st, Worker.updates p2 = Worker.updates p1 ++ [(w, jobID, st)] ∧
            (st = Store.StatusCancelled ∨ st = Store.StatusFailed).
Proof.
  intros Hw Ht H.
  assert (Hw1 : Worker.workers p1 !! w = Some (Worker.WRacing jobID None true)).
  { unfold Worker.processJob_begin in H. rewrite Hw in H.
    destruct (Store.UpdateStatus _ _ _ _ _) as [[s e]| |]; try done.
    injection H as <-. simpl.
    replace (Worker.JobTimeout (Worker.cfg p) <=? 0)%Z with true
      by (symmetry; apply Z.leb_le; lia).
    apply list_lookup_insert_eq. by eapply lookup_lt_Some. }
  split; [exact Hw1|]. intros r tie c t1 p2 Hr [H2|H2].
  - unfold Worker.processJob_finish in H2. rewrite Hw1 in H2.
    destruct c; [done|]. simpl in H2.
    destruct (Worker.conclude p1 w jobID _ t1) as [q| |] eqn:E; try done.
    injection H2 as <-.
    destruct (conclude_fields _ _ _ _ _ _ E) as (_ & _ & Hu & _).
    exists Store.StatusCancelled. split; [exact Hu|by left].
  - simpl in H2. unfold Worker.executor_done in H2. rewrite Hw1 in H2.
    simpl in H2. unfold Worker.processJob_finish in H2. simpl in H2.
    rewrite list_lookup_insert_eq in H2 by (by eapply lookup_lt_Some).
    assert (Hd : Worker.defaultExecuteTask r tie jobID = Some Worker.cancelledText).
    { unfold Worker.defaultExecuteTask.
      assert (2 * Worker.Second ≤ Worker.sleepDuration jobID)%Z.
      { unfold Worker.sleepDuration, Worker.Second. lia. }
      unfold Worker.Second in *.
      replace (Worker.sleepDuration jobID <? r)%Z with false
        by (symmetry; apply Z.ltb_ge; lia).
      by replace (r <? Worker.sleepDuration jobID)%Z with true
        by (symmetry; apply Z.ltb_lt; lia). }
    rewrite Hd in H2. destruct c; simpl in H2.
    + destruct (Worker.conclude _ w jobID _ t1) as [q| |] eqn:E; try done.
      injection H2 as <-.
      destruct (conclude_fields _ _ _ _ _ _ E) as (_ & _ & Hu & _).
      exists Store.StatusFailed. split; [exact Hu|by right].
    + destruct (Worker.conclude _ w jobID _ t1) as [q| |] eqn:E; try done.
      injection H2 as <-.
      destruct (conclude_fields _ _ _ _ _ _ E) as (_ & _ & Hu & _).
      exists Store.StatusCancelled. split; [exact Hu|by left].
Qed.

Lemma nonpositive_timeout_never_completes_witness :
  ∃ p0 p p1,
    Worker.NewPool demoStore (Worker.mkConfig 1 1 0) = Ok p0 ∧
    Worker.run [Worker.ASubmit "c"; Worker.AReceive 0] p0 = Ok p ∧
    Worker.processJob_begin p 0 1 = Ok p1 ∧
    Worker.workers p1 !! 0%nat = Some (Worker.WRacing "c" None true).
Proof.
  eexists _, _, _. split; [reflexivity|]. split; [vm_compute; reflexivity|].
  split; [vm_compute; reflexivity|].
  match goal with |- Worker.workers ?p1 !! _ = _ =>
    let q := eval vm_compute in
      (Worker.run [Worker.ASubmit "c"; Worker.AReceive 0]
         (Worker.spawn 1 (Worker.mkPool (Worker.mkChan [] 1 false []) demoStore
            (Worker.mkConfig 1 1 0) 0 [] [] false [] []))) in
    match q with
    | Ok ?p =>
        apply (nonpositive_timeout_never_completes p p1 0 "c" 1)
    end
  end.
  - reflexivity.
  - simpl. lia.
  - vm_compute. reflexivity.
Defined.

(** * Bookkeeping of the pool *)

(** X19. No accepted job is lost and none is taken twice. In every
    reachable state each identifier has been accepted as many times as it
    is in the channel, in the hands of a worker or has been marked
    [running]; and it has been marked [running] as many times as it is at a
    worker's select or has had a terminal status written. *)
Theorem no_job_is_lost_or_taken_twice (p : Worker.Pool) (jobID : string) :
  Worker.reachable p →
  (Hist.count jobID (Worker.accepted p) =
   Hist.count jobID (Worker.buf (Worker.jobs p))
   + Hist.wsum (Hist.holds jobID) (Worker.workers p)
   + Hist.began (Hist.writes jobID (Worker.updates p)))%nat
  ∧ (Hist.began (Hist.writes jobID (Worker.updates p)) =
     Hist.wsum (Hist.races jobID) (Worker.workers p)
     + Hist.ended (Hist.writes jobID (Worker.updates p)))%nat.
Proof.
  intros Hr. pose proof (Inv_reachable p Hr) as HI.
  split; [apply (Hist.inv_acc p HI)|apply (Hist.inv_run p HI)].
Qed.

Lemma no_job_is_lost_or_taken_twice_witness :
  (Hist.count "c" (Worker.accepted gotPool) =
   Hist.count "c" (Worker.buf (Worker.jobs gotPool))
   + Hist.wsum (Hist.holds "c") (Worker.workers gotPool)
   + Hist.began (Hist.writes "c" (Worker.updates gotPool)))%nat
  ∧ (Hist.began (Hist.writes "c" (Worker.updates gotPool)) =
     Hist.wsum (Hist.races "c") (Worker.workers gotPool)
     + Hist.ended (Hist.writes "c" (Worker.updates gotPool)))%nat.
Proof. apply (no_job_is_lost_or_taken_twice gotPool "c"), gotPool_reachable. Defined.

(** X20. The workers of a pool. A pool made by [NewPool] has at every
    moment the workers it started, none added and none lost; the counter
    of its WaitGroup is the number of them that have not returned; a
    worker returns only after the close and with the channel empty; and a
    worker waits in its receive only while the channel is open and
    empty. *)
Theorem workers_are_counted (s : Store.MemoryStore) (c : Worker.Config)
    (p0 p : Worker.Pool) (acts : list Worker.Action) :
  Store.wf s →
  Worker.NewPool s c = Ok p0 →
  Worker.run acts p0 = Ok p →
  length (Worker.workers p) = Z.to_nat (Worker.NumWorkers c)
  ∧ Worker.wg p = Z.of_nat (Hist.wsum Hist.live (Worker.workers p))
  ∧ (0 ≤ Worker.wg p ≤ Z.of_nat (Z.to_nat (Worker.NumWorkers c)))
  ∧ (∀ w, Worker.workers p !! w = Some Worker.WExited →
          Worker.closed (Worker.jobs p) = true ∧ Worker.buf (Worker.jobs p) = [])
  ∧ (∀ w, Worker.workers p !! w = Some Worker.WParked →
          Worker.closed (Worker.jobs p) = false ∧ Worker.buf (Worker.jobs p) = []).
Proof.
  intros Hwf H0 Hrun.
  assert (HI0 : Hist.Inv p0) by (apply Inv_started; left; eauto).
  pose proof (Inv_run _ _ _ HI0 Hrun) as HI.
  assert (Hlen : length (Worker.workers p) = Z.to_nat (Worker.NumWorkers c)).
  { by rewrite (workers_length_run _ _ _ Hrun), (NewPool_workers _ _ _ H0). }
  split; [exact Hlen|]. split; [apply (Hist.inv_wg p HI)|]. split; [|split].
  - rewrite (Hist.inv_wg p HI), <- Hlen. split; [lia|].
    apply inj_le. clear. induction (Worker.workers p) as [|x l IH]; simpl; [done|].
    unfold Hist.wsum in *. simpl. destruct x; simpl; lia.
  - intros w Hw. apply (Hist.inv_gone p HI w). by right.
  - intros w Hw. apply (Hist.inv_parked p HI) in Hw.
    destruct (Hist.inv_idle p HI) as [Hb Hc]; [|done].
    intros E. rewrite E in Hw. by apply elem_of_nil in Hw.
Qed.

Lemma workers_are_counted_witness :
  ∃ p0 p,
    Worker.NewPool demoStore (Worker.mkConfig 2 1 (5 * Worker.Second)) = Ok p0 ∧
    Worker.run [Worker.AReceive 0; Worker.AStop; Worker.AExit 0] p0 = Ok p ∧
    length (Worker.workers p) = 2%nat ∧ Worker.wg p = 1.
Proof.
  eexists _, _. split; [reflexivity|]. split; [vm_compute; reflexivity|].
  match goal with |- length (Worker.workers ?p) = _ ∧ _ =>
    destruct (workers_are_counted demoStore
                (Worker.mkConfig 2 1 (5 * Worker.Second)) _ p
                [Worker.AReceive 0; Worker.AStop; Worker.AExit 0]
                demoStore_wf eq_refl) as (Hl & Hg & _)
  end.
  - vm_compute. reflexivity.
  - split; [exact Hl|]. rewrite Hg. reflexivity.
Defined.

(** * The interactive mode *)

Section MainFacts.
Import Main.

Variable TrimSpace : string → string.
Variable Atoi : string → option Z.

Lemma entered_positive text fallback :
  0 < fallback → 0 < entered TrimSpace Atoi text fallback.
Proof.
  intros H. unfold entered. destruct (Atoi (TrimSpace text)) as [v|]; [|done].
  destruct (0 <? v) eqn:E; [by apply Z.ltb_lt|done].
Qed.

Lemma answer_positive lines i fallback :
  0 < fallback → 0 < answer (entered TrimSpace Atoi) lines i fallback.
Proof.
  intros H. unfold answer. destruct (lines !! i); [by apply entered_positive|done].
Qed.

Lemma promptInt_reads io prompt fallback :
  promptInt TrimSpace Atoi io prompt fallback =
  (answer (entered TrimSpace Atoi) (input io) 0 fallback,
   mkIO (drop 1 (input io)) (output io ++ [Fprintf prompt])).
Proof. unfold promptInt, answer, write. simpl. by destruct (input io). Qed.

Lemma RunInteractive_reads io :
  RunInteractive TrimSpace Atoi io =
  (mkConfig (answer (entered TrimSpace Atoi) (input io) 0 8080)
            (answer (entered TrimSpace Atoi) (input io) 1 3)
            (answer (entered TrimSpace Atoi) (input io) 2 100)
            (answer (entered TrimSpace Atoi) (input io) 3 30),
   mkIO (drop 4 (input io))
        (output io ++
         [Fprintln "=== Job Queue Server (interactive mode) ===";
          Fprintln ""; Fprintf "HTTP port [8080]: ";
          Fprintf "Number of workers [3]: "; Fprintf "Queue buffer size [100]: ";
          Fprintf "Job timeout in seconds [30]: "; Fprintln ""])).
Proof.
  unfold RunInteractive. rewrite !promptInt_reads. unfold write. simpl.
  rewrite !drop_drop. simpl. rewrite <- !app_assoc. simpl.
  unfold answer. rewrite !lookup_drop. simpl.
  by destruct (input io) as [|a [|b [|c [|d l]]]].
Qed.

Lemma wrap64_small z : - 2 ^ 63 ≤ z < 2 ^ 63 → wrap64 z = z.
Proof. intros H. unfold wrap64. rewrite Z.mod_small; lia. Qed.

Lemma wrap64_over z : 2 ^ 63 ≤ z < 2 ^ 64 → wrap64 z = z - 2 ^ 64.
Proof.
  intros H. unfold wrap64.
  replace (z + 2 ^ 63) with ((z - 2 ^ 63) + 1 * 2 ^ 64) by lia.
  rewrite Z.mod_add by lia. rewrite Z.mod_small; lia.
Qed.

End MainFacts.

(** X21. The interactive mode reads four lines in order, the port, the
    number of workers, the queue size and the job timeout. A field takes
    the number of its line when the line, trimmed, is an integer above
    zero, and its default (8080, 3, 100, 30) when the line is missing,
    is not a number or is not above zero; so every field is positive. The
    same seven writes go to the writer whatever is read, and no more than
    four lines are taken from the input. *)
Theorem RunInteractive_reads_four_positive_numbers
    (TrimSpace : string → string) (Atoi : string → option Z) (io : Main.IO) :
  let r := Main.RunInteractive TrimSpace Atoi io in
  let field := Main.answer (Main.entered TrimSpace Atoi) (Main.input io) in
  r.1 = Main.mkConfig (field 0%nat 8080) (field 1%nat 3) (field 2%nat 100)
          (field 3%nat 30)
  ∧ (0 < Main.Port r.1 ∧ 0 < Main.Workers r.1 ∧ 0 < Main.QueueSize r.1
     ∧ 0 < Main.JobTimeout r.1)
  ∧ Main.input r.2 = drop 4 (Main.input io)
  ∧ length (Main.output r.2) = (length (Main.output io) + 7)%nat.
Proof.
  intros r field. unfold r. rewrite RunInteractive_reads. simpl.
  split; [done|]. split.
  - repeat split; by apply answer_positive.
  - split; [done|]. rewrite length_app. simpl. done.
Qed.

(** X22. The pool of a server started in the interactive mode works.
    Whatever is typed, [NewPool] is given a positive number of workers and
    a positive queue size; the pool it returns has at least one worker and
    room for at least one job, and when its [Stop] has returned the
    channel is empty, every worker has returned and every accepted job has
    had its [running] write and its terminal write. *)
Theorem interactive_mode_starts_a_working_pool
    (TrimSpace : string → string) (Atoi : string → option Z) (io : Main.IO)
    (p0 : Worker.Pool) :
  let c := Main.poolConfig (Main.RunInteractive TrimSpace Atoi io).1 in
  Main.startPool (Main.RunInteractive TrimSpace Atoi io).1 = Ok p0 →
  0 < Worker.NumWorkers c ∧ 0 < Worker.QueueSize c ∧
  (1 ≤ length (Worker.workers p0))%nat ∧
  (1 ≤ Worker.cap (Worker.jobs p0))%nat ∧
  ∀ acts p, Worker.run acts p0 = Ok p → Worker.stopped p = true →
            Hist.all_done p.
Proof.
  intros c. unfold c. rewrite RunInteractive_reads. simpl fst.
  set (cfg := Main.mkConfig _ _ _ _).
  assert (Hw : 0 < Main.Workers cfg) by (by apply answer_positive).
  assert (Hq : 0 < Main.QueueSize cfg) by (by apply answer_positive).
  unfold Main.startPool. intros E.
  split; [exact Hw|]. split; [exact Hq|].
  destruct (NewPool_fields _ _ _ E) as (_ & Hj & Hws & _).
  assert (Hlen : (1 ≤ length (Worker.workers p0))%nat).
  { rewrite Hws, length_replicate.
    change (Worker.NumWorkers (Main.poolConfig cfg)) with (Main.Workers cfg).
    lia. }
  split; [exact Hlen|]. split.
  { rewrite Hj.
    change (Worker.cap _) with (Z.to_nat (Main.QueueSize cfg)). lia. }
  intros acts p Hrun Hs.
  assert (HI : Hist.Inv p).
  { apply (Inv_run acts p0); [|done]. apply Inv_started. left.
    exists (Store.New ∅), (Main.poolConfig cfg). split; [done|apply wf_New]. }
  apply drained; [done| |by destruct (Hist.inv_stopped p HI Hs)].
  by rewrite (workers_length_run _ _ _ Hrun).
Qed.

Lemma interactive_mode_starts_a_working_pool_witness :
  ∃ p0,
    Main.startPool
      (Main.RunInteractive (λ s, s) (λ _, None) (Main.mkIO ["x"; "y"] [])).1
    = Ok p0 ∧
    (1 ≤ length (Worker.workers p0))%nat ∧
    (1 ≤ Worker.cap (Worker.jobs p0))%nat.
Proof.
  eexists. split; [vm_compute; reflexivity|].
  match goal with |- (1 ≤ length (Worker.workers ?p0))%nat ∧ _ =>
    destruct (interactive_mode_starts_a_working_pool (λ s, s) (λ _, None)
                (Main.mkIO ["x"; "y"] []) p0) as (_ & _ & Hl & Hc & _)
  end.
  - vm_compute. reflexivity.
  - split; [exact Hl|exact Hc].
Defined.

(** X23. The job timeout of the interactive mode is multiplied by one
    second in 64 bits. A number of seconds up to 9223372036 gives that
    many seconds; from 9223372037 on the product wraps around, and up to
    18446744073 the pool is started with a negative timeout. *)
Theorem interactive_timeout_wraps_around
    (TrimSpace : string → string) (Atoi : string → option Z) (io : Main.IO)
    (text : string) (v : Z) :
  Main.input io !! 3%nat = Some text →
  Atoi (TrimSpace text) = Some v →
  let cfg := (Main.RunInteractive TrimSpace Atoi io).1 in
  (0 < v ≤ 9223372036 →
   Worker.JobTimeout (Main.poolConfig cfg) = v * Worker.Second)
  ∧ (9223372037 ≤ v ≤ 18446744073 →
     Worker.JobTimeout (Main.poolConfig cfg) < 0).
Proof.
  intros Hl Hv cfg. unfold cfg. rewrite RunInteractive_reads. simpl.
  unfold Main.answer. rewrite Hl. unfold Main.entered. rewrite Hv.
  unfold Worker.Second. split; intros Hr.
  - replace (0 <? v) with true by (symmetry; apply Z.ltb_lt; lia).
    apply wrap64_small. lia.
  - replace (0 <? v) with true by (symmetry; apply Z.ltb_lt; lia).
    rewrite wrap64_over; lia.
Qed.

Lemma interactive_timeout_wraps_around_witness :
  Worker.JobTimeout
    (Main.poolConfig
       (Main.RunInteractive (λ s, s) (λ _, Some 9223372037)
          (Main.mkIO ["1"; "2"; "3"; "9223372037"] [])).1) < 0.
Proof.
  apply (interactive_timeout_wraps_around (λ s, s) (λ _, Some 9223372037)
           (Main.mkIO ["1"; "2"; "3"; "9223372037"] []) "9223372037" 9223372037
           eq_refl eq_refl).
  lia.
Defined.

(** * A request while the workers run *)

Section Concurrent.
Import Worker Hist Handler.
Local Open Scope nat_scope.

Variable TrimSpace : string → string.

(** The two parts make up [CreateJob]. *)
Lemma CreateJob_split p task uuid created updated now :
  TrimSpace task ≠ "" →
  CreateJob TrimSpace p (DecodeOk task) uuid created updated now =
  rbind (CreateJob_submit p task uuid created updated)
        (λ r, CreateJob_respond r.2 r.1.1 r.1.2 now).
Proof.
  intros Hne. unfold CreateJob, CreateJob_submit, CreateJob_respond.
  destruct (decide (TrimSpace task = "")) as [|_]; [done|].
  unfold newJob, Store.declare, Store.alloc. simpl.
  destruct (Store.Save _ _) as [s2| |]; simpl; try done.
  destruct (deref s2 _) as [j| |]; simpl; try done.
  destruct (Submit _ _) as [[b q]| |]; simpl; try done.
Qed.

Lemma accepted_step_engine a p p' :
  engine_action a = true → step a p = Ok p' → accepted p' = accepted p.
Proof.
  intros Ha H. destruct a; try done; simpl in H.
  - unfold runWorker_receive, recv in H.
    destruct (workers p !! w) as [[]|]; try done.
    destruct (buf (jobs p)); [destruct (closed (jobs p))|]; by injection H as <-.
  - unfold processJob_begin in H. destruct (workers p !! w) as [[]|]; try done.
    destruct (Store.UpdateStatus _ _ _ _ _) as [[s e]| |]; try done.
    by injection H as <-.
  - by destruct (executor_done_fields _ _ _ _ H) as (? & ? & _ & ->).
  - by destruct (deadline_passes_fields _ _ _ H) as (? & ? & _ & ->).
  - by destruct (finish_fields _ _ _ _ _ H) as (? & ? & ? & ? & _ & _ & -> & _).
  - unfold runWorker_exit in H. destruct (workers p !! w) as [[]|]; try done.
    destruct (wg p - 1 <? 0)%Z; [done|]. by injection H as <-.
  - unfold executor_returns in H. destruct (abandoned p !! i); [|done].
    by injection H as <-.
Qed.

Lemma accepted_run_engine acts : ∀ p p',
  Forall (λ a, engine_action a = true) acts → run acts p = Ok p' →
  accepted p' = accepted p.
Proof.
  induction acts as [|a acts IH]; intros p p' Hall H; simpl in H.
  - by injection H as <-.
  - destruct (step a p) as [q| |] eqn:E; try done. simpl in H.
    apply Forall_cons in Hall as [Ha Hall].
    by rewrite (IH _ _ Hall H), (accepted_step_engine _ _ _ Ha E).
Qed.

Lemma engine_respects jobID l acts :
  Forall (λ a, engine_action a = true) acts →
  Forall (λ a, respects jobID l a = true) acts.
Proof. intros H. eapply Forall_impl; [exact H|]. intros a Ha. by destruct a. Qed.

(** The first part of [CreateJob], in full. *)
Lemma CreateJob_submit_fields p task uuid created updated job b p1 :
  CreateJob_submit p task uuid created updated = Ok (job, b, p1) →
  job = fresh (dom (Store.heap (store p))) ∧
  store p1 = Store.mkStore
               (<[job := newJob uuid task created updated]> (Store.heap (store p)))
               (<[uuid := job]> (Store.jobs (store p))) ∧
  updates p1 = updates p ∧
  accepted p1 = (if b then accepted p ++ [uuid] else accepted p) ∧
  run [ANew (newJob uuid task created updated); ASave job; ASubmit uuid] p = Ok p1.
Proof.
  unfold CreateJob_submit, Store.declare, Store.alloc, Store.Save, deref. simpl.
  rewrite lookup_insert_eq. simpl. rewrite lookup_insert_eq. simpl.
  destruct (Submit _ uuid) as [[b' q]| |] eqn:E; simpl; try done.
  intros [= <- <- <-]. split; [done|].
  destruct (Submit_store _ _ _ _ E) as [Hs Hu]. simpl in Hs, Hu.
  split; [done|]. split; [done|]. split.
  - destruct b'; [by apply Submit_accepts in E|].
    unfold Submit in E.
    destruct (trySend _ _) as [[[c [w|]]|]| |]; simpl in E; try done.
    by injection E as <-.
  - simpl. unfold Store.declare, Store.alloc, Store.Save. simpl.
    rewrite lookup_insert_eq. simpl. unfold set_store at 1. simpl.
    unfold set_store in E. simpl in E. by rewrite E.
Qed.

End Concurrent.

(** X24. A request while the workers run. Let the goroutines of the pool
    take any number of steps between the return of [Submit] and the rest
    of [CreateJob], for a request whose identifier is new to the store and
    to the pool. After an accepted submission the answer is 202 with the
    identifier and the status the record has by then: [queued] if no
    worker has written yet, [running] after the first write, the terminal
    status after the second. After a refusal the answer is 503 and the
    record is stored as [failed] with the text [queue is full], the task
    and creation time of the request and the time of the update. *)
Theorem response_reports_the_status_of_the_moment (p p1 p2 : Worker.Pool)
    (task uuid : string) (created updated now : Store.Time) (job : Store.loc)
    (ok : bool) (acts : list Worker.Action) :
  Worker.reachable p →
  (∀ l j, Store.heap (Worker.store p) !! l = Some j → Store.ID j ≠ uuid) →
  uuid ∉ Worker.accepted p →
  Handler.CreateJob_submit p task uuid created updated = Ok (job, ok, p1) →
  Forall (λ a, Worker.engine_action a = true) acts →
  Worker.run acts p1 = Ok p2 →
  if ok then
    ∃ st, Handler.CreateJob_respond p2 job true now
          = Ok ((Handler.StatusAccepted, Handler.CreateJobResponse uuid st), p2) ∧
          Hist.follows Store.StatusQueued
            (Hist.writes uuid (Worker.updates p2)) st
  else
    ∃ p3, Handler.CreateJob_respond p2 job false now
          = Ok ((Handler.StatusServiceUnavailable,
                 Handler.ErrorResponse "job queue is full, try later"), p3) ∧
          Store.Get (Worker.store p3) uuid
          = Ok (Store.mkJob uuid task Store.StatusFailed "queue is full"
                  created now, None).
Proof.
  intros Hr Hnew Hno HS Hall Hrun.
  pose proof (Inv_reachable p Hr) as HI.
  pose proof (Hist.inv_wf p HI) as Hwf.
  destruct (CreateJob_submit_fields _ _ _ _ _ _ _ _ HS)
    as (Hjob & Hs1 & Hu1 & Ha1 & Hrun0).
  pose proof (Inv_run _ _ _ HI Hrun0) as HI1.
  pose proof (Inv_run _ _ _ HI1 Hrun) as HI2.
  assert (Hj1 : Store.heap (Worker.store p1) !! job
                = Some (Handler.newJob uuid task created updated)).
  { rewrite Hs1. simpl. by rewrite lookup_insert_eq. }
  destruct (same_records_run acts p1 p2 Hall Hrun) as [Hjobs Hheap].
  specialize (Hheap job). rewrite Hj1 in Hheap.
  destruct Hheap as (j' & Hj' & HID & HT & HC). simpl in HID, HT, HC.
  assert (Hkey : Store.jobs (Worker.store p2) !! uuid = Some job).
  { rewrite Hjobs, Hs1. simpl. by rewrite lookup_insert_eq. }
  destruct ok.
  - assert (HO : Hist.Owned uuid job (Worker.store p1)).
    { rewrite Hs1. constructor; simpl.
      - by rewrite lookup_insert_eq.
      - intros id'. destruct (decide (id' = uuid)) as [|Hd]; [done|].
        rewrite lookup_insert_ne by done. intros Hid'.
        destruct (Hwf _ _ Hid') as [x Hx]. rewrite Hjob in Hx.
        by rewrite fresh_loc_unused in Hx.
      - intros l' j. destruct (decide (l' = job)) as [|Hd]; [done|].
        rewrite lookup_insert_ne by done. intros Hj HIDj.
        by destruct (Hnew _ _ Hj). }
    assert (HL : Hist.writes uuid (Worker.updates p1) = []).
    { rewrite Hu1. by apply writes_absent. }
    destruct (stored_status_follows_writes uuid job acts p1 p2 _ HI1 HO Hj1
                (engine_respects uuid job acts Hall) Hrun)
      as (more & j2 & Hm & _ & HG & Hst).
    assert (j2 = j') as ->.
    { unfold Store.Get in HG. rewrite Hkey, Hj' in HG. by injection HG as ->. }
    exists (Store.JobStatus j'). split.
    + unfold Handler.CreateJob_respond, Handler.deref. rewrite Hj'. simpl.
      by rewrite HID.
    + assert (Hc : (Hist.count uuid (Worker.accepted p2) ≤ 1)%nat).
      { rewrite (accepted_run_engine _ _ _ Hall Hrun), Ha1, count_snoc.
        rewrite (count_absent _ _ Hno). by destruct (decide (uuid = uuid)). }
      pose proof (writes_once p2 uuid HI2 Hc) as Hw.
      rewrite Hm, writes_app, HL in Hw |- *. simpl in Hw |- *. rewrite Hst.
      simpl in Hst.
      destruct Hw as [->|[->|(t & Ht & ->)]].
      * by left.
      * right. by left.
      * right. right. by exists t.
  - eexists. split.
    + unfold Handler.CreateJob_respond, Handler.deref. rewrite Hj'. simpl.
      unfold Store.UpdateStatus. rewrite HID, Hkey, Hj'. simpl. done.
    + unfold Store.Get. simpl. rewrite Hkey, lookup_insert_eq.
      by rewrite HID, HT, HC.
Qed.

Lemma response_reports_the_status_of_the_moment_witness :
  ∃ job p1 p2,
    Handler.CreateJob_submit demoPool "resize" "u1" 10 11 = Ok (job, true, p1) ∧
    Worker.run [Worker.AReceive 0; Worker.ABegin 0 12] p1 = Ok p2 ∧
    Handler.CreateJob_respond p2 job true 13
    = Ok ((Handler.StatusAccepted,
           Handler.CreateJobResponse "u1" Store.StatusRunning), p2).
Proof.
  eexists _, _, _. split; [vm_compute; reflexivity|].
  split; [vm_compute; reflexivity|].
  match goal with |- Handler.CreateJob_respond ?p2 ?job _ _ = _ =>
    let r := eval vm_compute in
      (Handler.CreateJob_submit demoPool "resize" "u1" 10 11) in
    match r with
    | Ok (_, _, ?p1) =>
        destruct (response_reports_the_status_of_the_moment demoPool p1 p2
                    "resize" "u1" 10 11 13 job true
                    [Worker.AReceive 0; Worker.ABegin 0 12])
          as (st & HR & Hf)
    end
  end.
  - apply demoPool_reachable.
  - intros l j H.
    destruct (decide (l = 1%positive)) as [->|Hne].
    + vm_compute in H. injection H as <-. discriminate.
    + unfold demoPool in H. destruct (spawn_fields 3
        (Worker.mkPool (Worker.mkChan [] 100 false []) demoStore
           Worker.DefaultConfig 0 [] [] false [] []))
        as (_ & _ & _ & Hs & _).
      rewrite Hs in H. simpl in H. unfold Store.alloc in H. simpl in H.
      rewrite lookup_insert_ne in H by done. by rewrite lookup_empty in H.
  - intros H. vm_compute in H. by apply elem_of_nil in H.
  - vm_compute. reflexivity.
  - repeat constructor.
  - vm_compute. reflexivity.
  - vm_compute in HR. injection HR as <-. vm_compute. reflexivity.
Defined.
